(** * Stake debate platform: speech-capture pipeline and summary aggregation

    A shallow embedding of the caption pipeline ([useSpeechRecognition],
    [useCaptions], the captions display) and of the summary engine
    ([generateDebateSummary], [useDebateSummary]) together with the
    properties the specification states about them and further properties
    of the code.

    - Strings are sequences of UTF-16 code units, numbers are IEEE doubles
      ([float]) or, for counts and instants, integers.
    - The hook is a transition system.  Its state holds the React state,
      the refs, every [SpeechRecognition] object the effect has made (with
      the values its handlers close over), the pending host timers, the
      rows the store has written, and the history of host calls.  The
      environment (recognizer, timers, consumer, React) is a sequence of
      inputs: a callback that runs to completion, or a render.
    - The external services answer through the inputs: the outcome of the
      generative call and of each caption insert is part of the input. *)

From Stdlib Require Import ZArith List Sorted Permutation Floats Ascii String
  DecimalString.
From stdpp Require Import base tactics option list sorting gmap.

Open Scope Z_scope.

(** ** JavaScript values used by the code *)

(** A JavaScript string is a sequence of 16-bit code units. *)
Abbreviation jsstring := (list N).

(** An ASCII literal as a JavaScript string. *)
Definition lit (s : string) : jsstring :=
  map N_of_ascii (list_ascii_of_string s).

(** The two debate positions, ['side_a' | 'side_b']. *)
Inductive side := side_a | side_b.

#[global] Instance side_eq_dec : EqDecision side.
Proof. solve_decision. Defined.

(** [Array.prototype.sort(compareFn)]: ECMAScript requires a stable sort and,
    for a consistent comparator, fixes the result; the element [x] stays in
    front of [y] unless [compareFn(x, y) > 0].  Insertion from the right
    computes that result. *)
Section JsSort.
Context {A : Type} (compareFn : A -> A -> Z).

Fixpoint sort_insert (x : A) (l : list A) : list A :=
  match l with
  | [] => [x]
  | y :: l' =>
      if compareFn x y <=? 0 then x :: y :: l' else y :: sort_insert x l'
  end.

Definition js_sort (l : list A) : list A := foldr sort_insert [] l.
End JsSort.

(** ** Content Aggregator ([src/lib/gemini.ts], lines 16-34) *)

(** A chat message row as [generateDebateSummary] receives it.  [timestamp]
    is the instant of the row's [timestamptz] value in epoch milliseconds,
    that is, [new Date(m.timestamp).getTime()]. *)
Module Message.
Record t := mk {
  content : jsstring;
  side : option side;
  timestamp : Z;
  user_id : option jsstring
}.
End Message.

(** A caption row as [generateDebateSummary] receives it. *)
Module Caption.
Record t := mk {
  content : jsstring;
  participant_side : option side;
  timestamp : Z;
  confidence : option float
}.
End Caption.

Inductive content_type := type_message | type_caption.

#[global] Instance content_type_eq_dec : EqDecision content_type.
Proof. solve_decision. Defined.

(** An element of [allContent]. *)
Module Entry.
Record t := mk {
  content : jsstring;
  side : option side;
  timestamp : Z;
  type : content_type;
  user_id : option jsstring;
  confidence : option float
}.
End Entry.

Definition of_message (m : Message.t) : Entry.t :=
  Entry.mk (Message.content m) (Message.side m) (Message.timestamp m)
           type_message (Message.user_id m) None.

Definition of_caption (c : Caption.t) : Entry.t :=
  Entry.mk (Caption.content c) (Caption.participant_side c)
           (Caption.timestamp c) type_caption None (Caption.confidence c).

(** [(a, b) => new Date(a.timestamp).getTime() - new Date(b.timestamp).getTime()] *)
Definition by_time (a b : Entry.t) : Z :=
  Entry.timestamp a - Entry.timestamp b.

(** The array literal before [.sort]: messages first, then captions. *)
Definition fetched (messages : list Message.t) (captions : list Caption.t)
  : list Entry.t :=
  map of_message messages ++ map of_caption captions.

Definition allContent (messages : list Message.t) (captions : list Caption.t)
  : list Entry.t :=
  js_sort by_time (fetched messages captions).

(** [allContent.filter(c => c.side === s)] *)
Definition sideContent (s : side) (all : list Entry.t) : list Entry.t :=
  filter (λ c, Entry.side c = Some s) all.


Definition time_le (a b : Entry.t) : Prop :=
  Entry.timestamp a <= Entry.timestamp b.

(** A comparator that subtracts keys, and the order it sorts into. *)
Definition cmp_of {A} (key : A -> Z) (a b : A) : Z := key a - key b.
Definition le_of {A} (key : A -> Z) (a b : A) : Prop := key a <= key b.


(** ** Per-side arguments persisted with a summary
       ([src/hooks/useDebateSummary.ts], lines 154-161) *)

Module Votes.
Record t := mk { side_a : N; side_b : N }.
End Votes.

Module SummaryData.
Record t := mk {
  topic : jsstring;
  sideALabel : jsstring;
  sideBLabel : jsstring;
  messages : list Message.t;
  votes : Votes.t;
  captions : list Caption.t;
  duration : Z;
  participants : N
}.
End SummaryData.

(** [array.slice(0, n)] *)
Definition slice0 {A} (n : nat) (l : list A) : list A := take n l.

Definition extractSideArguments (data : SummaryData.t) (s : side)
  : list jsstring :=
  let sideContent :=
    map Message.content
        (filter (λ m, Message.side m = Some s) (SummaryData.messages data))
    ++ map Caption.content
        (filter (λ c, Caption.participant_side c = Some s)
                (SummaryData.captions data)) in
  slice0 10 sideContent.

(** The first ten entries of the side in the chronological merge of both
    sources. *)
Definition chronological_side_arguments (data : SummaryData.t) (s : side)
  : list jsstring :=
  take 10 (map Entry.content
             (sideContent s (allContent (SummaryData.messages data)
                                        (SummaryData.captions data)))).

(** Side A speaks at t = 1000 and writes at t = 2000. *)
Definition early_caption_data : SummaryData.t :=
  SummaryData.mk (lit "topic") (lit "For") (lit "Against")
    [Message.mk (lit "written later") (Some side_a) 2000 None]
    (Votes.mk 0 0)
    [Caption.mk (lit "spoken first") (Some side_a) 1000 None]
    0 0.

(** Side A writes first and speaks last. *)
Definition chat_then_speech_data : SummaryData.t :=
  SummaryData.mk (lit "topic") (lit "For") (lit "Against")
    [Message.mk (lit "opening") (Some side_a) 1000 None;
     Message.mk (lit "reply") (Some side_b) 2000 None]
    (Votes.mk 3 1)
    [Caption.mk (lit "closing") (Some side_a) 3000 (Some 0x1.e666666666666p-1%float)]
    5 4.

(** ** Summary Synthesizer ([src/lib/gemini.ts]) *)

(** *** Numbers in template literals *)

(** [String(n)] for a non-negative integer [n]. *)
Definition decimal (n : N) : jsstring :=
  lit (DecimalString.NilZero.string_of_uint (N.to_uint n)).

(** A count as a JavaScript number.  Counts are array lengths, far below
    2^53, so the conversion is exact. *)
Definition number_of_count (n : N) : float :=
  PrimFloat.of_uint63 (Uint63.of_Z (Z.of_N n)).

(** The integer [n] for which [n / 10 - x] is closest to zero, the larger
    one on a tie ([Number.prototype.toFixed], step 10.a), for [x = m * 2^e]. *)
Definition nearest_tenth (m : positive) (e : Z) : Z :=
  if 0 <=? e then 10 * Z.pos m * 2 ^ e
  else (20 * Z.pos m + 2 ^ (- e)) / 2 ^ (- e + 1).

(** The digits of [n] with a point in front of the last one, left-padded
    with zeros to two digits. *)
Definition one_decimal (n : Z) : jsstring :=
  decimal (Z.to_N (n / 10)) ++ lit "." ++ decimal (Z.to_N (n mod 10)).

(** [x.toFixed(1)] for a number below 10^21 in magnitude. *)
Definition toFixed1 (x : float) : jsstring :=
  match Prim2SF x with
  | S754_nan => lit "NaN"
  | S754_infinity false => lit "Infinity"
  | S754_infinity true => lit "-Infinity"
  | S754_zero _ => lit "0.0"
  | S754_finite s m e =>
      let n := nearest_tenth m e in
      (if s then lit "-" else []) ++ one_decimal n
  end.

(** [totalVotes > 0 ? ((v / totalVotes) * 100).toFixed(1) : '0'] *)
Definition percentage (v totalVotes : N) : jsstring :=
  if (0 <? totalVotes)%N
  then toFixed1 (number_of_count v / number_of_count totalVotes * 100)%float
  else lit "0".

(** *** The generative service as the function sees it *)

(** A value caught by [catch (error)]. *)
Inductive thrown :=
  | ErrorObject (message : jsstring)   (* [error instanceof Error] *)
  | OtherValue.

(** What the [try] block meets between [fetch] and [return generatedText]. *)
Inductive service_outcome :=
  | fetch_rejects (e : thrown)
      (* network failure: [await fetch(...)] throws *)
  | response_not_ok (status : N) (statusText : jsstring)
                    (errorMessage : option jsstring)
      (* [!response.ok]; [errorMessage] is [errorData.error?.message] *)
  | response_json_rejects (e : thrown)
      (* [response.ok] but [await response.json()] throws *)
  | response_ok (generatedText : option jsstring).
      (* [data.candidates?.[0]?.content?.parts?.[0]?.text] *)

Inductive completion :=
  | Returns (value : jsstring)
  | Throws (message : jsstring).

(** A string in a boolean position: only the empty string is falsy. *)
Definition truthy (s : jsstring) : bool :=
  match s with [] => false | _ => true end.

(** [a || b] on strings. *)
Definition or_else (a b : jsstring) : jsstring := if truthy a then a else b.

(** [lines.join('\n')] *)
Definition nl : jsstring := [10%N].
Definition quote : jsstring := [34%N].

Fixpoint join_lines (lines : list jsstring) : jsstring :=
  match lines with
  | [] => []
  | [l] => l
  | l :: rest => l ++ nl ++ join_lines rest
  end.

(** The value the [try] block produces, or what it throws. *)
Definition try_block (o : service_outcome) : jsstring + thrown :=
  match o with
  | fetch_rejects e => inr e
  | response_not_ok status statusText errorMessage =>
      inr (ErrorObject
             (lit "Gemini API error: " ++ decimal status ++ lit " "
              ++ statusText ++ lit ". "
              ++ or_else (default [] errorMessage) []))
  | response_json_rejects e => inr e
  | response_ok generatedText =>
      if truthy (default [] generatedText)
      then inl (default [] generatedText)
      else inr (ErrorObject (lit "No content generated by Gemini API"))
  end.

(** [error instanceof Error ? error.message : 'Unknown error'] *)
Definition error_text (e : thrown) : jsstring :=
  match e with
  | ErrorObject message => message
  | OtherValue => lit "Unknown error"
  end.

(** [items.slice(0, 5).map(item => `- ${item.content}`).join('\n')
     || '- No arguments recorded'] *)
Definition top_contributions (items : list Entry.t) : jsstring :=
  or_else
    (join_lines (map (λ item, lit "- " ++ Entry.content item) (slice0 5 items)))
    (lit "- No arguments recorded").

Section Fallback.
Context (topic : jsstring) (messages : list Message.t) (votes : Votes.t)
        (captions : list Caption.t) (sideALabel sideBLabel : jsstring).

Definition count {A} (l : list A) : jsstring := decimal (N.of_nat (length l)).

Definition totalVotes : N := (Votes.side_a votes + Votes.side_b votes)%N.
Definition sideAPercentage : jsstring := percentage (Votes.side_a votes) totalVotes.
Definition sideBPercentage : jsstring := percentage (Votes.side_b votes) totalVotes.
Definition sideAContent : list Entry.t :=
  sideContent side_a (allContent messages captions).
Definition sideBContent : list Entry.t :=
  sideContent side_b (allContent messages captions).

(** The template literal of the [catch] branch, one source line per item. *)
Definition fallbackSummary (error : thrown) : jsstring :=
  join_lines [
    lit "# Debate Summary: " ++ topic;
    [];
    lit "## Executive Summary";
    lit "This debate on " ++ quote ++ topic ++ quote ++ lit " generated "
      ++ count messages ++ lit " chat messages and " ++ count captions
      ++ lit " speech contributions, with " ++ decimal totalVotes
      ++ lit " participants casting votes. The discussion concluded with "
      ++ sideALabel ++ lit " receiving " ++ decimal (Votes.side_a votes)
      ++ lit " votes (" ++ sideAPercentage ++ lit "%) and " ++ sideBLabel
      ++ lit " receiving " ++ decimal (Votes.side_b votes) ++ lit " votes ("
      ++ sideBPercentage ++ lit "%).";
    [];
    lit "## Debate Overview";
    lit "The debate featured structured discussion between " ++ sideALabel
      ++ lit " and " ++ sideBLabel
      ++ lit " positions, with participants contributing through both text chat and live speech. The format allowed for real-time audience engagement and voting.";
    [];
    lit "## Key Arguments";
    [];
    lit "### " ++ sideALabel ++ lit " Position (" ++ count sideAContent
      ++ lit " contributions):";
    top_contributions sideAContent;
    [];
    lit "### " ++ sideBLabel ++ lit " Position (" ++ count sideBContent
      ++ lit " contributions):";
    top_contributions sideBContent;
    [];
    lit "## Voting Results";
    lit "- **" ++ sideALabel ++ lit ":** " ++ decimal (Votes.side_a votes)
      ++ lit " votes (" ++ sideAPercentage ++ lit "%)";
    lit "- **" ++ sideBLabel ++ lit ":** " ++ decimal (Votes.side_b votes)
      ++ lit " votes (" ++ sideBPercentage ++ lit "%)";
    [];
    lit "## Discussion Timeline";
    lit "The debate included:";
    lit "- " ++ count messages ++ lit " text messages from participants";
    lit "- " ++ count captions ++ lit " speech-to-text captions from anchors";
    lit "- Real-time voting by " ++ decimal totalVotes ++ lit " participants";
    [];
    lit "## Conclusion";
    lit "This debate provided valuable insights into different perspectives on "
      ++ topic
      ++ lit ". The voting results reflect the audience's response to the arguments presented by both sides.";
    [];
    lit "*Note: This is a basic summary. AI-powered analysis is temporarily unavailable due to: "
      ++ error_text error ++ lit "*"
  ].

(** [generateDebateSummary]; [GEMINI_API_KEY] is the build-time setting
    [import.meta.env.VITE_GEMINI_API_KEY] ([None] when it is not set) and
    [outcome] is what the service call meets when it is made.  The prompt
    is built from the same data before the [try] block without any step
    that can throw; it only travels in the request. *)
Definition generateDebateSummary (GEMINI_API_KEY : option jsstring)
    (outcome : service_outcome) : completion :=
  if negb (truthy (default [] GEMINI_API_KEY)) then
    Throws (lit "Gemini API key not configured. Please add VITE_GEMINI_API_KEY to your environment variables.")
  else
    match try_block outcome with
    | inl generatedText => Returns generatedText
    | inr error => Returns (fallbackSummary error)
    end.
End Fallback.

(** The service call failed: network error, non-2xx response, unreadable
    body, or empty output. *)
Definition call_failed (o : service_outcome) : Prop :=
  match o with
  | response_ok (Some (_ :: _)) => False
  | _ => True
  end.

#[global] Instance call_failed_dec o : Decision (call_failed o).
Proof. destruct o as [| | |[[|]|]]; simpl; apply _. Defined.

(** The error the [catch] branch sees after a failed call. *)
Definition failure_of (o : service_outcome) : thrown :=
  match try_block o with
  | inr e => e
  | inl _ => OtherValue
  end.

Definition unreachable_service : service_outcome :=
  fetch_rejects (ErrorObject (lit "Failed to fetch")).

Definition empty_output : service_outcome := response_ok (Some []).

(** The end-to-end scenario of the specification: three chat messages
    (side A at t1 and t3, side B at t2), two final captions (side A at t4,
    side B at t5) and the votes 3 to 1. *)
Definition scenario_messages : list Message.t :=
  [Message.mk (lit "a1") (Some side_a) 1 None;
   Message.mk (lit "b2") (Some side_b) 2 None;
   Message.mk (lit "a3") (Some side_a) 3 None].

Definition scenario_captions : list Caption.t :=
  [Caption.mk (lit "a4") (Some side_a) 4 (Some 0x1.e666666666666p-1%float);
   Caption.mk (lit "b5") (Some side_b) 5 (Some 0x1.3333333333333p-1%float)].

(** ** Durable caption storage *)

(** A row of the [captions] table ([src/unnamed/part_000], lines 141-151).
    The column [confidence] is [numeric(3,2)]: it holds a whole number of
    hundredths, here [Some n] for n/100, or is null ([None]). *)
Module CaptionRow.
Record t := mk {
  id : N;
  room_id : jsstring;
  user_id : jsstring;
  participant_side : option side;
  content : jsstring;
  confidence : option Z;
  timestamp : Z;
  is_final : bool
}.
End CaptionRow.

#[global] Instance CaptionRow_eq_dec : EqDecision CaptionRow.t.
Proof. solve_decision. Defined.

(** ** Caption Stream Reader ([src/hooks/useCaptions.ts]) *)

(** [.eq('room_id', roomId).eq('is_final', true)]: the rows the bulk query
    selects. *)
Definition selected (roomId : jsstring) (r : CaptionRow.t) : Prop :=
  CaptionRow.room_id r = roomId ∧ CaptionRow.is_final r = true.

#[global] Instance selected_dec roomId r : Decision (selected roomId r).
Proof. unfold selected. apply _. Defined.

(** [.from('captions').select('*').eq('room_id', roomId).eq('is_final', true)
     .order('timestamp', { ascending: true })]: [data] is an answer of the
    store to the bulk query on a snapshot [table] of the table.  An answer
    holds the selected rows, each as often as the table holds it, in
    ascending timestamp order; the order among rows of one timestamp is the
    store's choice. *)
Definition fetchCaptions_query (roomId : jsstring)
    (table data : list CaptionRow.t) : Prop :=
  data ≡ₚ filter (selected roomId) table
  ∧ StronglySorted (le_of CaptionRow.timestamp) data.

(** What reaches the hook after it is mounted for [roomId]. *)
Inductive reader_event :=
  | fetch_resolved (data : list CaptionRow.t)
      (* the bulk query answers with [data] ([[]] when [data] is null) *)
  | fetch_failed
      (* the bulk query reports an error *)
  | row_inserted (row : CaptionRow.t).
      (* an INSERT on [captions]; the channel forwards it when
         [room_id=eq.${roomId}] holds *)

(** The [captions] state after one event. *)
Definition reader_step (roomId : jsstring) (captions : list CaptionRow.t)
    (ev : reader_event) : list CaptionRow.t :=
  match ev with
  | fetch_resolved data => data        (* [setCaptions(data || [])] *)
  | fetch_failed => captions
  | row_inserted row =>
      if decide (CaptionRow.room_id row = roomId)
      then captions ++ [row]      (* [setCaptions(prev => [...prev, payload.new])] *)
      else captions
  end.

Definition useCaptions (roomId : jsstring) (events : list reader_event)
  : list CaptionRow.t :=
  foldl (reader_step roomId) [] events.

Definition all_final (captions : list CaptionRow.t) : Prop :=
  Forall (λ r, CaptionRow.is_final r = true) captions.

(** The rows that writers inserted for the room while the hook listened. *)
Definition notified (roomId : jsstring) (events : list reader_event)
  : list CaptionRow.t :=
  omap (λ ev, match ev with
              | row_inserted row =>
                  if decide (CaptionRow.room_id row = roomId)
                  then Some row else None
              | _ => None
              end) events.

(** Every bulk answer among the events is an answer of the store to the
    query of this room. *)
Definition answered (roomId : jsstring) (events : list reader_event) : Prop :=
  Forall (λ ev, match ev with
                | fetch_resolved data =>
                    ∃ table, fetchCaptions_query roomId table data
                | _ => True
                end) events.

Definition interim_row : CaptionRow.t :=
  CaptionRow.mk 7 (lit "room-1") (lit "user-9") (Some side_b)
    (lit "partial words") (Some 50) 4000 false.

(** ** Recognition Session Controller and Caption Persister
       ([src/hooks/useSpeechRecognition.ts]) *)

(** *** What the host recognizer delivers *)

(** [event.results[i][0]]: the best alternative of a result.  [confidence]
    is [None] when the host leaves it undefined. *)
Module Alternative.
Record t := mk {
  transcript : jsstring;
  confidence : option float
}.
End Alternative.

Module RecognitionResult.
Record t := mk {
  first : Alternative.t;     (* [results[i][0]] *)
  isFinal : bool
}.
End RecognitionResult.

(** The argument of [recognition.onresult]. *)
Module ResultEvent.
Record t := mk {
  resultIndex : nat;
  results : list RecognitionResult.t
}.
End ResultEvent.

(** [event.error] of [recognition.onerror]. *)
Inductive error_kind :=
  | not_allowed
  | no_speech
  | network
  | other_error (code : jsstring).

(** The answer of the store to one [insert]. *)
Inductive insert_outcome :=
  | stored (id : N) (timestamp : Z)
      (* the row is written with this [id] and [timestamp], provided its
         values fit the columns *)
  | insert_error                      (* [{ error: insertError }] *)
  | insert_throws.                    (* the call rejects *)

(** *** Strings and numbers in [onresult] *)

(** White space and line terminators of ECMAScript, as code units. *)
Definition is_white_space (c : N) : bool :=
  ((9 <=? c) && (c <=? 13) || (c =? 32) || (c =? 160) || (c =? 5760)
   || (8192 <=? c) && (c <=? 8202) || (c =? 8232) || (c =? 8233)
   || (c =? 8239) || (c =? 8287) || (c =? 12288) || (c =? 65279))%N.

Fixpoint trim_start (s : jsstring) : jsstring :=
  match s with
  | c :: s' => if is_white_space c then trim_start s' else s
  | [] => []
  end.

(** [s.trim()] *)
Definition trim (s : jsstring) : jsstring :=
  reverse (trim_start (reverse (trim_start s))).

(** A number in a boolean position: [0], [-0] and [NaN] are falsy. *)
Definition number_truthy (x : float) : bool :=
  negb (x =? 0)%float && (x =? x)%float.

(** The literal [0.9]. *)
Definition default_confidence : float := 0x1.ccccccccccccdp-1%float.

(** [event.results[event.resultIndex]?.[0]?.confidence || 0.9] *)
Definition caption_confidence (ev : ResultEvent.t) : float :=
  match ResultEvent.results ev !! ResultEvent.resultIndex ev with
  | Some r =>
      match Alternative.confidence (RecognitionResult.first r) with
      | Some c => if number_truthy c then c else default_confidence
      | None => default_confidence
      end
  | None => default_confidence
  end.

(** The [for] loop of [onresult]: the pair [(interimTranscript,
    finalTranscript)] after the results from [resultIndex] on. *)
Definition collect_transcripts (ev : ResultEvent.t) : jsstring * jsstring :=
  foldl (λ acc r,
           let transcript := Alternative.transcript (RecognitionResult.first r) in
           if RecognitionResult.isFinal r
           then (acc.1, acc.2 ++ transcript)
           else (acc.1 ++ transcript, acc.2))
        ([], []) (drop (ResultEvent.resultIndex ev) (ResultEvent.results ev)).

Definition interimTranscript (ev : ResultEvent.t) : jsstring :=
  (collect_transcripts ev).1.
Definition finalTranscript (ev : ResultEvent.t) : jsstring :=
  (collect_transcripts ev).2.

(** *** The hook *)

Module Props.
Record t := mk {
  roomId : jsstring;
  userId : jsstring;
  participantSide : option side;
  isAnchor : bool;
  autoStart : bool
}.
End Props.

(** A [SpeechRecognition] object made by one run of the effect.  Its
    handlers close over the [autoRestartCount] and [isListening] of the
    render in which the effect ran; [started] is the host's view: set by
    [start()], cleared when the object's [end] event is delivered. *)
Module Recognition.
Record t := mk {
  autoRestartCount : nat;
  isListening : bool;
  started : bool
}.
End Recognition.

(** A pending [setTimeout] callback. *)
Inductive timer :=
  | restart_timer (isListening : bool)
      (* line 63: made by [onend]; [isListening] is the value the
         callback closes over *)
  | retry_timer (isListening : bool)
      (* line 70: made when the restart's [start()] throws *)
  | autostart_timer.
      (* line 164: made once on mount, calls [startListening] *)

Inductive start_origin :=
  | by_caller                       (* [startListening] called by the consumer *)
  | by_autostart (id : nat)
  | by_restart (id : nat)
  | by_retry (id : nat).

(** The payload of [supabase.from('captions').insert(...)]. *)
Module CaptionInsert.
Record t := mk {
  room_id : jsstring;
  user_id : jsstring;
  participant_side : side;
  content : jsstring;
  confidence : float;
  is_final : bool
}.
End CaptionInsert.

(** The calls the hook makes on its host, in order. *)
Inductive action :=
  | SetTimeout (id : nat) (delay : Z) (t : timer)
  | ClearTimeout (id : nat)
  | RecognitionStart (r : nat) (origin : start_origin) (accepted : bool)
  | RecognitionStop (r : nat)
  | Insert (payload : CaptionInsert.t).

Module Session.
Record t := mk {
  (* React state *)
  isListening : bool;
  transcript : jsstring;
  error : jsstring;
  autoRestartCount : nat;
  (* the [isListening] of the last render, which the [stopListening] handed
     to the consumer closes over ([useCallback], deps [[isListening]]) *)
  renderedIsListening : bool;
  (* refs *)
  finalTranscriptRef : jsstring;
  autoRestartTimeoutRef : option nat;
  (* every recognition object made so far; [recognitionRef.current] is the
     last one *)
  recognitions : list Recognition.t;
  (* host *)
  timers : gmap nat timer;
  nextTimerId : nat;
  captions : list CaptionRow.t;      (* rows the store has written *)
  actions : list action              (* history of host calls *)
}.
End Session.

Import Session.

Definition set_isListening (b : bool) (s : Session.t) : Session.t :=
  Session.mk b (transcript s) (error s) (autoRestartCount s)
    (renderedIsListening s) (finalTranscriptRef s) (autoRestartTimeoutRef s) (recognitions s)
    (timers s) (nextTimerId s) (captions s) (actions s).

Definition set_transcript (x : jsstring) (s : Session.t) : Session.t :=
  Session.mk (isListening s) x (error s) (autoRestartCount s)
    (renderedIsListening s) (finalTranscriptRef s) (autoRestartTimeoutRef s) (recognitions s)
    (timers s) (nextTimerId s) (captions s) (actions s).

Definition set_error (x : jsstring) (s : Session.t) : Session.t :=
  Session.mk (isListening s) (transcript s) x (autoRestartCount s)
    (renderedIsListening s) (finalTranscriptRef s) (autoRestartTimeoutRef s) (recognitions s)
    (timers s) (nextTimerId s) (captions s) (actions s).

Definition set_autoRestartCount (n : nat) (s : Session.t) : Session.t :=
  Session.mk (isListening s) (transcript s) (error s) n
    (renderedIsListening s) (finalTranscriptRef s) (autoRestartTimeoutRef s) (recognitions s)
    (timers s) (nextTimerId s) (captions s) (actions s).

Definition set_renderedIsListening (b : bool) (s : Session.t) : Session.t :=
  Session.mk (isListening s) (transcript s) (error s) (autoRestartCount s)
    b (finalTranscriptRef s) (autoRestartTimeoutRef s) (recognitions s)
    (timers s) (nextTimerId s) (captions s) (actions s).

Definition set_finalTranscriptRef (x : jsstring) (s : Session.t) : Session.t :=
  Session.mk (isListening s) (transcript s) (error s) (autoRestartCount s)
    (renderedIsListening s) x (autoRestartTimeoutRef s) (recognitions s)
    (timers s) (nextTimerId s) (captions s) (actions s).

Definition set_autoRestartTimeoutRef (x : option nat) (s : Session.t)
  : Session.t :=
  Session.mk (isListening s) (transcript s) (error s) (autoRestartCount s)
    (renderedIsListening s) (finalTranscriptRef s) x (recognitions s)
    (timers s) (nextTimerId s) (captions s) (actions s).

Definition set_recognitions (x : list Recognition.t) (s : Session.t)
  : Session.t :=
  Session.mk (isListening s) (transcript s) (error s) (autoRestartCount s)
    (renderedIsListening s) (finalTranscriptRef s) (autoRestartTimeoutRef s) x
    (timers s) (nextTimerId s) (captions s) (actions s).

Definition set_timers (x : gmap nat timer) (s : Session.t) : Session.t :=
  Session.mk (isListening s) (transcript s) (error s) (autoRestartCount s)
    (renderedIsListening s) (finalTranscriptRef s) (autoRestartTimeoutRef s) (recognitions s)
    x (nextTimerId s) (captions s) (actions s).

Definition set_nextTimerId (x : nat) (s : Session.t) : Session.t :=
  Session.mk (isListening s) (transcript s) (error s) (autoRestartCount s)
    (renderedIsListening s) (finalTranscriptRef s) (autoRestartTimeoutRef s) (recognitions s)
    (timers s) x (captions s) (actions s).

Definition set_captions (x : list CaptionRow.t) (s : Session.t) : Session.t :=
  Session.mk (isListening s) (transcript s) (error s) (autoRestartCount s)
    (renderedIsListening s) (finalTranscriptRef s) (autoRestartTimeoutRef s) (recognitions s)
    (timers s) (nextTimerId s) x (actions s).

Definition log (a : action) (s : Session.t) : Session.t :=
  Session.mk (isListening s) (transcript s) (error s) (autoRestartCount s)
    (renderedIsListening s) (finalTranscriptRef s) (autoRestartTimeoutRef s) (recognitions s)
    (timers s) (nextTimerId s) (captions s) (actions s ++ [a]).

(** **** Host calls *)

(** The index of [recognitionRef.current]. *)
Definition current (s : Session.t) : nat := pred (length (recognitions s)).

(** [setTimeout(callback, delay)]: a fresh positive handle. *)
Definition setTimeout (delay : Z) (t : timer) (s : Session.t)
  : nat * Session.t :=
  let id := nextTimerId s in
  (id, log (SetTimeout id delay t)
         (set_nextTimerId (S id) (set_timers (<[id := t]> (timers s)) s))).

(** [clearTimeout(id)]: no effect when [id] is not pending. *)
Definition clearTimeout (id : nat) (s : Session.t) : Session.t :=
  log (ClearTimeout id) (set_timers (delete id (timers s)) s).

Inductive start_result := start_accepted | start_threw | no_recognition.

(** [recognitionRef.current.start()]: throws [InvalidStateError] when the
    object is already started. *)
Definition recognition_start (origin : start_origin) (s : Session.t)
  : start_result * Session.t :=
  let r := current s in
  match recognitions s !! r with
  | Some o =>
      if Recognition.started o
      then (start_threw, log (RecognitionStart r origin false) s)
      else (start_accepted,
            log (RecognitionStart r origin true)
              (set_recognitions
                 (<[r := Recognition.mk (Recognition.autoRestartCount o)
                           (Recognition.isListening o) true]> (recognitions s))
                 s))
  | None => (no_recognition, s)
  end.

(** [recognitionRef.current.stop()] *)
Definition recognition_stop (s : Session.t) : Session.t :=
  match recognitions s !! current s with
  | Some _ => log (RecognitionStop (current s)) s
  | None => s
  end.

(** **** The handlers of one recognition object (lines 46-143) *)

Definition onstart (s : Session.t) : Session.t :=
  set_autoRestartCount 0 (set_error [] (set_isListening true s)).

(** The guard of line 58, evaluated with the closure's [autoRestartCount]. *)
Definition restart_guard (p : Props.t) (c : Recognition.t) : bool :=
  Props.isAnchor p && Props.autoStart p
  && bool_decide (is_Some (Props.participantSide p))
  && bool_decide (Recognition.autoRestartCount c < 10)%nat.

(** [1000 + (autoRestartCount * 500)] *)
Definition restart_delay (c : Recognition.t) : Z :=
  1000 + Z.of_nat (Recognition.autoRestartCount c) * 500.

Definition onend (p : Props.t) (c : Recognition.t) (s : Session.t)
  : Session.t :=
  let s := set_isListening false s in
  if restart_guard p c then
    let s := set_autoRestartCount (S (autoRestartCount s)) s in
    let scheduled :=
      setTimeout (restart_delay c) (restart_timer (Recognition.isListening c)) s in
    set_autoRestartTimeoutRef (Some scheduled.1) scheduled.2
  else s.

Definition onerror (kind : error_kind) (s : Session.t) : Session.t :=
  let s := set_isListening false s in
  match kind with
  | not_allowed =>
      set_error (lit "Microphone access denied. Please allow microphone access for automatic captions.") s
  | no_speech => s
  | network =>
      set_error (lit "Network error. Captions will retry automatically.") s
  | other_error code =>
      set_error (lit "Speech recognition error: " ++ code) s
  end.

(** What the column [confidence numeric(3,2)] makes of a number that is
    sent to it. *)
Inductive column_value :=
  | Recorded (hundredths : Z)
  | Null
  | Overflow.                (* "numeric field overflow": the row is refused *)

(** The hundredths recorded for the positive double [m * 2^e].  The
    request carries the shortest decimal that reads back as the double
    ([JSON.stringify]), and the column rounds that decimal to two places,
    half away from zero.  With [k / 100 <= m * 2^e < (k + 1) / 100], the
    decimal is rounded up exactly when the double is at least the midpoint
    [(2 k + 1) / 200] or is the double nearest to the midpoint, which is
    then the decimal sent.  [D] is the distance from the double up to the
    midpoint in units of [2^e / 200]: the midpoint reads back as the double
    when it lies less than half a unit in the last place above it
    ([D < 100]), or exactly half a unit with [m] even. *)
Definition round_hundredths (m : positive) (e : Z) : Z :=
  if 0 <=? e then 100 * Z.pos m * 2 ^ e
  else
    let d := 2 ^ (- e) in
    let k := (100 * Z.pos m) `div` d in
    let D := (2 * k + 1) * d - 200 * Z.pos m in
    if (D <? 100) || (D =? 100) && Z.even (Z.pos m) then k + 1 else k.

(** [JSON.stringify] sends [null] for [NaN] and the infinities; a value
    whose magnitude rounds to 10.00 or more does not fit the column. *)
Definition numeric_3_2 (x : float) : column_value :=
  match Prim2SF x with
  | S754_nan | S754_infinity _ => Null
  | S754_zero _ => Recorded 0
  | S754_finite s m e =>
      let n := round_hundredths m e in
      if n <? 1000 then Recorded (if s then - n else n) else Overflow
  end.

(** The row the store writes for an insert, if the values fit the
    columns. *)
Definition stored_row (id : N) (timestamp : Z) (x : CaptionInsert.t)
  : option CaptionRow.t :=
  let row confidence :=
    CaptionRow.mk id (CaptionInsert.room_id x) (CaptionInsert.user_id x)
      (Some (CaptionInsert.participant_side x)) (CaptionInsert.content x)
      confidence timestamp (CaptionInsert.is_final x) in
  match numeric_3_2 (CaptionInsert.confidence x) with
  | Recorded n => Some (row (Some n))
  | Null => Some (row None)
  | Overflow => None
  end.

Definition insert_caption (x : CaptionInsert.t) (io : insert_outcome)
    (s : Session.t) : Session.t :=
  let s := log (Insert x) s in
  match io with
  | stored id timestamp =>
      match stored_row id timestamp x with
      | Some row => set_captions (captions s ++ [row]) s
      | None => s                         (* refused by the store *)
      end
  | insert_error | insert_throws => s     (* logged, caption dropped *)
  end.

Definition onresult (p : Props.t) (ev : ResultEvent.t) (io : insert_outcome)
    (s : Session.t) : Session.t :=
  let s := set_transcript
             (finalTranscriptRef s ++ finalTranscript ev ++ interimTranscript ev) s in
  match Props.participantSide p with
  | Some participantSide =>
      if truthy (trim (finalTranscript ev)) && Props.isAnchor p then
        let s := set_finalTranscriptRef
                   (finalTranscriptRef s ++ finalTranscript ev) s in
        insert_caption
          (CaptionInsert.mk (Props.roomId p) (Props.userId p) participantSide
             (trim (finalTranscript ev)) (caption_confidence ev) true)
          io s
      else s
  | None => s
  end.

(** **** Timer callbacks and the functions the hook returns *)

(** Lines 64-80. *)
Definition restart_callback (id : nat) (isListening : bool) (s : Session.t)
  : Session.t :=
  if negb isListening then
    let attempt := recognition_start (by_restart id) s in
    match attempt.1 with
    | start_threw => (setTimeout 5000 (retry_timer isListening) attempt.2).2
    | _ => attempt.2
    end
  else s.

(** Lines 71-77. *)
Definition retry_callback (id : nat) (isListening : bool) (s : Session.t)
  : Session.t :=
  if negb isListening then (recognition_start (by_retry id) s).2 else s.

(** Lines 170-189. *)
Definition startListening (p : Props.t) (origin : start_origin)
    (s : Session.t) : Session.t :=
  match Props.participantSide p, recognitions s !! current s with
  | None, _ =>
      set_error (lit "Cannot start recording: participant side not determined") s
  | Some _, None => s
  | Some _, Some _ =>
      let s := set_finalTranscriptRef [] s in
      let s := set_transcript [] s in
      let s := set_error [] s in
      let s := set_autoRestartCount 0 s in
      let attempt := recognition_start origin s in
      match attempt.1 with
      | start_threw =>
          set_error (lit "Failed to start speech recognition") attempt.2
      | _ => attempt.2
      end
  end.

(** Lines 191-199. *)
Definition stopListening (s : Session.t) : Session.t :=
  let s := match autoRestartTimeoutRef s with
           | Some id => clearTimeout id s
           | None => s
           end in
  if renderedIsListening s then recognition_stop s else s.

(** Lines 201-204. *)
Definition clearTranscript (s : Session.t) : Session.t :=
  set_finalTranscriptRef [] (set_transcript [] s).

(** **** The effect (lines 30-155) *)

(** The cleanup function returned by the effect (lines 147-154). *)
Definition cleanup (s : Session.t) : Session.t :=
  let s := match autoRestartTimeoutRef s with
           | Some id => clearTimeout id s
           | None => s
           end in
  recognition_stop s.

(** The body of the effect: a new recognition object whose handlers close
    over the state of this render. *)
Definition setup (s : Session.t) : Session.t :=
  set_recognitions
    (recognitions s
       ++ [Recognition.mk (autoRestartCount s) (isListening s) false]) s.

(** The effect of a render on the recognition effect.  The props of a
    session are fixed, so the effect re-runs exactly when [autoRestartCount]
    differs from the value it last ran with, which is the value the current
    recognition closes over. *)
Definition run_effect (s : Session.t) : Session.t :=
  match recognitions s !! current s with
  | Some c =>
      if decide (autoRestartCount s = Recognition.autoRestartCount c)
      then s
      else setup (cleanup s)
  | None => s
  end.

(** A render commits: the consumer gets callbacks that close over the
    current state, then the effects run. *)
Definition rerender (s : Session.t) : Session.t :=
  run_effect (set_renderedIsListening (isListening s) s).

(** The hook after mounting on a host that supports recognition: the first
    effect has run, and the start-on-mount effect (lines 158-168) has
    scheduled [startListening] when its guard holds. *)
Definition mount (p : Props.t) : Session.t :=
  let s := Session.mk false [] [] 0 false [] None [Recognition.mk 0 false false]
             ∅ 1 [] [] in
  if Props.isAnchor p && Props.autoStart p
     && bool_decide (is_Some (Props.participantSide p))
  then (setTimeout 1000 autostart_timer s).2
  else s.

(** **** Events *)

Inductive recognizer_event :=
  | start_event
  | end_event
  | error_event (kind : error_kind)
  | result_event (ev : ResultEvent.t) (io : insert_outcome).

Inductive event :=
  | recognizer (r : nat) (e : recognizer_event)
      (* the recognition object [r] fires [e] *)
  | timer_fires (id : nat)
  | call_startListening
  | call_stopListening
  | call_clearTranscript.

(** The host marks the object as ended before it runs [onend]. *)
Definition mark_ended (r : nat) (s : Session.t) : Session.t :=
  set_recognitions
    (alter (λ o, Recognition.mk (Recognition.autoRestartCount o)
                   (Recognition.isListening o) false) r (recognitions s)) s.

(** One callback runs to completion. *)
Definition handle (p : Props.t) (e : event) (s : Session.t) : Session.t :=
  match e with
  | recognizer r re =>
      match recognitions s !! r with
      | Some c =>
          match re with
          | start_event => onstart s
          | end_event => onend p c (mark_ended r s)
          | error_event kind => onerror kind s
          | result_event ev io => onresult p ev io s
          end
      | None => s
      end
  | timer_fires id =>
      match timers s !! id with
      | Some t =>
          let s := set_timers (delete id (timers s)) s in
          match t with
          | restart_timer l => restart_callback id l s
          | retry_timer l => retry_callback id l s
          | autostart_timer => startListening p (by_autostart id) s
          end
      | None => s
      end
  | call_startListening => startListening p by_caller s
  | call_stopListening => stopListening s
  | call_clearTranscript => clearTranscript s
  end.

(** What happens to a session: callbacks, and renders between them. *)
Inductive input :=
  | Ev (e : event)
  | Render.

Definition exec1 (p : Props.t) (s : Session.t) (i : input) : Session.t :=
  match i with
  | Ev e => handle p e s
  | Render => rerender s
  end.

(** Any interleaving of callbacks and renders. *)
Definition exec (p : Props.t) (inputs : list input) (s : Session.t)
  : Session.t :=
  foldl (exec1 p) s inputs.

(** React renders after every callback that changed state, before the next
    callback runs. *)
Definition step (p : Props.t) (s : Session.t) (e : event) : Session.t :=
  rerender (handle p e s).

Definition run (p : Props.t) (events : list event) (s : Session.t)
  : Session.t :=
  foldl (step p) s events.

(** ** Tactics for reasoning about callbacks *)

(** Reduce a projection of a state built by the record updates, without
    expanding the state itself. *)
Ltac session_eval t :=
  eval cbn [Session.isListening Session.transcript Session.error
            Session.autoRestartCount Session.renderedIsListening
            Session.finalTranscriptRef Session.autoRestartTimeoutRef Session.recognitions Session.timers
            Session.nextTimerId Session.captions Session.actions
            set_isListening set_transcript set_error set_autoRestartCount
            set_renderedIsListening
            set_finalTranscriptRef set_autoRestartTimeoutRef set_recognitions
            set_timers set_nextTimerId set_captions log setTimeout
            clearTimeout mark_ended setup onstart clearTranscript
            fst snd] in t.

Ltac session_proj_at P t :=
  let r := session_eval (P t) in
  progress change (P t) with r.

Ltac session_proj :=
  match goal with
  | |- context [Session.isListening ?t] => session_proj_at Session.isListening t
  | |- context [Session.transcript ?t] => session_proj_at Session.transcript t
  | |- context [Session.error ?t] => session_proj_at Session.error t
  | |- context [Session.autoRestartCount ?t] =>
      session_proj_at Session.autoRestartCount t
  | |- context [Session.renderedIsListening ?t] =>
      session_proj_at Session.renderedIsListening t
  | |- context [Session.finalTranscriptRef ?t] =>
      session_proj_at Session.finalTranscriptRef t
  | |- context [Session.autoRestartTimeoutRef ?t] =>
      session_proj_at Session.autoRestartTimeoutRef t
  | |- context [Session.recognitions ?t] => session_proj_at Session.recognitions t
  | |- context [Session.timers ?t] => session_proj_at Session.timers t
  | |- context [Session.nextTimerId ?t] => session_proj_at Session.nextTimerId t
  | |- context [Session.captions ?t] => session_proj_at Session.captions t
  | |- context [Session.actions ?t] => session_proj_at Session.actions t
  | |- context [fst (?a, ?b)] => change (fst (a, b)) with a
  | |- context [snd (?a, ?b)] => change (snd (a, b)) with b
  end.

(** Case analysis on a [match] whose scrutinee holds no other [match]. *)
Ltac session_case :=
  match goal with
  | |- context [match ?x with _ => _ end] =>
      lazymatch x with
      | context [match _ with _ => _ end] => fail
      | _ => destruct x eqn:?
      end
  end.

Ltac session_step :=
  first [ session_proj | session_case | progress cbv zeta ].

Ltac unfold_callbacks :=
  unfold handle, onend, onerror, onresult, insert_caption, restart_callback,
    retry_callback, startListening, stopListening, rerender, run_effect,
    cleanup,
    recognition_start, recognition_stop, current.

Ltac session_crush := unfold_callbacks; repeat session_step.

(** ** What the properties speak about *)

(** *** Caption persistence: only final text, with a positive confidence *)

(** The text of the results marked final, from [resultIndex] on. *)
Definition final_results (ev : ResultEvent.t) : list RecognitionResult.t :=
  filter (λ r, RecognitionResult.isFinal r = true)
         (drop (ResultEvent.resultIndex ev) (ResultEvent.results ev)).

Definition final_text (ev : ResultEvent.t) : jsstring :=
  concat (map (λ r, Alternative.transcript (RecognitionResult.first r))
              (final_results ev)).

(** The same event with its interim results deleted. *)
Definition without_interim (ev : ResultEvent.t) : ResultEvent.t :=
  ResultEvent.mk 0 (final_results ev).

(** The property every persisted caption has. *)
Definition from_final_results (inputs : list input) (content : jsstring)
  : Prop :=
  ∃ r ev io, Ev (recognizer r (result_event ev io)) ∈ inputs
             ∧ content = trim (final_text ev) ∧ content ≠ [].

Definition final_insert (inputs : list input) (a : action) : Prop :=
  match a with
  | Insert x =>
      CaptionInsert.is_final x = true
      ∧ from_final_results inputs (CaptionInsert.content x)
  | _ => True
  end.

Definition final_row (inputs : list input) (row : CaptionRow.t) : Prop :=
  CaptionRow.is_final row = true
  ∧ from_final_results inputs (CaptionRow.content row).

(** *** Confidence *)

(** The host reports a confidence between 0 and 1, or none at all. *)
Definition confidence_in_range (c : option float) : Prop :=
  match c with
  | Some x => (0 <=? x)%float = true ∧ (x <=? 1)%float = true
  | None => True
  end.

Definition reported_in_range (ev : ResultEvent.t) : Prop :=
  Forall (λ r, confidence_in_range
                 (Alternative.confidence (RecognitionResult.first r)))
         (ResultEvent.results ev).

Definition positive_confidence (x : float) : Prop :=
  (0 <? x)%float = true ∧ (x <=? 1)%float = true.

(** The confidence of the first result of the event, [results[resultIndex]]. *)
Definition reported_confidence (ev : ResultEvent.t) : option float :=
  r ← ResultEvent.results ev !! ResultEvent.resultIndex ev;
  Alternative.confidence (RecognitionResult.first r).

(** The hook as the anchor of side A uses it. *)
Definition anchor_a : Props.t :=
  Props.mk (lit "room-1") (lit "user-9") (Some side_a) true true.

(** A final segment reported with confidence 0, and an interim one. *)
Definition zero_confidence_event : ResultEvent.t :=
  ResultEvent.mk 0
    [RecognitionResult.mk (Alternative.mk (lit " hello world ") (Some 0%float)) true;
     RecognitionResult.mk (Alternative.mk (lit "and then") (Some 0x1p-1%float)) false].

Definition zero_confidence_inputs : list input :=
  [Ev (recognizer 0 (result_event zero_confidence_event (stored 1 5000)))].

(** The column value a row holds as its [confidence]. *)
Definition column_of (confidence : option Z) : column_value :=
  match confidence with
  | Some n => Recorded n
  | None => Null
  end.

(** What an insert request carries, and what a row records: the
    [confidence || 0.9] of a result event of the history, as the column
    takes it. *)
Definition sent_confidence (inputs : list input) (a : action) : Prop :=
  match a with
  | Insert x =>
      ∃ r ev io, Ev (recognizer r (result_event ev io)) ∈ inputs
                 ∧ CaptionInsert.confidence x = caption_confidence ev
  | _ => True
  end.

Definition recorded_confidence (inputs : list input) (row : CaptionRow.t)
  : Prop :=
  ∃ r ev io, Ev (recognizer r (result_event ev io)) ∈ inputs
             ∧ numeric_3_2 (caption_confidence ev)
               = column_of (CaptionRow.confidence row).

(** A recorded confidence between 0.00 and 1.00. *)
Definition recorded_in_range (row : CaptionRow.t) : Prop :=
  ∃ n, CaptionRow.confidence row = Some n ∧ 0 <= n <= 100.

(** The claim as the specification states it: every caption the pipeline
    has written records a confidence above 0 and at most 1, here even with
    a recognizer that reports only confidences between 0 and 1. *)
Definition recorded_positive (row : CaptionRow.t) : Prop :=
  match CaptionRow.confidence row with
  | Some n => 0 < n <= 100
  | None => False
  end.

Definition confidence_always_positive : Prop :=
  ∀ p inputs,
    (∀ r ev io, Ev (recognizer r (result_event ev io)) ∈ inputs ->
                reported_in_range ev) ->
    Forall recorded_positive (captions (exec p inputs (mount p))).

Definition segment_with_confidence (c : float) : ResultEvent.t :=
  ResultEvent.mk 0
    [RecognitionResult.mk (Alternative.mk (lit "hello") (Some c)) true].

(** A final segment reported with confidence 2^-10, a little below
    0.001. *)
Definition faint_inputs : list input :=
  [Ev (recognizer 0 (result_event (segment_with_confidence 0x1p-10%float)
                                  (stored 1 5000)))].

(** Final segments reported with confidence 1.5 and -0.25. *)
Definition out_of_range_inputs : list input :=
  [Ev (recognizer 0 (result_event (segment_with_confidence 0x1.8p0%float)
                                  (stored 1 5000)));
   Ev (recognizer 0 (result_event (segment_with_confidence (-0x1p-2)%float)
                                  (stored 2 6000)))].

(** A result event with one final and one interim segment: the preview
    shows both, the stored caption only the trimmed final text. *)
Definition mixed_event : ResultEvent.t :=
  ResultEvent.mk 0
    [RecognitionResult.mk
       (Alternative.mk (lit " we should act now ") (Some 0x1.e666666666666p-1%float))
       true;
     RecognitionResult.mk (Alternative.mk (lit "because") None) false].

(** *** Restart supervision *)

(** A pending callback that will try to start recognition again. *)
Definition is_restart_timer (t : timer) : bool :=
  match t with
  | restart_timer _ | retry_timer _ => true
  | autostart_timer => false
  end.

Definition schedules_restart (a : action) : bool :=
  match a with
  | SetTimeout _ _ t => is_restart_timer t
  | _ => false
  end.

(** [recognition.start()] called from a timer rather than by the consumer. *)
Definition automatic_start (a : action) : bool :=
  match a with
  | RecognitionStart _ by_caller _ => false
  | RecognitionStart _ _ _ => true
  | _ => false
  end.

(** [recognition.start()] called by a restart or retry timer. *)
Definition restart_start (a : action) : bool :=
  match a with
  | RecognitionStart _ (by_restart _) _ | RecognitionStart _ (by_retry _) _ =>
      true
  | _ => false
  end.

(** The host calls made between two states of one history. *)
Definition later_actions (before after : Session.t) : list action :=
  drop (length (actions before)) (actions after).

(** A history in which React renders after every callback. *)
Definition rendered (events : list event) : list input :=
  flat_map (λ e, [Ev e; Render]) events.

Definition denied_message : jsstring :=
  lit "Microphone access denied. Please allow microphone access for automatic captions.".

(** **** Permission denied *)

(** The claim as the specification states it: once a permission-denied
    error has been reported, nothing that follows schedules a restart. *)
Definition permission_denied_is_fatal : Prop :=
  ∀ p before r after,
    let s1 := exec p (before ++ [Ev (recognizer r (error_event not_allowed))])
                   (mount p) in
    Forall (λ a, schedules_restart a = false)
           (later_actions s1 (exec p after s1)).

(** The hook mounts for an anchor, the start-on-mount timer calls
    [start()], the browser refuses the microphone. *)
Definition denied_history : list input :=
  rendered [timer_fires 1; recognizer 0 (error_event not_allowed)].

(** The recognizer then ends, as it does after every error. *)
Definition denied_then_ended : list input :=
  rendered [recognizer 0 end_event].

(** **** Explicit stop *)

Definition no_restart_pending (m : gmap nat timer) : Prop :=
  map_Forall (λ _ t, is_restart_timer t = false) m.

(** The claim as the specification states it: after [stopListening] no
    restart timer is pending, and nothing that follows starts recognition
    on its own. *)
Definition stop_is_final : Prop :=
  ∀ p before after,
    let s1 := exec p (before ++ [Ev call_stopListening]) (mount p) in
    no_restart_pending (timers s1)
    ∧ Forall (λ a, automatic_start a = false)
             (later_actions s1 (exec p after s1)).

(** The consumer starts the session and stops it again within the first
    second, while the start-on-mount timer is still pending. *)
Definition started_then_stopped : list input :=
  rendered [call_startListening; recognizer 0 start_event; call_stopListening].

(** The recognizer ends, React renders, the start-on-mount timer fires. *)
Definition ended_then_autostart : list input :=
  rendered [recognizer 0 end_event; timer_fires 1].

(** The session is started on mount and stopped once it listens. *)
Definition autostarted_then_stopped : list input :=
  rendered [timer_fires 1; recognizer 0 start_event; call_stopListening].

(** The recognizer ends and the restart timer fires before React has
    rendered the new attempt count. *)
Definition ended_then_restart : list input :=
  [Ev (recognizer 0 end_event); Ev (timer_fires 2)].

(** After a stop with the retry armed: the recognizer ends, React renders,
    the retry timer fires. *)
Definition ended_then_retry : list input :=
  rendered [recognizer 0 end_event; timer_fires 3].

(** A call that neither starts recognition nor schedules anything. *)
Definition quiet (a : action) : Prop :=
  match a with
  | ClearTimeout _ | RecognitionStop _ => True
  | _ => False
  end.

(** **** One pending restart timer *)

Definition at_most_one_restart (m : gmap nat timer) : Prop :=
  ∀ i j ti tj, m !! i = Some ti -> m !! j = Some tj ->
               is_restart_timer ti = true -> is_restart_timer tj = true ->
               i = j.

(** The claim as the specification states it: at every point of every
    history at most one restart timer is pending. *)
Definition single_restart_timer : Prop :=
  ∀ p inputs, at_most_one_restart (timers (exec p inputs (mount p))).

(** The session ends and the consumer starts it again before React has
    rendered; one second later the restart timer of the first end fires,
    finds the recognizer running, and arms the five-second retry. *)
Definition retry_armed : list input :=
  [Ev (timer_fires 1); Render;
   Ev (recognizer 0 start_event); Render;
   Ev (recognizer 0 end_event); Ev call_startListening; Render;
   Ev (recognizer 0 start_event); Render;
   Ev (timer_fires 2); Render].

(** Then the recognizer ends again. *)
Definition batched_restart : list input :=
  retry_armed ++ [Ev (recognizer 0 end_event)].

(** The state right after a render: the current recognition closes over
    the current attempt count. *)
Definition in_sync (s : Session.t) : Prop :=
  ∃ c, recognitions s !! current s = Some c
       ∧ Recognition.autoRestartCount c = autoRestartCount s.

Definition rendered_state (s : Session.t) : Prop :=
  no_restart_pending (timers s) ∧ in_sync s.

(** Callbacks never add or remove recognition objects, and never touch the
    values their handlers close over. *)
Definition same_closures (l l' : list Recognition.t) : Prop :=
  length l' = length l
  ∧ ∀ r c', l' !! r = Some c' ->
            ∃ c, l !! r = Some c
                 ∧ Recognition.autoRestartCount c' = Recognition.autoRestartCount c
                 ∧ Recognition.isListening c' = Recognition.isListening c.

(** **** The attempt count and the restart delays *)

(** The delays of the restart timers scheduled so far, oldest first. *)
Definition restart_delays (l : list action) : list Z :=
  omap (λ a, match a with
             | SetTimeout _ delay (restart_timer _) => Some delay
             | _ => None
             end) l.




(** One round of silence: the recognizer reports [no-speech] and ends, the
    restart timer [id] fires before React renders and starts it again. *)
Definition no_speech_round (id : nat) : list input :=
  [Ev (recognizer 0 (error_event no_speech)); Ev (recognizer 0 end_event);
   Ev (timer_fires id); Ev (recognizer 0 start_event); Render].

(** Five no-speech errors in a row after the start on mount. *)
Definition five_no_speech : list input :=
  [Ev (timer_fires 1); Ev (recognizer 0 start_event); Render]
  ++ no_speech_round 2 ++ no_speech_round 3 ++ no_speech_round 4
  ++ no_speech_round 5 ++ no_speech_round 6.





(** A recognition object fires events only between an accepted [start()]
    and its [end] event. *)
Definition fired_by_started (s : Session.t) (i : input) : bool :=
  match i with
  | Ev (recognizer r _) =>
      match recognitions s !! r with
      | Some c => Recognition.started c
      | None => false
      end
  | _ => true
  end.

(** A history in which every recognizer event comes from an object that is
    started when the event is delivered. *)
Fixpoint real_recognizer (p : Props.t) (inputs : list input) (s : Session.t)
  : bool :=
  match inputs with
  | [] => true
  | i :: rest => fired_by_started s i && real_recognizer p rest (exec1 p s i)
  end.

(** The session of an anchor in which every start is a real one: the
    start on mount, then, after each end, a call of [startListening] by
    the consumer; every callback is followed by a render.  The render after
    [startListening] re-runs the effect, which stops the object just
    started (1, 3, 5) and makes a new one; the stopped object then reports
    its start and its end. *)
Definition restarted_by_consumer : list input :=
  rendered [timer_fires 1; recognizer 0 start_event; recognizer 0 end_event;
            call_startListening; recognizer 1 start_event;
            recognizer 1 end_event;
            call_startListening; recognizer 3 start_event;
            recognizer 3 end_event;
            call_startListening; recognizer 5 start_event;
            recognizer 5 end_event].

Definition auto_restart_enabled (p : Props.t) : Prop :=
  Props.isAnchor p = true ∧ Props.autoStart p = true
  ∧ is_Some (Props.participantSide p).

(** ** Key points persisted with a summary
       ([src/hooks/useDebateSummary.ts], lines 130-152) *)

(** [parts.join(sep)] *)
Fixpoint join (sep : jsstring) (parts : list jsstring) : jsstring :=
  match parts with
  | [] => []
  | [x] => x
  | x :: rest => x ++ sep ++ join sep rest
  end.

(** [s.toLowerCase()], one code unit at a time: A-Z become a-z, U+0130
    becomes [i] followed by U+0307, and U+212A (the Kelvin sign) becomes
    [k].  The lower-case form of every other code unit lies outside ASCII,
    as the code unit itself does; it is kept here, since [split(/\W+/)]
    treats both alike. *)
Definition lower_unit (c : N) : jsstring :=
  if ((65 <=? c) && (c <=? 90))%N then [(c + 32)%N]
  else if (c =? 304)%N then [105%N; 775%N]
  else if (c =? 8490)%N then [107%N]
  else [c].

Definition toLowerCase (s : jsstring) : jsstring := s ≫= lower_unit.

(** [\w]: the class [[A-Za-z0-9_]]. *)
Definition is_word_char (c : N) : bool :=
  ((48 <=? c) && (c <=? 57) || (65 <=? c) && (c <=? 90) || (c =? 95)
   || (97 <=? c) && (c <=? 122))%N.

(** [s.split(/\W+/)]: the pieces between the maximal runs of non-word code
    units, the empty piece in front of a leading run and after a trailing
    one included.  [piece] is the piece being read; [in_separator] tells
    that the code unit before was not a word character. *)
Fixpoint split_from (in_separator : bool) (piece s : jsstring)
  : list jsstring :=
  match s with
  | [] => [piece]
  | c :: s' =>
      if is_word_char c then split_from false (piece ++ [c]) s'
      else if in_separator then split_from true [] s'
      else piece :: split_from true [] s'
  end.

Definition split_nonword (s : jsstring) : list jsstring :=
  split_from false [] s.

(** The value of a property of the accumulator: a number, or the string
    that [(acc[word] || 0) + 1] is when [acc[word]] is not a number. *)
Inductive tally :=
  | Count (n : nat)
  | Text.

#[global] Instance tally_eq_dec : EqDecision tally.
Proof. solve_decision. Defined.

(** The accumulator [{}]: its own properties in the order of their
    creation.  It inherits the properties of [Object.prototype]. *)
Abbreviation plain_object := (list (jsstring * tally)).

(** The methods every object literal inherits. *)
Definition object_prototype_methods : list jsstring :=
  map lit ["constructor"; "hasOwnProperty"; "isPrototypeOf";
           "propertyIsEnumerable"; "toLocaleString"; "toString"; "valueOf";
           "__defineGetter__"; "__defineSetter__"; "__lookupGetter__";
           "__lookupSetter__"]%string.

(** The own property [key], if there is one. *)
Fixpoint get_own (key : jsstring) (o : plain_object) : option tally :=
  match o with
  | [] => None
  | (k, v) :: rest => if decide (k = key) then Some v else get_own key rest
  end.

(** [o[key] = v] for a key other than [__proto__]: overwrites the own
    property, or creates it after the existing ones. *)
Fixpoint assign (key : jsstring) (v : tally) (o : plain_object)
  : plain_object :=
  match o with
  | [] => [(key, v)]
  | (k, u) :: rest =>
      if decide (k = key) then (k, v) :: rest else (k, u) :: assign key v rest
  end.

(** [acc[word] = (acc[word] || 0) + 1; return acc].  Reading [__proto__]
    gives [Object.prototype]; writing the string [prototype + 1] to it is
    ignored.  Reading an inherited method gives a function, and
    [function + 1] is a string, as is [string + 1]. *)
Definition count_word (acc : plain_object) (word : jsstring) : plain_object :=
  if decide (word = lit "__proto__") then acc
  else
    assign word
      match get_own word acc with
      | Some (Count n) => Count (S n)
      | Some Text => Text
      | None =>
          if decide (word ∈ object_prototype_methods) then Text else Count 1
      end
      acc.

(** The digits of a canonical array index (no sign, no leading zero, at
    most [2^32 - 2]): such keys are enumerated first. *)
Definition is_digit (c : N) : bool := ((48 <=? c) && (c <=? 57))%N.

Definition digits_value (k : jsstring) : N :=
  foldl (λ n c, 10 * n + (c - 48))%N 0%N k.

Definition array_index (k : jsstring) : option N :=
  match k with
  | [] => None
  | c :: rest =>
      if forallb is_digit k
         && (negb (c =? 48)%N || bool_decide (rest = []))
         && (digits_value k <? 2 ^ 32 - 1)%N
      then Some (digits_value k)
      else None
  end.

Definition index_of_entry (e : jsstring * tally) : Z :=
  Z.of_N (default 0%N (array_index e.1)).

(** [Object.entries(o)]: the array-index keys in ascending numeric order,
    then the other keys in the order of their creation. *)
Definition entries (o : plain_object) : plain_object :=
  js_sort (cmp_of index_of_entry)
          (filter (λ e, is_Some (array_index e.1)) o)
  ++ filter (λ e, ¬ is_Some (array_index e.1)) o.

Definition is_count (e : jsstring * tally) : bool :=
  match e.2 with Count _ => true | Text => false end.

Definition count_of (e : jsstring * tally) : Z :=
  match e.2 with Count n => Z.of_nat n | Text => 0 end.

(** [([,a], [,b]) => b - a] on two numbers. *)
Definition by_count (x y : jsstring * tally) : Z := count_of y - count_of x.

(** [.sort(([,a], [,b]) => b - a)].  When a value is a string the
    comparator yields [NaN]; it is then no consistent comparison function
    and ECMAScript leaves the order of an array of two or more elements to
    the implementation ([None]). *)
Definition sort_by_count (l : plain_object) : option plain_object :=
  if forallb is_count l then Some (js_sort by_count l)
  else match l with
       | [] | [_] => Some l
       | _ => None
       end.

Module KeyPoints.
Definition allContent (data : SummaryData.t) : list jsstring :=
  map Message.content (SummaryData.messages data)
  ++ map Caption.content (SummaryData.captions data).

(** The words that are counted. *)
Definition words (data : SummaryData.t) : list jsstring :=
  filter (λ word, (4 < length word)%nat)
         (split_nonword (toLowerCase (join (lit " ") (allContent data)))).

Definition keyWords (data : SummaryData.t) : plain_object :=
  foldl count_word [] (words data).
End KeyPoints.

Definition extractKeyPoints (data : SummaryData.t)
  : option (list jsstring) :=
  ranked ← sort_by_count (entries (KeyPoints.keyWords data));
  Some (map fst (slice0 10 ranked)).

(** How often a word is counted. *)
Definition occurrences (word : jsstring) (data : SummaryData.t) : nat :=
  length (filter (λ w, w = word) (KeyPoints.words data)).

(** A debate about constructors. *)
Definition constructor_data : SummaryData.t :=
  SummaryData.mk (lit "topic") (lit "For") (lit "Against")
    [Message.mk (lit "The constructor allocates memory") (Some side_a) 1000 None]
    (Votes.mk 0 0) [] 1 1.

(** What the accumulator holds for [word] once the words [ws] are counted. *)
Definition tally_of (ws : list jsstring) (word : jsstring) : option tally :=
  if decide (word = lit "__proto__") then None
  else
    match length (filter (λ w, w = word) ws) with
    | O => None
    | S n =>
        Some (if decide (word ∈ object_prototype_methods) then Text
              else Count (S n))
    end.

(** A lower-case letter, a digit or the underscore. *)
Definition is_lower_word_char (c : N) : bool :=
  ((48 <=? c) && (c <=? 57) || (c =? 95) || (97 <=? c) && (c <=? 122))%N.

(** A debate in which the figure 10000 and the word [__proto__] come up. *)
Definition keyword_data : SummaryData.t :=
  SummaryData.mk (lit "topic") (lit "For") (lit "Against")
    [Message.mk (lit "Taxes fund schools; TAXES fund roads.") (Some side_a) 1000 None;
     Message.mk (lit "__proto__ __proto__ 10000 schools") (Some side_b) 2000 None]
    (Votes.mk 1 0)
    [Caption.mk (lit "Schools need 10000 teachers") (Some side_a) 3000 None]
    1 2.

(** ** Summary Aggregator ([src/hooks/useDebateSummary.ts], lines 16-128) *)

(** The row of [rooms] as far as [generateSummary] reads it; the three
    instants are epoch milliseconds, [None] for a column that is null. *)
Module Room.
Record t := mk {
  topic : jsstring;
  side_a_label : jsstring;
  side_b_label : jsstring;
  created_at : Z;
  started_at : option Z;
  ended_at : option Z
}.
End Room.

(** A row of [votes]; [voted_side] is [None] when the column holds neither
    ['side_a'] nor ['side_b']. *)
Module Vote.
Record t := mk { voted_side : option side }.
End Vote.

(** What an awaited query resolves to, [{ data, error }]: the data, or an
    error object with its [message]. *)
Inductive query_result (A : Type) :=
  | query_data (data : A)
  | query_error (message : jsstring).
Arguments query_data {A} data.
Arguments query_error {A} message.

(** The answer of the store to the insert into [discussion_summaries]. *)
Inductive save_outcome := saved | save_error.

(** Everything [generateSummary] asks of its environment.  The list
    queries may resolve with [data] null ([None]); [.single()] resolves with
    the row or with an error. *)
Module Backend.
Record t := mk {
  room : query_result Room.t;
  messages : query_result (option (list Message.t));
  votes : query_result (option (list Vote.t));
  captions : query_result (option (list Caption.t));
  participants : query_result (option (list jsstring));
  now : Z;                                (* [new Date()], line 71 *)
  GEMINI_API_KEY : option jsstring;
  service : service_outcome;
  save : save_outcome
}.
End Backend.

(** The payload of [supabase.from('discussion_summaries').insert(...)];
    [key_points] is [None] when ECMAScript does not fix the order of the
    key points. *)
Module SummaryInsert.
Record t := mk {
  room_id : jsstring;
  summary_type : jsstring;
  content : jsstring;
  vote_results : Votes.t;
  key_points : option (list jsstring);
  side_a_arguments : list jsstring;
  side_b_arguments : list jsstring;
  total_messages : nat;
  total_captions : nat;
  debate_duration : jsstring
}.
End SummaryInsert.

(** The hook once [generateSummary] has settled: the value the promise
    resolves to ([None] is [null]), the state, and the insert requests
    sent to the store. *)
Module SummaryRun.
Record t := mk {
  returned : option jsstring;
  loading : bool;
  error : jsstring;
  inserts : list SummaryInsert.t
}.
End SummaryRun.

(** The [try] block up to a point: a value, or the [message] of what was
    thrown. *)
Inductive attempt (A : Type) :=
  | Ok (x : A)
  | Thrown (message : jsstring).
Arguments Ok {A} x.
Arguments Thrown {A} message.

#[global] Instance attempt_bind : MBind attempt :=
  λ A B f a, match a with Ok x => f x | Thrown m => Thrown m end.

(** [const { data, error } = await query; if (error) throw error;] *)
Definition await {A} (q : query_result A) : attempt A :=
  match q with
  | query_data data => Ok data
  | query_error message => Thrown message
  end.

(** [await generateDebateSummary(...)] *)
Definition await_completion (c : completion) : attempt jsstring :=
  match c with
  | Returns value => Ok value
  | Throws message => Thrown message
  end.

(** [String(z)] for an integer. *)
Definition decimal_int (z : Z) : jsstring :=
  if z <? 0 then lit "-" ++ decimal (Z.to_N (- z)) else decimal (Z.to_N z).

(** Lines 70-72: [Math.round((endTime - startTime) / (1000 * 60))].
    [Math.round] takes the nearest integer, the larger one on a tie; for
    instants less than 2^53 ms apart the double quotient rounds to the
    same integer as the exact one. *)
Definition startTime (room : Room.t) : Z :=
  default (Room.created_at room) (Room.started_at room).

Definition endTime (room : Room.t) (now : Z) : Z :=
  default now (Room.ended_at room).

Definition duration (room : Room.t) (now : Z) : Z :=
  (endTime room now - startTime room + 30000) `div` 60000.

(** Lines 75-76: [votes?.filter(v => v.voted_side === s).length || 0] *)
Definition count_votes (s : side) (votes : option (list Vote.t)) : N :=
  N.of_nat (length (filter (λ v, Vote.voted_side v = Some s)
                           (default [] votes))).

(** Lines 79-88. *)
Definition summaryData (room : Room.t) (messages : option (list Message.t))
    (votes : option (list Vote.t)) (captions : option (list Caption.t))
    (participants : option (list jsstring)) (now : Z) : SummaryData.t :=
  SummaryData.mk (Room.topic room) (Room.side_a_label room)
    (Room.side_b_label room) (default [] messages)
    (Votes.mk (count_votes side_a votes) (count_votes side_b votes))
    (default [] captions) (duration room now)
    (N.of_nat (length (default [] participants))).

(** Lines 25-67 and 69-88: the five queries in order, then the data. *)
Definition fetch_summaryData (b : Backend.t) : attempt SummaryData.t :=
  room ← await (Backend.room b);
  messages ← await (Backend.messages b);
  votes ← await (Backend.votes b);
  captions ← await (Backend.captions b);
  participants ← await (Backend.participants b);
  Ok (summaryData room messages votes captions participants (Backend.now b)).

(** Lines 103-114. *)
Definition summary_row (roomId : jsstring) (data : SummaryData.t)
    (summary : jsstring) : SummaryInsert.t :=
  SummaryInsert.mk roomId (lit "final") summary (SummaryData.votes data)
    (extractKeyPoints data)
    (extractSideArguments data side_a) (extractSideArguments data side_b)
    (length (SummaryData.messages data)) (length (SummaryData.captions data))
    (decimal_int (SummaryData.duration data) ++ lit " minutes").

(** The [try] block: the insert requests it sends and how it ends.  A
    failed insert is logged and the summary returned all the same. *)
Definition generateSummary_try (roomId : jsstring) (b : Backend.t)
  : list SummaryInsert.t * attempt jsstring :=
  match fetch_summaryData b with
  | Thrown message => ([], Thrown message)
  | Ok data =>
      match await_completion
              (generateDebateSummary (SummaryData.topic data)
                 (SummaryData.messages data) (SummaryData.votes data)
                 (SummaryData.captions data) (SummaryData.sideALabel data)
                 (SummaryData.sideBLabel data) (Backend.GEMINI_API_KEY b)
                 (Backend.service b)) with
      | Thrown message => ([], Thrown message)
      | Ok summary =>
          ([summary_row roomId data summary],
           match Backend.save b with
           | saved | save_error => Ok summary
           end)
      end
  end.

(** [generateSummary(roomId)]: [setLoading(true); setError('')], the [try]
    block, [catch (err) { setError(err.message || 'Failed to generate
    summary'); return null }], [finally { setLoading(false) }]. *)
Definition generateSummary (roomId : jsstring) (b : Backend.t)
  : SummaryRun.t :=
  let run := generateSummary_try roomId b in
  match run.2 with
  | Ok summary => SummaryRun.mk (Some summary) false [] run.1
  | Thrown message =>
      SummaryRun.mk None false
        (or_else message (lit "Failed to generate summary")) run.1
  end.

(** The message of the first query that reports an error, in the order in
    which the queries are made. *)
Definition first_query_error (b : Backend.t) : option jsstring :=
  match Backend.room b, Backend.messages b, Backend.votes b,
        Backend.captions b, Backend.participants b with
  | query_error m, _, _, _, _ => Some m
  | _, query_error m, _, _, _ => Some m
  | _, _, query_error m, _, _ => Some m
  | _, _, _, query_error m, _ => Some m
  | _, _, _, _, query_error m => Some m
  | _, _, _, _, _ => None
  end.

Definition key_configured (b : Backend.t) : bool :=
  truthy (default [] (Backend.GEMINI_API_KEY b)).

(** A debate that was started a minute after the room was made and has
    not ended; the store refuses the summary. *)
Definition running_room : Room.t :=
  Room.mk (lit "topic") (lit "For") (lit "Against") 0 (Some 60000) None.

Definition refusing_backend : Backend.t :=
  Backend.mk (query_data running_room)
    (query_data (Some scenario_messages))
    (query_data (Some [Vote.mk (Some side_a); Vote.mk (Some side_b);
                       Vote.mk (Some side_a); Vote.mk None]))
    (query_data (Some scenario_captions))
    (query_data None)
    (60000 + 150000)
    (Some (lit "key"))
    (response_ok (Some (lit "generated")))
    save_error.

(** The same request when the votes cannot be read. *)
Definition failing_backend : Backend.t :=
  Backend.mk (query_data running_room)
    (query_data (Some scenario_messages))
    (query_error (lit "permission denied for table votes"))
    (query_error (lit "permission denied for table captions"))
    (query_data None)
    210000 (Some (lit "key")) (response_ok (Some (lit "generated")))
    saved.

(** An empty room, asked about without an API key, and with a key while
    the generative service cannot be reached and the store refuses the
    row. *)
Definition keyless_backend : Backend.t :=
  Backend.mk (query_data running_room) (query_data None) (query_data None)
    (query_data None) (query_data None) 0 None unreachable_service saved.

Definition offline_backend : Backend.t :=
  Backend.mk (query_data running_room) (query_data None) (query_data None)
    (query_data None) (query_data None) 0 (Some (lit "key"))
    unreachable_service save_error.

(** ** Captions display ([src/components/CaptionsDisplay.tsx], lines 31-54) *)




Definition getSideLabel (sideALabel sideBLabel : jsstring)
    (s : option side) : jsstring :=
  match s with
  | None => lit "Unknown Speaker"
  | Some side_a => sideALabel
  | Some side_b => sideBLabel
  end.


(** A table in which an interim row and a row of another room precede two
    final rows of the room, the later one stored first. *)
Definition captions_table : list CaptionRow.t :=
  [interim_row;
   CaptionRow.mk 1 (lit "room-2") (lit "user-1") (Some side_a) (lit "elsewhere")
     (Some 50) 1000 true;
   CaptionRow.mk 2 (lit "room-1") (lit "user-9") (Some side_b) (lit "second")
     (Some 50) 3000 true;
   CaptionRow.mk 3 (lit "room-1") (lit "user-8") (Some side_a) (lit "first")
     (Some 50) 2000 true].

(** The answer of the store to the bulk query of room 1 on that table. *)
Definition captions_answer : list CaptionRow.t :=
  [CaptionRow.mk 3 (lit "room-1") (lit "user-8") (Some side_a) (lit "first")
     (Some 50) 2000 true;
   CaptionRow.mk 2 (lit "room-1") (lit "user-9") (Some side_b) (lit "second")
     (Some 50) 3000 true].

(** A final row of another room. *)
Definition other_room_row : CaptionRow.t :=
  CaptionRow.mk 1 (lit "room-2") (lit "user-1") (Some side_a) (lit "elsewhere")
    (Some 50) 1000 true.

(** Two final rows of room 1 stored with the same timestamp. *)
Definition tied_table : list CaptionRow.t :=
  [CaptionRow.mk 4 (lit "room-1") (lit "user-8") (Some side_a) (lit "one")
     (Some 90) 7000 true;
   CaptionRow.mk 5 (lit "room-1") (lit "user-9") (Some side_b) (lit "other")
     (Some 90) 7000 true].

(** ** The hook: attribution, timers and the store *)

(** An insert request, or a stored row, that names the room, the user and
    the side the hook was given, made by an anchor. *)
Definition attributed_insert (p : Props.t) (a : action) : Prop :=
  match a with
  | Insert x =>
      CaptionInsert.room_id x = Props.roomId p
      ∧ CaptionInsert.user_id x = Props.userId p
      ∧ Props.participantSide p = Some (CaptionInsert.participant_side x)
      ∧ Props.isAnchor p = true
  | _ => True
  end.

Definition attributed_row (p : Props.t) (row : CaptionRow.t) : Prop :=
  CaptionRow.room_id row = Props.roomId p
  ∧ CaptionRow.user_id row = Props.userId p
  ∧ CaptionRow.participant_side row = Props.participantSide p
  ∧ is_Some (CaptionRow.participant_side row)
  ∧ Props.isAnchor p = true.

(** A host call that sets no timer and starts recognition only on behalf
    of the consumer. *)
Definition manual (a : action) : Prop :=
  match a with
  | SetTimeout _ _ _ => False
  | RecognitionStart _ origin _ => origin = by_caller
  | _ => True
  end.

(** The same input when the store refuses the caption. *)
Definition refused (i : input) : input :=
  match i with
  | Ev (recognizer r (result_event ev _)) =>
      Ev (recognizer r (result_event ev insert_error))
  | _ => i
  end.

(** The session without the rows of the store. *)
Definition forget_store (s : Session.t) : Session.t := set_captions [] s.

(** The hook as the audience uses it, and as an anchor whose side is not
    known yet. *)
Definition audience_b : Props.t :=
  Props.mk (lit "room-1") (lit "user-3") (Some side_b) false true.

Definition unresolved_anchor : Props.t :=
  Props.mk (lit "room-1") (lit "user-9") None true true.

(** Timer handles are fresh, and [autoRestartTimeoutRef] names a handle
    that [onend] made. *)
Definition timers_tracked (s : Session.t) : Prop :=
  (∀ i t, timers s !! i = Some t -> (i < nextTimerId s)%nat)
  ∧ (∀ i, autoRestartTimeoutRef s = Some i ->
          (i < nextTimerId s)%nat
          ∧ ∀ t, timers s !! i = Some t -> ∃ l, t = restart_timer l).

(** A timer that [autoRestartTimeoutRef] never names: the start on mount
    and the five-second retry. *)
Definition untracked (t : timer) : Prop :=
  match t with
  | restart_timer _ => False
  | retry_timer _ | autostart_timer => True
  end.

(** A row the hook wrote for the room of [p]. *)
Definition final_row_of_room (p : Props.t) (row : CaptionRow.t) : Prop :=
  CaptionRow.room_id row = Props.roomId p ∧ CaptionRow.is_final row = true.

(** An anchor's session in which one final segment is stored. *)
Definition one_caption_stored : list input :=
  [Ev (recognizer 0 (result_event mixed_event (stored 1 5000)))].

(** A result event with a final and an interim segment, then one with an
    interim segment only. *)
Definition two_result_events : list input :=
  [Ev (recognizer 0 (result_event mixed_event (stored 1 5000)));
   Ev (recognizer 0
         (result_event
            (ResultEvent.mk 1
               [RecognitionResult.mk (Alternative.mk (lit "old") None) true;
                RecognitionResult.mk (Alternative.mk (lit "next") None) false])
            (stored 2 6000)))].

(** ** From the store to the summary
       ([src/hooks/useDebateSummary.ts], lines 51-57) *)

(** The JavaScript number read from a [numeric(3,2)] value of [n]
    hundredths. *)
Definition number_of_hundredths (n : Z) : float :=
  let magnitude := number_of_count (Z.to_N (Z.abs n)) in
  let number := if (n <? 0)%Z then (- magnitude)%float else magnitude in
  (number / 100)%float.

(** A row of [captions] read as [generateDebateSummary] reads it.  The
    captions query of [generateSummary] (lines 51-57) is the bulk query of
    the caption reader, [fetchCaptions_query]. *)
Definition caption_of_row (row : CaptionRow.t) : Caption.t :=
  Caption.mk (CaptionRow.content row) (CaptionRow.participant_side row)
    (CaptionRow.timestamp row)
    (number_of_hundredths <$> CaptionRow.confidence row).

(** The rows of the view that belong to the room. *)
Definition rows_of_room (roomId : jsstring) (view : list CaptionRow.t)
  : Prop :=
  Forall (λ row, CaptionRow.room_id row = roomId) view.

(** * Properties *)

(** ** Properties of the sort *)


Lemma filter_comm {A} (P Q : A -> Prop) `{!∀ x, Decision (P x)}
    `{!∀ x, Decision (Q x)} (l : list A) :
  filter P (filter Q l) = filter Q (filter P l).
Proof.
  rewrite !list_filter_filter. apply list_filter_iff. intros; tauto.
Qed.

Section JsSortFacts.
Context {A : Type} (key : A -> Z).
Local Abbreviation cmp := (cmp_of key).
Local Abbreviation key_le := (le_of key).

Lemma sort_insert_perm x l : sort_insert cmp x l ≡ₚ x :: l.
Proof.
  induction l as [|y l IH]; simpl; [done|].
  destruct (cmp x y <=? 0); [done|].
  rewrite IH. apply Permutation_swap.
Qed.

Lemma js_sort_perm l : js_sort cmp l ≡ₚ l.
Proof.
  induction l as [|x l IH]; simpl; [done|].
  rewrite sort_insert_perm. by rewrite IH.
Qed.

Lemma sort_insert_sorted x l :
  StronglySorted key_le l -> StronglySorted key_le (sort_insert cmp x l).
Proof.
  induction 1 as [|y l Hs IH Hall]; simpl.
  - repeat constructor.
  - destruct (Z.leb_spec (cmp x y) 0) as [Hle|Hgt]; unfold cmp_of, le_of in *.
    + constructor; [by constructor|].
      constructor; [lia|].
      eapply Forall_impl; [exact Hall|]. simpl. intros; unfold le_of in *; lia.
    + constructor; [exact IH|].
      rewrite sort_insert_perm. constructor; [lia|exact Hall].
Qed.

Lemma js_sort_sorted l : StronglySorted key_le (js_sort cmp l).
Proof.
  induction l as [|x l IH]; simpl; [constructor|].
  by apply sort_insert_sorted.
Qed.

(** Stability: the entries sharing a key keep their relative order. *)
Lemma sort_insert_ties t x l :
  filter (λ a, key a = t) (sort_insert cmp x l)
  = filter (λ a, key a = t) (x :: l).
Proof.
  induction l as [|y l IH]; simpl; [done|].
  destruct (Z.leb_spec (cmp x y) 0) as [Hle|Hgt]; [done|].
  rewrite filter_cons, IH, !filter_cons.
  unfold cmp_of in *.
  repeat case_decide; try done; lia.
Qed.

Lemma js_sort_ties t l :
  filter (λ a, key a = t) (js_sort cmp l) = filter (λ a, key a = t) l.
Proof.
  induction l as [|x l IH]; simpl; [done|].
  rewrite sort_insert_ties, !filter_cons. by rewrite IH.
Qed.


End JsSortFacts.

(** Two key-sorted lists with the same tie groups are the same list: the
    result of a stable sort does not depend on the algorithm. *)
Lemma stable_sorted_unique {A} (key : A -> Z) (l1 l2 : list A) :
  StronglySorted (le_of key) l1 -> StronglySorted (le_of key) l2 ->
  (∀ t, filter (λ a, key a = t) l1 = filter (λ a, key a = t) l2) ->
  l1 = l2.
Proof.
  intros Hs1; revert l2.
  induction Hs1 as [|x l1 Hs1 IH Hall1]; intros l2 Hs2 Hties.
  - destruct l2 as [|y l2]; [done|].
    specialize (Hties (key y)). rewrite filter_cons in Hties.
    by case_decide.
  - destruct Hs2 as [|y l2 Hs2 Hall2].
    { specialize (Hties (key x)). rewrite filter_cons in Hties.
      by case_decide. }
    assert (Hk : key x = key y).
    { rewrite Forall_forall in Hall1, Hall2. unfold le_of in *.
      destruct (decide (key x = key y)) as [|Hne]; [done|].
      assert (Hy : y ∈ l1).
      { pose proof (Hties (key y)) as E. rewrite !filter_cons in E.
        repeat case_decide; try done.
        assert (Hin : y ∈ filter (λ a, key a = key y) l1)
          by (rewrite E; left).
        by apply list_elem_of_filter in Hin as [_ ?]. }
      assert (Hx : x ∈ l2).
      { pose proof (Hties (key x)) as E. rewrite !filter_cons in E.
        repeat case_decide; try done.
        assert (Hin : x ∈ filter (λ a, key a = key x) l2)
          by (rewrite <- E; left).
        by apply list_elem_of_filter in Hin as [_ ?]. }
      specialize (Hall1 y Hy). specialize (Hall2 x Hx). lia. }
    assert (x = y) as <-.
    { specialize (Hties (key x)). rewrite !filter_cons in Hties.
      repeat case_decide; try done. congruence. }
    f_equal. apply IH; [done|]. intros t.
    specialize (Hties t). rewrite !filter_cons in Hties.
    case_decide; congruence.
Qed.

(** ** The merged transcript *)

Lemma by_time_cmp : by_time = cmp_of Entry.timestamp.
Proof. reflexivity. Qed.

Lemma fetched_ties t messages captions :
  filter (λ e, Entry.timestamp e = t) (fetched messages captions)
  = map of_message (filter (λ m, Message.timestamp m = t) messages)
    ++ map of_caption (filter (λ c, Caption.timestamp c = t) captions).
Proof.
  unfold fetched. rewrite filter_app. f_equal.
  - induction messages as [|m l IH]; [done|].
    simpl. rewrite !filter_cons, IH. simpl. by repeat case_decide.
  - induction captions as [|c l IH]; [done|].
    simpl. rewrite !filter_cons, IH. simpl. by repeat case_decide.
Qed.

Lemma allContent_sorted messages captions :
  StronglySorted time_le (allContent messages captions).
Proof.
  unfold allContent. rewrite by_time_cmp.
  apply (js_sort_sorted Entry.timestamp).
Qed.

Lemma allContent_ties t messages captions :
  filter (λ e, Entry.timestamp e = t) (allContent messages captions)
  = map of_message (filter (λ m, Message.timestamp m = t) messages)
    ++ map of_caption (filter (λ c, Caption.timestamp c = t) captions).
Proof.
  unfold allContent. rewrite by_time_cmp, js_sort_ties. apply fetched_ties.
Qed.


(** Whatever stable sorting algorithm the engine uses, the array it returns
    is the one [js_sort] computes. *)
Lemma js_sort_characterised {A} (key : A -> Z) (l l' : list A) :
  StronglySorted (le_of key) l' ->
  (∀ t, filter (λ a, key a = t) l' = filter (λ a, key a = t) l) ->
  l' = js_sort (cmp_of key) l.
Proof.
  intros Hs Hties. apply (stable_sorted_unique key); [done| |].
  - apply js_sort_sorted.
  - intros t. by rewrite js_sort_ties.
Qed.



(** X26.  The aggregator fetches both tables ordered by timestamp
    ([useDebateSummary], [.order('timestamp', { ascending: true })]); then
    each source reappears in the merge exactly in its fetch order. *)
Lemma allContent_keeps_sources (messages : list Message.t)
    (captions : list Caption.t) :
  StronglySorted (le_of Message.timestamp) messages ->
  StronglySorted (le_of Caption.timestamp) captions ->
  filter (λ e, Entry.type e = type_message) (allContent messages captions)
    = map of_message messages
  ∧ filter (λ e, Entry.type e = type_caption) (allContent messages captions)
    = map of_caption captions.
Proof.
  intros Hm Hc.
  assert (Hsm : StronglySorted (le_of Entry.timestamp) (map of_message messages)).
  { induction Hm as [|m l _ IH Hall]; simpl; constructor; [done|].
    apply Forall_forall. intros e He. rewrite Forall_forall in Hall.
    apply list_elem_of_fmap in He as (m' & -> & Hin). exact (Hall m' Hin). }
  assert (Hsc : StronglySorted (le_of Entry.timestamp) (map of_caption captions)).
  { induction Hc as [|c l _ IH Hall]; simpl; constructor; [done|].
    apply Forall_forall. intros e He. rewrite Forall_forall in Hall.
    apply list_elem_of_fmap in He as (c' & -> & Hin). exact (Hall c' Hin). }
  assert (Hfm : ∀ l, filter (λ e, Entry.type e = type_message) (map of_message l)
                     = map of_message l).
  { induction l as [|m l IH]; [done|]. simpl. rewrite filter_cons, IH.
    by case_decide. }
  assert (Hfc : ∀ l, filter (λ e, Entry.type e = type_message) (map of_caption l)
                     = []).
  { induction l as [|c l IH]; [done|]. simpl. rewrite filter_cons, IH.
    by case_decide. }
  assert (Hgm : ∀ l, filter (λ e, Entry.type e = type_caption) (map of_message l)
                     = []).
  { induction l as [|m l IH]; [done|]. simpl. rewrite filter_cons, IH.
    by case_decide. }
  assert (Hgc : ∀ l, filter (λ e, Entry.type e = type_caption) (map of_caption l)
                     = map of_caption l).
  { induction l as [|c l IH]; [done|]. simpl. rewrite filter_cons, IH.
    by case_decide. }
  pose proof (allContent_sorted messages captions) as Hs.
  pose proof (λ t, allContent_ties t messages captions) as Hties.
  assert (Hsub : ∀ (P : Entry.t -> Prop) `{!∀ x, Decision (P x)} l,
            StronglySorted (le_of Entry.timestamp) l ->
            StronglySorted (le_of Entry.timestamp) (filter P l)).
  { intros P ? l Hl. induction Hl as [|x l _ IH Hall]; [constructor|].
    rewrite filter_cons. case_decide; [|done]. constructor; [done|].
    apply Forall_forall. intros y Hy. rewrite Forall_forall in Hall.
    apply list_elem_of_filter in Hy as [_ Hy]. by apply Hall. }
  assert (Hmerged : ∀ t, filter (λ e, Entry.timestamp e = t)
                            (allContent messages captions)
                          = filter (λ e, Entry.timestamp e = t)
                              (fetched messages captions)).
  { intros t. rewrite Hties. by rewrite fetched_ties. }
  split; (apply (stable_sorted_unique Entry.timestamp); [by apply Hsub|done|]);
    intros t; rewrite filter_comm, Hmerged, filter_comm; unfold fetched;
    by rewrite filter_app, ?Hfm, ?Hfc, ?Hgm, ?Hgc, ?app_nil_r.
Qed.

(** ** Per-side arguments *)

(** C8, counterexample.  One side-A caption at t = 1000 and one side-A
    message at t = 2000: the persisted list starts with the later message,
    the chronological list with the earlier caption. *)
Lemma extractSideArguments_not_chronological :
  extractSideArguments early_caption_data side_a
    = [lit "written later"; lit "spoken first"]
  ∧ chronological_side_arguments early_caption_data side_a
    = [lit "spoken first"; lit "written later"]
  ∧ extractSideArguments early_caption_data side_a
    ≠ chronological_side_arguments early_caption_data side_a.
Proof. split; [reflexivity|]. split; [reflexivity|]. discriminate. Qed.

Lemma sideContent_fetched s messages captions :
  sideContent s (fetched messages captions)
  = map of_message (filter (λ m, Message.side m = Some s) messages)
    ++ map of_caption (filter (λ c, Caption.participant_side c = Some s) captions).
Proof.
  unfold sideContent, fetched. rewrite filter_app. f_equal.
  - induction messages as [|m l IH]; [done|].
    simpl. rewrite !filter_cons, IH. simpl. by repeat case_decide.
  - induction captions as [|c l IH]; [done|].
    simpl. rewrite !filter_cons, IH. simpl. by repeat case_decide.
Qed.

Lemma filter_sorted {A} (key : A -> Z) (P : A -> Prop)
    `{!∀ x, Decision (P x)} (l : list A) :
  StronglySorted (le_of key) l -> StronglySorted (le_of key) (filter P l).
Proof.
  induction 1 as [|x l _ IH Hall]; [constructor|].
  rewrite filter_cons. case_decide; [|done]. constructor; [done|].
  apply Forall_forall. intros y Hy. rewrite Forall_forall in Hall.
  apply list_elem_of_filter in Hy as [_ Hy]. by apply Hall.
Qed.

Lemma map_sorted {A B} (f : A -> B) (ka : A -> Z) (kb : B -> Z) (l : list A) :
  (∀ a, kb (f a) = ka a) ->
  StronglySorted (le_of ka) l -> StronglySorted (le_of kb) (map f l).
Proof.
  intros Hk. induction 1 as [|x l _ IH Hall]; simpl; constructor; [done|].
  apply Forall_forall. intros y Hy. rewrite Forall_forall in Hall.
  apply list_elem_of_fmap in Hy as (a & -> & Hin).
  unfold le_of. rewrite !Hk. by apply Hall.
Qed.

Lemma app_sorted {A} (key : A -> Z) (l1 l2 : list A) :
  StronglySorted (le_of key) l1 -> StronglySorted (le_of key) l2 ->
  (∀ x y, x ∈ l1 -> y ∈ l2 -> key x <= key y) ->
  StronglySorted (le_of key) (l1 ++ l2).
Proof.
  induction 1 as [|x l1 _ IH Hall]; intros H2 Hcross; simpl; [done|].
  constructor.
  - apply IH; [done|]. intros a b Ha Hb. apply Hcross; [by right|done].
  - apply Forall_app. split; [done|].
    apply Forall_forall. intros y Hy. apply Hcross; [by left|done].
Qed.

Lemma messages_first {A} (ms cs : list A) :
  take (length ms) (take 10 (ms ++ cs)) = take 10 ms
  ∧ drop (length ms) (take 10 (ms ++ cs)) = take (10 - length ms) cs.
Proof.
  destruct (decide (length ms <= 10)%nat) as [Hle|Hgt].
  - split.
    + rewrite take_take, Nat.min_l by done.
      rewrite take_app_le by done. by rewrite !take_ge by lia.
    + replace 10%nat with (length ms + (10 - length ms))%nat at 1 by lia.
      rewrite <- take_drop_commute. by rewrite drop_app_length.
  - split.
    + rewrite take_take, Nat.min_r by lia. by rewrite take_app_le by lia.
    + rewrite drop_ge by (rewrite length_take; lia).
      by replace (10 - length ms)%nat with 0%nat by lia.
Qed.

Lemma sideContent_chronological ms cs s :
  StronglySorted (le_of Message.timestamp) ms ->
  StronglySorted (le_of Caption.timestamp) cs ->
  (∀ m c, m ∈ ms -> c ∈ cs ->
          Message.side m = Some s -> Caption.participant_side c = Some s ->
          Message.timestamp m <= Caption.timestamp c) ->
  sideContent s (allContent ms cs) = sideContent s (fetched ms cs).
Proof.
  intros Hm Hc Hcross.
  pose proof (allContent_sorted ms cs) as Hs.
  pose proof (λ t, allContent_ties t ms cs) as Hties.
  apply (stable_sorted_unique Entry.timestamp).
  - by apply filter_sorted.
  - rewrite sideContent_fetched. apply app_sorted.
    + apply (map_sorted _ Message.timestamp); [done|].
      by apply filter_sorted.
    + apply (map_sorted _ Caption.timestamp); [done|].
      by apply filter_sorted.
    + intros x y Hx Hy.
      apply list_elem_of_fmap in Hx as (m & -> & Hx).
      apply list_elem_of_fmap in Hy as (c & -> & Hy).
      apply list_elem_of_filter in Hx as [? ?].
      apply list_elem_of_filter in Hy as [? ?].
      simpl. by apply Hcross.
  - intros t. unfold sideContent.
    rewrite filter_comm, Hties, <- fetched_ties. apply filter_comm.
Qed.

(** C8, as the code has it.  Whatever the timestamps, the persisted list of
    a side is the first ten of that side's message contents in fetch order
    followed by that side's caption contents in fetch order: its first
    entries are the side's messages (ten of them at most), and captions fill
    only the places the messages leave.  The list is the chronological first
    ten across both sources in the case where both sources are fetched in
    timestamp order and no caption of the side is earlier than a message of
    the side. *)
Theorem extractSideArguments_messages_then_captions (data : SummaryData.t)
    (s : side) :
  let written :=
    map Message.content
      (filter (λ m, Message.side m = Some s) (SummaryData.messages data)) in
  let spoken :=
    map Caption.content
      (filter (λ c, Caption.participant_side c = Some s)
              (SummaryData.captions data)) in
  extractSideArguments data s = take 10 (written ++ spoken)
  ∧ (length (extractSideArguments data s) <= 10)%nat
  ∧ take (length written) (extractSideArguments data s) = take 10 written
  ∧ drop (length written) (extractSideArguments data s)
    = take (10 - length written) spoken
  ∧ (StronglySorted (le_of Message.timestamp) (SummaryData.messages data) ->
     StronglySorted (le_of Caption.timestamp) (SummaryData.captions data) ->
     (∀ m c, m ∈ SummaryData.messages data -> c ∈ SummaryData.captions data ->
             Message.side m = Some s -> Caption.participant_side c = Some s ->
             Message.timestamp m <= Caption.timestamp c) ->
     extractSideArguments data s = chronological_side_arguments data s).
Proof.
  intros written spoken.
  assert (Hcode : extractSideArguments data s = take 10 (written ++ spoken))
    by reflexivity.
  split; [exact Hcode|].
  split; [rewrite Hcode, length_take; lia|].
  split; [rewrite Hcode; apply messages_first|].
  split; [rewrite Hcode; apply messages_first|].
  intros Hm Hc Hcross.
  unfold extractSideArguments, chronological_side_arguments, slice0.
  f_equal.
  rewrite (sideContent_chronological _ _ s Hm Hc Hcross).
  rewrite sideContent_fetched, map_app, !map_map. done.
Qed.

(** C8 at a debate where the side speaks before it writes, where the
    persisted list starts with the later message, and at a debate where the
    side writes before it speaks, where the list is chronological. *)
Lemma extractSideArguments_messages_then_captions_witness :
  extractSideArguments early_caption_data side_a
    = take 10 ([lit "written later"] ++ [lit "spoken first"])
  ∧ extractSideArguments chat_then_speech_data side_a
    = [lit "opening"; lit "closing"]
  ∧ extractSideArguments chat_then_speech_data side_a
    = chronological_side_arguments chat_then_speech_data side_a.
Proof.
  split;
    [exact (proj1 (extractSideArguments_messages_then_captions
                     early_caption_data side_a))|].
  split; [reflexivity|].
  refine (proj2 (proj2 (proj2 (proj2
    (extractSideArguments_messages_then_captions chat_then_speech_data side_a))))
    _ _ _).
  - repeat constructor; unfold le_of; simpl; lia.
  - repeat constructor.
  - intros m c Hm Hc _ _. simpl in Hm, Hc.
    apply list_elem_of_In in Hm, Hc. simpl in Hm, Hc.
    destruct Hc as [<-|[]]. destruct Hm as [<-|[<-|[]]]; simpl; lia.
Defined.

(** ** The fallback summary *)

Lemma fallbackSummary_nonempty topic messages votes captions sideALabel
    sideBLabel error :
  fallbackSummary topic messages votes captions sideALabel sideBLabel error
  ≠ [].
Proof.
  unfold fallbackSummary. cbn [join_lines].
  change (lit "# Debate Summary: ") with (35%N :: lit " Debate Summary: ").
  discriminate.
Qed.

Lemma try_block_failed o : call_failed o -> try_block o = inr (failure_of o).
Proof. unfold failure_of. by destruct o as [| | |[[|]|]]. Qed.

(** C7, counterexample.  With [VITE_GEMINI_API_KEY] unset (or empty) the
    function throws before the [try] block, whatever the data and however
    the service would have failed: no fallback content is returned. *)
Lemma generateDebateSummary_throws_without_key :
  call_failed unreachable_service
  ∧ generateDebateSummary (lit "Cats") [] (Votes.mk 3 1) [] (lit "For")
      (lit "Against") None unreachable_service
    = Throws (lit "Gemini API key not configured. Please add VITE_GEMINI_API_KEY to your environment variables.")
  ∧ generateDebateSummary (lit "Cats") [] (Votes.mk 3 1) [] (lit "For")
      (lit "Against") (Some []) unreachable_service
    = Throws (lit "Gemini API key not configured. Please add VITE_GEMINI_API_KEY to your environment variables.")
  ∧ generateDebateSummary (lit "Cats") [] (Votes.mk 3 1) [] (lit "For")
      (lit "Against") None unreachable_service
    ≠ Returns (fallbackSummary (lit "Cats") [] (Votes.mk 3 1) [] (lit "For")
                 (lit "Against") (failure_of unreachable_service)).
Proof. repeat split; discriminate. Qed.

(** C7, as the code has it.  When the API key is configured and the service
    call fails (network error, non-2xx response, unreadable body or empty
    output), [generateDebateSummary] returns, without throwing, the fallback
    template computed from the same data and the caught error; that content
    is never empty, and two failures that raise the same error give the same
    content. *)
Theorem generateDebateSummary_falls_back (topic : jsstring)
    (messages : list Message.t) (votes : Votes.t) (captions : list Caption.t)
    (sideALabel sideBLabel : jsstring) (key : option jsstring)
    (outcome : service_outcome) :
  truthy (default [] key) = true ->
  call_failed outcome ->
  generateDebateSummary topic messages votes captions sideALabel sideBLabel
      key outcome
    = Returns (fallbackSummary topic messages votes captions sideALabel
                 sideBLabel (failure_of outcome))
  ∧ fallbackSummary topic messages votes captions sideALabel sideBLabel
      (failure_of outcome) ≠ []
  ∧ (∀ outcome', call_failed outcome' ->
       failure_of outcome' = failure_of outcome ->
       generateDebateSummary topic messages votes captions sideALabel
           sideBLabel key outcome'
       = generateDebateSummary topic messages votes captions sideALabel
           sideBLabel key outcome).
Proof.
  intros Hkey Hfail.
  assert (Hgen : ∀ o, call_failed o ->
            generateDebateSummary topic messages votes captions sideALabel
                sideBLabel key o
            = Returns (fallbackSummary topic messages votes captions
                         sideALabel sideBLabel (failure_of o))).
  { intros o Ho. unfold generateDebateSummary.
    rewrite Hkey. simpl. by rewrite (try_block_failed o Ho). }
  split; [by apply Hgen|].
  split; [apply fallbackSummary_nonempty|].
  intros o' Ho' Heq. by rewrite !Hgen, Heq.
Qed.

(** C7 at a reply without text. *)
Lemma generateDebateSummary_falls_back_witness :
  generateDebateSummary (lit "Cats") (SummaryData.messages chat_then_speech_data)
      (Votes.mk 3 1) (SummaryData.captions chat_then_speech_data)
      (lit "For") (lit "Against") (Some (lit "secret")) empty_output
    = Returns (fallbackSummary (lit "Cats")
                 (SummaryData.messages chat_then_speech_data) (Votes.mk 3 1)
                 (SummaryData.captions chat_then_speech_data)
                 (lit "For") (lit "Against")
                 (ErrorObject (lit "No content generated by Gemini API"))).
Proof.
  exact (proj1 (generateDebateSummary_falls_back (lit "Cats")
                  (SummaryData.messages chat_then_speech_data) (Votes.mk 3 1)
                  (SummaryData.captions chat_then_speech_data)
                  (lit "For") (lit "Against") (Some (lit "secret"))
                  empty_output eq_refl I)).
Defined.

(** The other three kinds of failure, and a successful call. *)
Example failure_of_http_error :
  failure_of (response_not_ok 503 (lit "Service Unavailable")
                              (Some (lit "overloaded")))
  = ErrorObject (lit "Gemini API error: 503 Service Unavailable. overloaded").
Proof. reflexivity. Qed.

Example generateDebateSummary_success :
  generateDebateSummary (lit "Cats") [] (Votes.mk 0 0) [] (lit "For")
      (lit "Against") (Some (lit "secret"))
      (response_ok (Some (lit "A fine debate.")))
  = Returns (lit "A fine debate.").
Proof. reflexivity. Qed.

Example scenario_merge :
  map Entry.timestamp (allContent scenario_messages scenario_captions)
    = [1; 2; 3; 4; 5]
  ∧ length (sideAContent scenario_messages scenario_captions) = 3%nat
  ∧ length (sideBContent scenario_messages scenario_captions) = 2%nat
  ∧ sideAPercentage (Votes.mk 3 1) = lit "75.0"
  ∧ sideBPercentage (Votes.mk 3 1) = lit "25.0"
  ∧ percentage 0 0 = lit "0".
Proof. repeat split; vm_compute; reflexivity. Qed.

(** ** The caption reader *)

Lemma fetchCaptions_query_final roomId table data :
  fetchCaptions_query roomId table data -> all_final data.
Proof.
  intros [Hperm _]. unfold all_final. rewrite Hperm.
  apply Forall_forall. intros r Hr.
  by apply list_elem_of_filter in Hr as [[_ ?] _].
Qed.

Lemma useCaptions_snoc roomId events ev :
  useCaptions roomId (events ++ [ev])
  = reader_step roomId (useCaptions roomId events) ev.
Proof. unfold useCaptions. by rewrite foldl_app. Qed.

Lemma answered_app roomId events1 events2 :
  answered roomId (events1 ++ events2)
  <-> answered roomId events1 ∧ answered roomId events2.
Proof. apply Forall_app. Qed.

(** C10.  The bulk fetch yields only final captions of the room; a live
    notification appends the inserted row of the room whatever its
    [is_final]; so the view holds only final captions as long as every row
    inserted for the room is final, and a single non-final insert shows up
    in the view. *)
Theorem useCaptions_final_only_if_writers_final (roomId : jsstring) :
  (∀ table data, fetchCaptions_query roomId table data -> all_final data)
  ∧ (∀ captions row, CaptionRow.room_id row = roomId ->
       reader_step roomId captions (row_inserted row) = captions ++ [row])
  ∧ (∀ events, answered roomId events ->
       all_final (notified roomId events) ->
       all_final (useCaptions roomId events))
  ∧ (∀ events row, CaptionRow.room_id row = roomId ->
       CaptionRow.is_final row = false ->
       row ∈ useCaptions roomId (events ++ [row_inserted row])
       ∧ ¬ all_final (useCaptions roomId (events ++ [row_inserted row]))).
Proof.
  split; [apply fetchCaptions_query_final|].
  split; [intros captions row Hroom; simpl; by case_decide|].
  split.
  - induction events as [|ev events IH] using rev_ind; intros Hans Hn.
    + constructor.
    + rewrite useCaptions_snoc.
      apply answered_app in Hans as [Hans1 Hans2].
      unfold notified in Hn. rewrite omap_app in Hn.
      apply Forall_app in Hn as [Hn1 Hn2]. specialize (IH Hans1 Hn1).
      destruct ev as [data| |row]; simpl.
      * apply Forall_cons in Hans2 as [[table Hq] _].
        by apply (fetchCaptions_query_final roomId table).
      * exact IH.
      * simpl in Hn2. case_decide; [|exact IH].
        apply Forall_app. split; [exact IH|exact Hn2].
  - intros events row Hroom Hnf. rewrite useCaptions_snoc. simpl.
    case_decide; [|done].
    split; [set_solver|]. intros Hall.
    apply Forall_app in Hall as [_ Hall].
    apply Forall_cons in Hall as [Hall _]. congruence.
Qed.

(** C10 at an interim row inserted while the reader listens: the bulk
    query leaves the interim row of the table out, the notification brings
    it into the view. *)
Lemma useCaptions_final_only_if_writers_final_witness :
  fetchCaptions_query (lit "room-1") [interim_row] []
  ∧ useCaptions (lit "room-1") [fetch_resolved []; row_inserted interim_row]
    = [interim_row]
  ∧ ¬ all_final (useCaptions (lit "room-1")
                   ([fetch_resolved []] ++ [row_inserted interim_row])).
Proof.
  split; [split; [vm_compute; reflexivity|constructor]|].
  split; [reflexivity|].
  exact (proj2 (proj2 (proj2 (proj2
    (useCaptions_final_only_if_writers_final (lit "room-1"))))
    [fetch_resolved []] interim_row eq_refl eq_refl)).
Defined.

(** ** Persisted captions *)

Lemma collect_transcripts_final (l : list RecognitionResult.t) acc :
  (foldl (λ acc r,
            let transcript := Alternative.transcript (RecognitionResult.first r) in
            if RecognitionResult.isFinal r
            then (acc.1, acc.2 ++ transcript)
            else (acc.1 ++ transcript, acc.2)) acc l).2
  = acc.2 ++ concat (map (λ r, Alternative.transcript (RecognitionResult.first r))
                         (filter (λ r, RecognitionResult.isFinal r = true) l)).
Proof.
  revert acc. induction l as [|r l IH]; intros acc; simpl.
  - by rewrite app_nil_r.
  - rewrite IH, filter_cons.
    case_decide as Hd; destruct (RecognitionResult.isFinal r);
      simplify_eq; simpl; by rewrite ?app_assoc.
Qed.

Lemma finalTranscript_final_text ev : finalTranscript ev = final_text ev.
Proof.
  unfold finalTranscript, collect_transcripts, final_text, final_results.
  by rewrite collect_transcripts_final.
Qed.

Lemma final_results_without_interim ev :
  final_results (without_interim ev) = final_results ev.
Proof.
  unfold without_interim, final_results.
  cbn [ResultEvent.resultIndex ResultEvent.results].
  rewrite drop_0, list_filter_filter.
  apply list_filter_iff. intros; tauto.
Qed.

(** Only [onresult] writes captions, and only with [is_final: true]; the
    row records what the column makes of the confidence sent. *)
Lemma handle_captions p e s :
  captions (handle p e s) = captions s
  ∨ ∃ r ev io id ts side confidence,
      e = recognizer r (result_event ev io)
      ∧ truthy (trim (finalTranscript ev)) = true
      ∧ numeric_3_2 (caption_confidence ev) = column_of confidence
      ∧ captions (handle p e s)
        = captions s
          ++ [CaptionRow.mk id (Props.roomId p) (Props.userId p) (Some side)
                (trim (finalTranscript ev)) confidence ts true].
Proof.
  destruct e as [r [| |kind|ev io]|id| | |];
    try (left; session_crush; done).
  destruct (recognitions s !! r) as [c|] eqn:Hr;
    [|left; unfold handle; by rewrite Hr].
  unfold handle. rewrite Hr. unfold onresult.
  destruct (Props.participantSide p) as [sd|]; [|by left].
  destruct (truthy (trim (finalTranscript ev))) eqn:Ht; [|by left].
  destruct (Props.isAnchor p); [|by left].
  destruct io as [id ts| |]; [|by left|by left].
  cbn [andb]. unfold insert_caption, stored_row.
  cbn [CaptionInsert.confidence].
  destruct (numeric_3_2 (caption_confidence ev)) as [n| |] eqn:Hn.
  - right. by exists r, ev, (stored id ts), id, ts, sd, (Some n).
  - right. by exists r, ev, (stored id ts), id, ts, sd, None.
  - by left.
Qed.

Lemma insert_caption_actions x io s :
  actions (insert_caption x io s) = actions s ++ [Insert x].
Proof.
  unfold insert_caption.
  destruct io as [id ts| |]; [destruct (stored_row id ts x)|..]; reflexivity.
Qed.

Lemma handle_actions_insert p e s :
  (∃ new, actions (handle p e s) = actions s ++ new
          ∧ Forall (λ a, ∀ x, a = Insert x ->
                      ∃ r ev io, e = recognizer r (result_event ev io)
                        ∧ truthy (trim (finalTranscript ev)) = true
                        ∧ CaptionInsert.content x = trim (finalTranscript ev)
                        ∧ CaptionInsert.confidence x = caption_confidence ev
                        ∧ CaptionInsert.is_final x = true) new).
Proof.
  destruct e as [r [| |kind|ev io]|id| | |].
  1-3, 5-8: session_crush;
    (eexists; split;
       [first [symmetry; apply app_nil_r | rewrite <- ?app_assoc; reflexivity]|]);
    repeat constructor; intros; simplify_eq.
  unfold handle. destruct (recognitions s !! r) as [c|] eqn:Hr.
  2: { exists []. by rewrite app_nil_r. }
  unfold onresult.
  destruct (Props.participantSide p) as [sd|];
    [|exists []; by rewrite app_nil_r].
  destruct (truthy (trim (finalTranscript ev))) eqn:Ht;
    [|exists []; by rewrite app_nil_r].
  destruct (Props.isAnchor p); [|exists []; by rewrite app_nil_r].
  eexists. split.
  - cbn [andb]. rewrite insert_caption_actions. reflexivity.
  - repeat constructor. intros x [= <-]. exists r, ev, io. by simpl.
Qed.

Lemma rerender_captions s : captions (rerender s) = captions s.
Proof. session_crush; done. Qed.

Lemma rerender_actions s :
  ∃ new, actions (rerender s) = actions s ++ new
         ∧ Forall (λ a, ∀ x, a ≠ Insert x) new.
Proof.
  session_crush;
    (eexists; split;
       [first [symmetry; apply app_nil_r | rewrite <- ?app_assoc; reflexivity]|]);
    repeat constructor; try (intros ? ?; simplify_eq).
Qed.

Lemma exec_snoc p inputs i s :
  exec p (inputs ++ [i]) s = exec1 p (exec p inputs s) i.
Proof. unfold exec. by rewrite foldl_app. Qed.

Lemma mount_captions p : captions (mount p) = [].
Proof. unfold mount. by case_match. Qed.

Lemma mount_actions p :
  actions (mount p) = [] ∨ actions (mount p) = [SetTimeout 1 1000 autostart_timer].
Proof. unfold mount. case_match; [by right|by left]. Qed.

Lemma from_final_results_mono inputs i content :
  from_final_results inputs content ->
  from_final_results (inputs ++ [i]) content.
Proof.
  intros (r & ev & io & Hin & Hc). exists r, ev, io.
  split; [|done]. apply elem_of_app. by left.
Qed.

Lemma truthy_nonempty (x : jsstring) : truthy x = true -> x ≠ [].
Proof. by destruct x. Qed.

(** C2.  Whatever the recognizer, the timers, the consumer and React do,
    every caption row in durable storage, and every insert request the hook
    emits, has [is_final = true] and carries exactly the trimmed text of the
    results marked final in one result event; interim text goes only into
    the [transcript] state: deleting the interim results from an event
    changes nothing in what is persisted. *)
Theorem persisted_captions_only_final_text (p : Props.t)
    (inputs : list input) :
  let s := exec p inputs (mount p) in
  Forall (final_row inputs) (captions s)
  ∧ Forall (final_insert inputs) (actions s)
  ∧ (∀ ev io s0,
       transcript (onresult p ev io s0)
         = finalTranscriptRef s0 ++ finalTranscript ev ++ interimTranscript ev
       ∧ finalTranscript ev = final_text ev
       ∧ finalTranscript (without_interim ev) = finalTranscript ev
       ∧ interimTranscript (without_interim ev) = []).
Proof.
  cbv zeta. split; [|split].
  - induction inputs as [|i inputs IH] using rev_ind.
    + simpl. rewrite mount_captions. constructor.
    + rewrite exec_snoc.
      assert (Hold : Forall (final_row (inputs ++ [i]))
                       (captions (exec p inputs (mount p)))).
      { eapply Forall_impl; [exact IH|]. intros row [? ?]. split; [done|].
        by apply from_final_results_mono. }
      destruct i as [e|]; simpl; [|by rewrite rerender_captions].
      destruct (handle_captions p e (exec p inputs (mount p)))
        as [->|(r & ev & io & id & ts & sd & cf & -> & Ht & _ & ->)]; [done|].
      apply Forall_app. split; [done|]. repeat constructor.
      exists r, ev, io. simpl. split; [set_solver|].
      split; [by rewrite finalTranscript_final_text|].
      by apply truthy_nonempty.
  - induction inputs as [|i inputs IH] using rev_ind.
    + simpl. destruct (mount_actions p) as [->| ->]; repeat constructor.
    + rewrite exec_snoc.
      assert (Hold : Forall (final_insert (inputs ++ [i]))
                       (actions (exec p inputs (mount p)))).
      { eapply Forall_impl; [exact IH|]. intros [] Ha; try done.
        destruct Ha as [? ?]. split; [done|].
        by apply from_final_results_mono. }
      destruct i as [e|]; simpl.
      * destruct (handle_actions_insert p e (exec p inputs (mount p)))
          as (new & -> & Hnew).
        apply Forall_app. split; [done|].
        eapply Forall_impl; [exact Hnew|]. intros [] Ha; try done.
        destruct (Ha _ eq_refl) as (r & ev & io & -> & Ht & Hc & _ & Hf).
        split; [done|]. exists r, ev, io. split; [set_solver|].
        rewrite Hc. split; [by rewrite finalTranscript_final_text|].
        by apply truthy_nonempty.
      * destruct (rerender_actions (exec p inputs (mount p)))
          as (new & -> & Hnew).
        apply Forall_app. split; [done|].
        eapply Forall_impl; [exact Hnew|]. intros [] Ha; try done.
        by destruct (Ha payload).
  - intros ev io s0. split.
    { session_crush; done. }
    split; [apply finalTranscript_final_text|].
    rewrite !finalTranscript_final_text. unfold final_text.
    rewrite final_results_without_interim. split; [done|].
    unfold interimTranscript, collect_transcripts, without_interim.
    cbn [ResultEvent.resultIndex ResultEvent.results]. rewrite drop_0.
    unfold final_results.
    generalize (drop (ResultEvent.resultIndex ev) (ResultEvent.results ev)).
    intros l.
    assert (H : ∀ acc, (foldl (λ acc r,
              let transcript := Alternative.transcript (RecognitionResult.first r) in
              if RecognitionResult.isFinal r
              then (acc.1, acc.2 ++ transcript)
              else (acc.1 ++ transcript, acc.2)) acc
              (filter (λ r, RecognitionResult.isFinal r = true) l)).1 = acc.1).
    { induction l as [|r l IH]; intros acc; [done|].
      rewrite filter_cons. case_decide as Hd; [|apply IH].
      simpl. rewrite Hd. by rewrite IH. }
    apply H.
Qed.

Lemma digits2_pos_bound (m : positive) :
  Z.pos m < 2 ^ Z.pos (SpecFloat.digits2_pos m).
Proof.
  induction m as [m IH|m IH|]; simpl SpecFloat.digits2_pos;
    rewrite ?Pos2Z.inj_succ, ?Z.pow_succ_r by lia; lia.
Qed.

Lemma valid_mantissa (x : float) s m e :
  Prim2SF x = S754_finite s m e -> Z.pos m < 2 ^ 53.
Proof.
  intros Hx. pose proof (Prim2SF_valid x) as Hv. rewrite Hx in Hv.
  unfold SpecFloat.valid_binary, SpecFloat.bounded in Hv.
  apply andb_prop in Hv as [Hc _].
  unfold SpecFloat.canonical_mantissa, SpecFloat.fexp in Hc.
  apply Z.eqb_eq in Hc.
  pose proof (digits2_pos_bound m) as Hd.
  assert (Z.pos (SpecFloat.digits2_pos m) <= 53) by (unfold FloatOps.prec in *; lia).
  eapply Z.lt_le_trans; [exact Hd|]. apply Z.pow_le_mono_r; lia.
Qed.

Lemma one_is_one : Prim2SF 1%float = S754_finite false 4503599627370496 (-52).
Proof. reflexivity. Qed.

Lemma zero_is_zero : Prim2SF 0%float = S754_zero false.
Proof. reflexivity. Qed.

Lemma round_hundredths_in_range (m : positive) (e : Z) :
  e < 0 -> Z.pos m <= 2 ^ (- e) -> 100 < 2 ^ (- e) ->
  0 <= round_hundredths m e <= 100.
Proof.
  intros He Hm Hd. unfold round_hundredths.
  destruct (Z.leb_spec 0 e) as [?|_]; [lia|].
  set (d := 2 ^ (- e)) in *.
  assert (Hk0 : 0 <= (100 * Z.pos m) `div` d) by (apply Z.div_pos; lia).
  assert (Hk1 : (100 * Z.pos m) `div` d <= 100).
  { apply Z.div_le_upper_bound; lia. }
  pose proof (Z.mul_div_le (100 * Z.pos m) d ltac:(lia)) as Hmul.
  set (k := (100 * Z.pos m) `div` d) in *.
  destruct ((_ <? 100) || _ && _) eqn:Hup; [|lia].
  destruct (decide (k = 100)) as [Hk|]; [|lia].
  exfalso. rewrite Hk in *.
  assert (Z.pos m = d) by lia.
  apply orb_prop in Hup as [Hup|Hup].
  - apply Z.ltb_lt in Hup. lia.
  - apply andb_prop in Hup as [Hup _]. apply Z.eqb_eq in Hup. lia.
Qed.

Lemma SFleb_finite m e c k :
  SpecFloat.SFleb (S754_finite false m e) (S754_finite false c k) = true ->
  e < k ∨ e = k ∧ Z.pos m <= Z.pos c.
Proof.
  unfold SpecFloat.SFleb, SpecFloat.SFcompare. intros H1.
  destruct (Z.compare_spec e k) as [->|?|?]; [|by left|discriminate].
  right. split; [reflexivity|].
  rewrite Pos.compare_cont_spec in H1. unfold Pos.switch_Eq in H1.
  destruct (Pos.compare_spec m c) as [->|Hlt|?];
    [reflexivity|apply Z.lt_le_incl; exact Hlt|discriminate].
Qed.

Lemma positive_confidence_finite (x : float) :
  positive_confidence x ->
  ∃ m e, Prim2SF x = S754_finite false m e
         ∧ (e < -52 ∨ e = -52 ∧ Z.pos m <= 2 ^ 52).
Proof.
  intros [H0 H1]. rewrite ltb_spec, zero_is_zero in H0.
  rewrite leb_spec, one_is_one in H1.
  destruct (Prim2SF x) as [s|s| |s m e]; try destruct s; try discriminate.
  exists m, e. split; [reflexivity|]. exact (SFleb_finite _ _ _ _ H1).
Qed.

Lemma numeric_3_2_in_range (x : float) :
  positive_confidence x -> ∃ n, numeric_3_2 x = Recorded n ∧ 0 <= n <= 100.
Proof.
  intros Hx. destruct (positive_confidence_finite x Hx) as (m & e & Hm & He).
  pose proof (valid_mantissa x _ _ _ Hm) as Hv.
  assert (Hr : 0 <= round_hundredths m e <= 100).
  { apply round_hundredths_in_range; [lia| |].
    - destruct He as [He|[-> ?]]; [|done].
      transitivity (2 ^ 53); [lia|]. apply Z.pow_le_mono_r; lia.
    - eapply Z.lt_le_trans with (2 ^ 52); [done|]. apply Z.pow_le_mono_r; lia. }
  exists (round_hundredths m e). unfold numeric_3_2. rewrite Hm. cbv zeta.
  destruct (Z.ltb_spec (round_hundredths m e) 1000); [done|lia].
Qed.

Lemma default_confidence_positive : positive_confidence default_confidence.
Proof. split; reflexivity. Qed.

Lemma truthy_positive (x : float) :
  (0 <=? x)%float = true -> number_truthy x = true -> (0 <? x)%float = true.
Proof.
  unfold number_truthy.
  rewrite leb_spec, ltb_spec, !FloatAxioms.eqb_spec, zero_is_zero.
  destruct (Prim2SF x) as [s|s| |s m e]; try destruct s; simpl; try done.
Qed.

Lemma caption_confidence_truthy ev :
  number_truthy (caption_confidence ev) = true.
Proof.
  unfold caption_confidence.
  destruct (ResultEvent.results ev !! ResultEvent.resultIndex ev) as [r|];
    [|reflexivity].
  destruct (Alternative.confidence (RecognitionResult.first r)) as [c|];
    [|reflexivity].
  destruct (number_truthy c) eqn:Ht; [exact Ht|reflexivity].
Qed.

Lemma caption_confidence_positive ev :
  reported_in_range ev -> positive_confidence (caption_confidence ev).
Proof.
  intros Hr. unfold caption_confidence.
  destruct (ResultEvent.results ev !! ResultEvent.resultIndex ev) as [r|] eqn:Hl;
    [|apply default_confidence_positive].
  unfold reported_in_range in Hr. rewrite Forall_forall in Hr.
  specialize (Hr r (list_elem_of_lookup_2 _ _ _ Hl)).
  destruct (Alternative.confidence (RecognitionResult.first r)) as [c|];
    [|apply default_confidence_positive].
  destruct (number_truthy c) eqn:Ht; [|apply default_confidence_positive].
  destruct Hr as [H0 H1]. split; [by apply truthy_positive|done].
Qed.

Lemma caption_confidence_default ev :
  match reported_confidence ev with
  | Some c => (c =? 0)%float = true
  | None => True
  end ->
  caption_confidence ev = default_confidence.
Proof.
  unfold reported_confidence, caption_confidence.
  destruct (ResultEvent.results ev !! ResultEvent.resultIndex ev) as [r|];
    simpl; [|done].
  destruct (Alternative.confidence (RecognitionResult.first r)) as [c|];
    [|done].
  intros Hz. unfold number_truthy. by rewrite Hz.
Qed.

Lemma caption_confidence_reported ev c :
  reported_confidence ev = Some c -> number_truthy c = true ->
  caption_confidence ev = c.
Proof.
  unfold reported_confidence, caption_confidence.
  destruct (ResultEvent.results ev !! ResultEvent.resultIndex ev) as [r|];
    simpl; [|done].
  intros -> ->. done.
Qed.

Lemma exec_sent_confidence p inputs :
  Forall (sent_confidence inputs) (actions (exec p inputs (mount p))).
Proof.
  induction inputs as [|i inputs IH] using rev_ind.
  - simpl. destruct (mount_actions p) as [->| ->]; repeat constructor.
  - rewrite exec_snoc.
    assert (Hold : Forall (sent_confidence (inputs ++ [i]))
                     (actions (exec p inputs (mount p)))).
    { eapply Forall_impl; [exact IH|]. intros [] Ha; try done.
      destruct Ha as (r & ev & io & Hin & Hc). exists r, ev, io.
      split; [|done]. apply elem_of_app. by left. }
    destruct i as [e|]; simpl.
    + destruct (handle_actions_insert p e (exec p inputs (mount p)))
        as (new & -> & Hnew).
      apply Forall_app. split; [done|].
      eapply Forall_impl; [exact Hnew|]. intros [] Ha; try done.
      destruct (Ha _ eq_refl) as (r & ev & io & -> & _ & _ & Hc & _).
      exists r, ev, io. split; [set_solver|done].
    + destruct (rerender_actions (exec p inputs (mount p)))
        as (new & -> & Hnew).
      apply Forall_app. split; [done|].
      eapply Forall_impl; [exact Hnew|]. intros [] Ha; try done.
      by destruct (Ha payload).
Qed.

Lemma exec_recorded_confidence p inputs :
  Forall (recorded_confidence inputs) (captions (exec p inputs (mount p))).
Proof.
  induction inputs as [|i inputs IH] using rev_ind.
  - simpl. rewrite mount_captions. constructor.
  - rewrite exec_snoc.
    assert (Hold : Forall (recorded_confidence (inputs ++ [i]))
                     (captions (exec p inputs (mount p)))).
    { eapply Forall_impl; [exact IH|].
      intros row (r & ev & io & Hin & Hc). exists r, ev, io.
      split; [|done]. apply elem_of_app. by left. }
    destruct i as [e|]; simpl; [|by rewrite rerender_captions].
    destruct (handle_captions p e (exec p inputs (mount p)))
      as [->|(r & ev & io & id & ts & sd & cf & -> & _ & Hc & ->)]; [done|].
    apply Forall_app. split; [done|]. repeat constructor.
    exists r, ev, io. split; [set_solver|exact Hc].
Qed.

(** C9, as the code and the table have it.  Every insert request carries
    [confidence || 0.9] of a result event: the reported confidence of
    [results[resultIndex][0]] when it is a number other than 0 and NaN,
    and 0.9 when none is reported or 0 is; so the confidence sent is never
    0, and it is above 0 and at most 1 when the reports are between 0 and
    1.  A row records what the column [numeric(3,2)] makes of the
    confidence sent: 0.90 for the default, and a value from 0.00 to 1.00,
    0.00 included, when the reports are between 0 and 1. *)
Theorem persisted_confidence_recorded (p : Props.t) (inputs : list input) :
  let s := exec p inputs (mount p) in
  Forall (sent_confidence inputs) (actions s)
  ∧ Forall (recorded_confidence inputs) (captions s)
  ∧ (∀ ev, number_truthy (caption_confidence ev) = true)
  ∧ (∀ ev, match reported_confidence ev with
           | Some c => (c =? 0)%float = true
           | None => True
           end -> caption_confidence ev = default_confidence)
  ∧ (∀ ev c, reported_confidence ev = Some c -> number_truthy c = true ->
             caption_confidence ev = c)
  ∧ (∀ ev, reported_in_range ev -> positive_confidence (caption_confidence ev))
  ∧ (∀ x, positive_confidence x ->
          ∃ n, numeric_3_2 x = Recorded n ∧ 0 <= n <= 100)
  ∧ numeric_3_2 default_confidence = Recorded 90
  ∧ ((∀ r ev io, Ev (recognizer r (result_event ev io)) ∈ inputs ->
                 reported_in_range ev) ->
     Forall recorded_in_range (captions s)).
Proof.
  cbv zeta.
  split; [apply exec_sent_confidence|].
  split; [apply exec_recorded_confidence|].
  split; [apply caption_confidence_truthy|].
  split; [apply caption_confidence_default|].
  split; [apply caption_confidence_reported|].
  split; [apply caption_confidence_positive|].
  split; [apply numeric_3_2_in_range|].
  split; [reflexivity|].
  intros Hrange.
  eapply Forall_impl; [apply exec_recorded_confidence|].
  intros row (r & ev & io & Hin & Hc).
  destruct (numeric_3_2_in_range (caption_confidence ev)) as (n & Hn & Hb).
  { apply caption_confidence_positive. by apply (Hrange r ev io). }
  rewrite Hn in Hc. exists n.
  destruct (CaptionRow.confidence row) as [n'|]; simplify_eq/=. done.
Qed.

(** C9 at a final segment reported with confidence 0: the request carries
    0.9 and the row records 0.90. *)
Lemma persisted_confidence_recorded_witness :
  captions (exec anchor_a zero_confidence_inputs (mount anchor_a))
    = [CaptionRow.mk 1 (lit "room-1") (lit "user-9") (Some side_a)
         (lit "hello world") (Some 90) 5000 true]
  ∧ Forall recorded_in_range
           (captions (exec anchor_a zero_confidence_inputs (mount anchor_a))).
Proof.
  split; [reflexivity|].
  refine (proj2 (proj2 (proj2 (proj2 (proj2 (proj2 (proj2 (proj2
    (persisted_confidence_recorded anchor_a zero_confidence_inputs))))))))
    _).
  intros r ev io Hin. apply list_elem_of_singleton in Hin.
  injection Hin as _ -> _.
  repeat constructor.
Defined.

(** C9, counterexample.  A final segment reported with confidence 2^-10,
    which lies between 0 and 1: the request carries it as reported and the
    row records 0.00.  And the hook does not clamp: segments reported with
    1.5 and -0.25 are recorded as 1.50 and -0.25. *)
Lemma persisted_confidence_can_be_zero :
  (∀ r ev io, Ev (recognizer r (result_event ev io)) ∈ faint_inputs ->
              reported_in_range ev)
  ∧ map CaptionRow.confidence
        (captions (exec anchor_a faint_inputs (mount anchor_a)))
    = [Some 0]
  ∧ ¬ confidence_always_positive
  ∧ map CaptionRow.confidence
        (captions (exec anchor_a out_of_range_inputs (mount anchor_a)))
    = [Some 150; Some (-25)].
Proof.
  assert (Hrange : ∀ r ev io,
            Ev (recognizer r (result_event ev io)) ∈ faint_inputs ->
            reported_in_range ev).
  { intros r ev io Hin. apply list_elem_of_singleton in Hin.
    injection Hin as _ -> _. repeat constructor. }
  split; [exact Hrange|].
  split; [reflexivity|].
  split; [|reflexivity].
  intros Hclaim. specialize (Hclaim anchor_a faint_inputs Hrange).
  apply Forall_cons in Hclaim as [Hrow _].
  vm_compute in Hrow. destruct Hrow as [Hrow _]. discriminate Hrow.
Qed.

(** ** Restart supervision *)

Lemma exec_app p i1 i2 s : exec p (i1 ++ i2) s = exec p i2 (exec p i1 s).
Proof. unfold exec. by rewrite foldl_app. Qed.

Lemma exec_rendered p events s : exec p (rendered events) s = run p events s.
Proof.
  revert s. induction events as [|e events IH]; intros s; [done|].
  simpl. apply IH.
Qed.

(** C3, counterexample.  After the permission-denied error the session
    shows the error message, and the end event that follows schedules a
    restart timer with the base delay (React's cleanup then cancels it
    because [autoRestartCount] changed). *)
Lemma permission_denied_restart_scheduled :
  let s1 := exec anchor_a denied_history (mount anchor_a) in
  let s2 := exec anchor_a denied_then_ended s1 in
  error s1 = denied_message
  ∧ later_actions s1 s2
    = [SetTimeout 2 1000 (restart_timer false); ClearTimeout 2;
       RecognitionStop 0]
  ∧ autoRestartCount s2 = 1%nat
  ∧ ¬ permission_denied_is_fatal.
Proof.
  cbv zeta. split; [reflexivity|]. split; [reflexivity|].
  split; [reflexivity|].
  intros Hclaim.
  specialize (Hclaim anchor_a (rendered [timer_fires 1]) 0%nat
                ([Render] ++ denied_then_ended)).
  cbv zeta in Hclaim. vm_compute in Hclaim.
  apply Forall_cons in Hclaim as [Hbad _]. discriminate.
Qed.

(** C3, as the code has it.  The error handler, on permission denied, sets
    [isListening] to false and the access-denied message and does nothing
    else: no timer, no change of the attempt count.  There is no fatal
    state: the end event that follows schedules a restart timer under the
    same guard as after any other end, and nothing otherwise. *)
Theorem permission_denied_then_end (p : Props.t) (r : nat)
    (c : Recognition.t) (s : Session.t) :
  recognitions s !! r = Some c ->
  let s1 := handle p (recognizer r (error_event not_allowed)) s in
  let s2 := handle p (recognizer r end_event) s1 in
  isListening s1 = false
  ∧ error s1 = denied_message
  ∧ actions s1 = actions s
  ∧ timers s1 = timers s
  ∧ autoRestartCount s1 = autoRestartCount s
  ∧ actions s2
    = actions s
      ++ (if restart_guard p c
          then [SetTimeout (nextTimerId s) (restart_delay c)
                  (restart_timer (Recognition.isListening c))]
          else [])
  ∧ autoRestartCount s2
    = if restart_guard p c then S (autoRestartCount s) else autoRestartCount s.
Proof.
  intros Hr. cbv zeta.
  assert (Hs1 : handle p (recognizer r (error_event not_allowed)) s
                = set_error denied_message (set_isListening false s)).
  { unfold handle. by rewrite Hr. }
  rewrite Hs1.
  assert (Hs2 : handle p (recognizer r end_event)
                  (set_error denied_message (set_isListening false s))
                = onend p c (mark_ended r
                    (set_error denied_message (set_isListening false s)))).
  { unfold handle. session_proj. by rewrite Hr. }
  rewrite Hs2. unfold onend.
  destruct (restart_guard p c); repeat split; session_crush; try done.
  all: by rewrite app_nil_r.
Qed.

(** C3 at the freshly mounted hook of an anchor. *)
Lemma permission_denied_then_end_witness :
  actions (handle anchor_a (recognizer 0 end_event)
             (handle anchor_a (recognizer 0 (error_event not_allowed))
                     (mount anchor_a)))
  = [SetTimeout 1 1000 autostart_timer; SetTimeout 2 1000 (restart_timer false)].
Proof.
  exact (proj1 (proj2 (proj2 (proj2 (proj2 (proj2
    (permission_denied_then_end anchor_a 0 (Recognition.mk 0 false false)
       (mount anchor_a) eq_refl))))))).
Defined.

(** C4, counterexample.  After the stop, the end event schedules a restart
    timer like any other end.  With a render after every callback the
    cleanup cancels that timer, but the start-on-mount timer that was
    pending at the stop still starts recognition; without the intervening
    render the restart timer itself calls [start()]; and a retry timer that
    is pending at the stop is not cancelled by it and starts recognition
    five seconds later. *)
Lemma restart_after_stop :
  let s1 := exec anchor_a started_then_stopped (mount anchor_a) in
  let t1 := exec anchor_a autostarted_then_stopped (mount anchor_a) in
  let u1 := exec anchor_a (retry_armed ++ rendered [call_stopListening])
                 (mount anchor_a) in
  later_actions s1 (exec anchor_a ended_then_autostart s1)
    = [SetTimeout 2 1000 (restart_timer false); ClearTimeout 2;
       RecognitionStop 0; RecognitionStart 1 (by_autostart 1) true;
       ClearTimeout 2; RecognitionStop 1]
  ∧ later_actions t1 (exec anchor_a ended_then_restart t1)
    = [SetTimeout 2 1000 (restart_timer false);
       RecognitionStart 0 (by_restart 2) true]
  ∧ timers u1 !! 3%nat = Some (retry_timer false)
  ∧ later_actions u1 (exec anchor_a ended_then_retry u1)
    = [SetTimeout 4 1000 (restart_timer false); ClearTimeout 4;
       RecognitionStop 0; RecognitionStart 1 (by_retry 3) true]
  ∧ ¬ stop_is_final.
Proof.
  cbv zeta. do 4 (split; [reflexivity|]).
  intros Hclaim.
  destruct (Hclaim anchor_a
              (rendered [call_startListening; recognizer 0 start_event])
              ([Render] ++ ended_then_autostart)) as [_ Hbad].
  vm_compute in Hbad.
  repeat (apply Forall_cons in Hbad as [? Hbad]; try discriminate).
Qed.

(** What [onend] does when its guard holds, and when it does not. *)
Lemma onend_scheduled p c s :
  restart_guard p c = true ->
  timers (onend p c s)
    = <[nextTimerId s := restart_timer (Recognition.isListening c)]> (timers s)
  ∧ actions (onend p c s)
    = actions s ++ [SetTimeout (nextTimerId s) (restart_delay c)
                      (restart_timer (Recognition.isListening c))]
  ∧ autoRestartTimeoutRef (onend p c s) = Some (nextTimerId s)
  ∧ autoRestartCount (onend p c s) = S (autoRestartCount s)
  ∧ isListening (onend p c s) = false
  ∧ nextTimerId (onend p c s) = S (nextTimerId s)
  ∧ recognitions (onend p c s) = recognitions s
  ∧ captions (onend p c s) = captions s.
Proof. intros Hg. unfold onend. rewrite Hg. repeat split; by session_crush. Qed.

Lemma onend_idle p c s :
  restart_guard p c = false -> onend p c s = set_isListening false s.
Proof. intros Hg. unfold onend. by rewrite Hg. Qed.

Lemma later_actions_app s s' new :
  actions s' = actions s ++ new -> later_actions s s' = new.
Proof. unfold later_actions. intros ->. by rewrite drop_app_length. Qed.

(** What [stopListening] does, projection by projection. *)
Lemma stopListening_effect s :
  ∃ new,
    actions (stopListening s) = actions s ++ new ∧ Forall quiet new
    ∧ timers (stopListening s)
      = match autoRestartTimeoutRef s with
        | Some id => delete id (timers s)
        | None => timers s
        end
    ∧ autoRestartCount (stopListening s) = autoRestartCount s
    ∧ isListening (stopListening s) = isListening s
    ∧ recognitions (stopListening s) = recognitions s
    ∧ nextTimerId (stopListening s) = nextTimerId s.
Proof.
  session_crush;
    (eexists; split;
       [first [symmetry; apply app_nil_r
              | rewrite <- ?app_assoc; reflexivity]|]);
    repeat split; repeat constructor; done.
Qed.

(** The host calls of [stopListening], in order. *)
Lemma stopListening_actions s :
  actions (stopListening s)
  = actions s
    ++ match autoRestartTimeoutRef s with
       | Some id => [ClearTimeout id]
       | None => []
       end
    ++ (if renderedIsListening s then
          match recognitions s !! current s with
          | Some _ => [RecognitionStop (current s)]
          | None => []
          end
        else []).
Proof.
  unfold stopListening, recognition_stop, current, clearTimeout, log,
    set_timers.
  destruct (autoRestartTimeoutRef s) as [id|]; simpl;
    (destruct (renderedIsListening s); simpl;
       [destruct (recognitions s !! pred (length (recognitions s)))|]);
    simpl; rewrite ?app_nil_r, <- ?app_assoc; reflexivity.
Qed.

(** C4, as the code has it.  [stopListening] cancels the timer that
    [autoRestartTimeoutRef] names and no other, and calls [stop()] on the
    current recognition object exactly when the consumer last saw the
    session listening; these are its only host calls, so it neither
    schedules nor starts anything itself; the attempt count and the
    recognition objects are unchanged, and no stopped state is recorded. *)
Theorem stopListening_cancels_tracked_timer (p : Props.t) (s : Session.t) :
  let s1 := handle p call_stopListening s in
  (∀ id, autoRestartTimeoutRef s = Some id -> timers s1 !! id = None)
  ∧ (∀ id, autoRestartTimeoutRef s ≠ Some id ->
           timers s1 !! id = timers s !! id)
  ∧ Forall quiet (later_actions s s1)
  ∧ autoRestartCount s1 = autoRestartCount s
  ∧ isListening s1 = isListening s
  ∧ recognitions s1 = recognitions s
  ∧ later_actions s s1
    = match autoRestartTimeoutRef s with
      | Some id => [ClearTimeout id]
      | None => []
      end
      ++ (if renderedIsListening s then
            match recognitions s !! current s with
            | Some _ => [RecognitionStop (current s)]
            | None => []
            end
          else [])
  ∧ (renderedIsListening s = true -> is_Some (recognitions s !! current s) ->
     RecognitionStop (current s) ∈ later_actions s s1)
  ∧ (renderedIsListening s = false ->
     ∀ r, RecognitionStop r ∉ later_actions s s1).
Proof.
  cbv zeta.
  destruct (stopListening_effect s)
    as (new & Hact & Hquiet & Htim & Hcount & Hlis & Hrec & Hnext).
  change (handle p call_stopListening s) with (stopListening s).
  split.
  { intros id Hid. rewrite Htim, Hid. apply lookup_delete_eq. }
  split.
  { intros id Hid. rewrite Htim.
    destruct (autoRestartTimeoutRef s) as [id'|]; [|done].
    apply lookup_delete_ne. congruence. }
  split; [by rewrite (later_actions_app _ _ _ Hact)|].
  do 3 (split; [done|]).
  rewrite (later_actions_app _ _ _ (stopListening_actions s)).
  split; [reflexivity|]. split.
  - intros -> [c ->]. apply elem_of_app. right. by left.
  - intros -> r Hin. rewrite app_nil_r in Hin.
    destruct (autoRestartTimeoutRef s); [|by inversion Hin].
    apply list_elem_of_singleton in Hin. discriminate.
Qed.

(** C4 at a listening session whose restart timer is pending. *)
Lemma stopListening_cancels_tracked_timer_witness :
  let s := exec anchor_a
             (rendered [timer_fires 1; recognizer 0 start_event]
                ++ [Ev (recognizer 0 end_event)])
             (mount anchor_a) in
  timers s !! 2%nat = Some (restart_timer false)
  ∧ later_actions s (handle anchor_a call_stopListening s)
    = [ClearTimeout 2; RecognitionStop 0]
  ∧ timers (handle anchor_a call_stopListening s) !! 2%nat = None.
Proof.
  cbv zeta. split; [reflexivity|]. split; [reflexivity|].
  exact (proj1 (stopListening_cancels_tracked_timer anchor_a
                  (exec anchor_a
                     (rendered [timer_fires 1; recognizer 0 start_event]
                        ++ [Ev (recognizer 0 end_event)])
                     (mount anchor_a)))
               2%nat eq_refl).
Defined.

(** The end event that follows a stop is handled like any other: under the
    usual guard it schedules a restart timer, which is then pending and
    named by the handle. *)
Lemma end_after_stop_schedules_restart p s r c :
  recognitions s !! r = Some c -> restart_guard p c = true ->
  let s1 := handle p call_stopListening s in
  let s2 := handle p (recognizer r end_event) s1 in
  timers s2 !! nextTimerId s
    = Some (restart_timer (Recognition.isListening c))
  ∧ autoRestartTimeoutRef s2 = Some (nextTimerId s)
  ∧ later_actions s1 s2
    = [SetTimeout (nextTimerId s) (restart_delay c)
         (restart_timer (Recognition.isListening c))].
Proof.
  intros Hr Hg. cbv zeta.
  destruct (stopListening_effect s)
    as (new & Hact & Hquiet & Htim & Hcount & Hlis & Hrec & Hnext).
  change (handle p call_stopListening s) with (stopListening s).
  assert (Hend : handle p (recognizer r end_event) (stopListening s)
                 = onend p c (mark_ended r (stopListening s))).
  { unfold handle. by rewrite Hrec, Hr. }
  rewrite Hend.
  destruct (onend_scheduled p c (mark_ended r (stopListening s)) Hg)
    as (Ht & Ha & Href & _).
  change (nextTimerId (mark_ended r (stopListening s)))
    with (nextTimerId (stopListening s)) in Ht, Ha, Href.
  rewrite Hnext in Ht, Ha, Href.
  split; [rewrite Ht; apply lookup_insert_eq|].
  split; [done|].
  by apply later_actions_app.
Qed.

Example end_after_stop :
  let s := exec anchor_a (rendered [timer_fires 1; recognizer 0 start_event])
                (mount anchor_a) in
  later_actions s (handle anchor_a call_stopListening s) = [RecognitionStop 0]
  ∧ later_actions (handle anchor_a call_stopListening s)
      (handle anchor_a (recognizer 0 end_event)
              (handle anchor_a call_stopListening s))
    = [SetTimeout 2 1000 (restart_timer false)].
Proof. split; reflexivity. Qed.

(** C5, counterexample.  The second end schedules restart timer 4 while the
    retry timer 3 is still pending: nothing cancelled it, and nothing can,
    because no handle names it.  After the next render it is the retry
    timer that starts recognition. *)
Lemma two_restart_timers_pending :
  let s := exec anchor_a batched_restart (mount anchor_a) in
  timers s !! 3%nat = Some (retry_timer false)
  ∧ timers s !! 4%nat = Some (restart_timer false)
  ∧ later_actions s (exec anchor_a [Render; Ev (timer_fires 3)] s)
    = [ClearTimeout 4; RecognitionStop 0; RecognitionStart 1 (by_retry 3) true]
  ∧ ¬ single_restart_timer.
Proof.
  cbv zeta. split; [reflexivity|]. split; [reflexivity|].
  split; [reflexivity|].
  intros Hclaim.
  specialize (Hclaim anchor_a batched_restart 3%nat 4%nat
                (retry_timer false) (restart_timer false)
                eq_refl eq_refl eq_refl eq_refl).
  discriminate.
Qed.

Lemma no_restart_autostart m id t :
  no_restart_pending m -> m !! id = Some t -> t = autostart_timer.
Proof.
  intros Hm Hid. specialize (Hm id t Hid). by destruct t.
Qed.

Lemma no_restart_delete m id :
  no_restart_pending m -> no_restart_pending (delete id m).
Proof. apply map_Forall_delete. Qed.

Lemma same_closures_refl l : same_closures l l.
Proof. split; [done|]. intros r c Hr. by exists c. Qed.

Lemma same_closures_alter l r started :
  same_closures l
    (alter (λ o, Recognition.mk (Recognition.autoRestartCount o)
                   (Recognition.isListening o) started) r l).
Proof.
  split; [by rewrite length_alter|].
  intros r' c' Hr'.
  destruct (decide (r = r')) as [->|Hne].
  - rewrite list_lookup_alter_eq in Hr'.
    destruct (l !! r') as [c|]; simplify_eq/=. by exists c.
  - rewrite list_lookup_alter_ne in Hr' by done. by exists c'.
Qed.

Lemma same_closures_insert l r o started :
  l !! r = Some o ->
  same_closures l
    (<[r := Recognition.mk (Recognition.autoRestartCount o)
              (Recognition.isListening o) started]> l).
Proof.
  intros Ho. split; [by rewrite length_insert|].
  intros r' c' Hr'.
  destruct (decide (r = r')) as [->|Hne].
  - rewrite list_lookup_insert_eq in Hr' by (by eapply lookup_lt_Some).
    simplify_eq. by exists o.
  - rewrite list_lookup_insert_ne in Hr' by done. by exists c'.
Qed.

Lemma handle_same_closures p e s :
  same_closures (recognitions s) (recognitions (handle p e s)).
Proof.
  destruct e as [r [| |kind|ev io]|id| | |]; session_crush;
    try apply same_closures_refl;
    try apply same_closures_alter;
    try (by apply same_closures_insert).
Qed.

(** What one callback can do to the pending timers of a rendered state:
    leave no restart timer pending, or (an end event whose guard holds) add
    exactly one, name it in [autoRestartTimeoutRef] and raise the count. *)
Lemma handle_timers p e s :
  rendered_state s ->
  (no_restart_pending (timers (handle p e s)))
  ∨ (∃ m l, no_restart_pending m
            ∧ timers (handle p e s)
              = <[nextTimerId s := restart_timer l]> m
            ∧ autoRestartTimeoutRef (handle p e s) = Some (nextTimerId s)
            ∧ autoRestartCount (handle p e s) = S (autoRestartCount s)).
Proof.
  intros [Hno Hsync].
  destruct e as [r [| |kind|ev io]|id| | |].
  all: try (left; session_crush; try done; by apply no_restart_delete).
  - (* end *)
    unfold handle. destruct (recognitions s !! r) as [c|] eqn:Hr; [|by left].
    destruct (restart_guard p c) eqn:Hg.
    + right. destruct (onend_scheduled p c (mark_ended r s) Hg)
        as (Ht & _ & Href & Hc & _).
      exists (timers s), (Recognition.isListening c). by repeat split.
    + left. by rewrite onend_idle.
  - (* a timer fires *)
    left. unfold handle.
    destruct (timers s !! id) as [t|] eqn:Hid; [|done].
    rewrite (no_restart_autostart _ _ _ Hno Hid).
    session_crush; by apply no_restart_delete.
Qed.

(** The cleanup and the new run of the effect, projection by projection. *)
Lemma effect_rerun s :
  recognitions (setup (cleanup s))
    = recognitions s ++ [Recognition.mk (autoRestartCount s) (isListening s) false]
  ∧ autoRestartCount (setup (cleanup s)) = autoRestartCount s
  ∧ timers (setup (cleanup s))
    = match autoRestartTimeoutRef s with
      | Some id => delete id (timers s)
      | None => timers s
      end
  ∧ autoRestartTimeoutRef (setup (cleanup s)) = autoRestartTimeoutRef s
  ∧ captions (setup (cleanup s)) = captions s.
Proof.
  unfold cleanup. destruct (autoRestartTimeoutRef s) eqn:Href;
    unfold recognition_stop; session_crush; by rewrite ?Href.
Qed.

Lemma current_snoc (l : list Recognition.t) x : (l ++ [x]) !! pred (length (l ++ [x])) = Some x.
Proof.
  apply list_lookup_middle. rewrite length_app. simpl. lia.
Qed.
Lemma run_effect_in_sync s :
  recognitions s ≠ [] -> in_sync (run_effect s).
Proof.
  intros Hne. unfold run_effect.
  destruct (recognitions s !! current s) as [c|] eqn:Hc.
  - case_decide as Heq.
    + by exists c.
    + destruct (effect_rerun s) as (Hrec & Hcount & _).
      exists (Recognition.mk (autoRestartCount s) (isListening s) false).
      unfold current. rewrite Hrec, Hcount. split; [apply current_snoc|done].
  - exfalso. unfold current in Hc. apply lookup_ge_None in Hc.
    destruct (recognitions s); simpl in *; [done|lia].
Qed.

Lemma rerender_in_sync s :
  recognitions s ≠ [] -> in_sync (rerender s).
Proof. intros Hne. unfold rerender. by apply run_effect_in_sync. Qed.

Lemma run_effect_timers s c :
  recognitions s !! current s = Some c ->
  timers (run_effect s)
  = if decide (autoRestartCount s = Recognition.autoRestartCount c)
    then timers s
    else match autoRestartTimeoutRef s with
         | Some id => delete id (timers s)
         | None => timers s
         end.
Proof.
  intros Hc. unfold run_effect. rewrite Hc. case_decide; [done|].
  by destruct (effect_rerun s) as (_ & _ & -> & _).
Qed.

(** A render leaves the timers alone, unless the attempt count has changed:
    then the cleanup clears the timer the handle names. *)
Lemma rerender_timers s c :
  recognitions s !! current s = Some c ->
  timers (rerender s)
  = if decide (autoRestartCount s = Recognition.autoRestartCount c)
    then timers s
    else match autoRestartTimeoutRef s with
         | Some id => delete id (timers s)
         | None => timers s
         end.
Proof.
  intros Hc.
  exact (run_effect_timers (set_renderedIsListening (isListening s) s) c Hc).
Qed.

(** Mounting, and a render after each callback, keep the state rendered. *)
Lemma mount_rendered p : rendered_state (mount p).
Proof.
  unfold mount. case_match.
  - split.
    + session_crush. apply map_Forall_insert_2; [done|]. apply map_Forall_empty.
    + eexists. split; reflexivity.
  - split; [apply map_Forall_empty|]. eexists. split; reflexivity.
Qed.

Lemma step_rendered p e s : rendered_state s -> rendered_state (step p s e).
Proof.
  intros Hs. unfold step.
  pose proof Hs as [Hno (c & Hc & Hsync)].
  destruct (handle_same_closures p e s) as [Hlen Hclo].
  set (h := handle p e s) in *.
  assert (Hcur : ∃ c', recognitions h !! current h = Some c'
                       ∧ Recognition.autoRestartCount c' = autoRestartCount s).
  { assert (Hlt : (current h < length (recognitions h))%nat).
    { unfold current. rewrite Hlen. apply lookup_lt_Some in Hc.
      unfold current in Hc. lia. }
    apply lookup_lt_is_Some in Hlt as [c' Hc'].
    exists c'. split; [done|].
    destruct (Hclo _ _ Hc') as (c0 & Hc0 & Hcnt & _).
    unfold current in Hc0, Hc. rewrite Hlen, Hc in Hc0. simplify_eq. congruence. }
  destruct Hcur as (c' & Hc' & Hcnt).
  assert (Hne : recognitions h ≠ []).
  { intros Hnil. by rewrite Hnil in Hc'. }
  split; [|by apply rerender_in_sync].
  rewrite (rerender_timers h c' Hc').
  destruct (handle_timers p e s Hs) as [Hh|(m & l & Hm & Ht & Href & Hcount)];
    fold h in Hh || fold h in Ht, Href, Hcount.
  - case_decide; [done|].
    destruct (autoRestartTimeoutRef h); [by apply no_restart_delete|done].
  - (* the count has changed, so the effect re-runs and clears the timer *)
    case_decide as Heq; [lia|].
    rewrite Href, Ht, delete_insert_eq. by apply no_restart_delete.
Qed.

Lemma run_rendered p events : rendered_state (run p events (mount p)).
Proof.
  induction events as [|e events IH] using rev_ind.
  - apply mount_rendered.
  - unfold run. rewrite foldl_app. simpl. by apply step_rendered.
Qed.

(** C5, as the code has it.  Scheduling a restart cancels nothing: [onend]
    overwrites the single handle [autoRestartTimeoutRef], and the
    five-second retry is never recorded in it.  What cancels the restart
    timer is [stopListening] and the cleanup of the effect, which React runs
    whenever [autoRestartCount] changes, that is, after every end event that
    scheduled one.  So when React renders after every callback, no restart
    timer is pending after a render, and inside a callback at most one is,
    the one the handle names. *)
Theorem one_restart_timer_when_rendered (p : Props.t) (events : list event)
    (e : event) :
  let s := run p events (mount p) in
  no_restart_pending (timers s)
  ∧ at_most_one_restart (timers (handle p e s))
  ∧ (∀ id t, timers (handle p e s) !! id = Some t ->
             is_restart_timer t = true ->
             autoRestartTimeoutRef (handle p e s) = Some id)
  ∧ no_restart_pending (timers (step p s e)).
Proof.
  cbv zeta.
  pose proof (run_rendered p events) as Hs.
  split; [apply Hs|].
  assert (Hone : ∀ id t, timers (handle p e (run p events (mount p))) !! id
                         = Some t ->
                 is_restart_timer t = true ->
                 autoRestartTimeoutRef (handle p e (run p events (mount p)))
                   = Some id
                 ∧ id = nextTimerId (run p events (mount p))).
  { intros id t Hid Ht.
    destruct (handle_timers p e _ Hs) as [Hno|(m & l & Hm & Htim & Href & _)].
    - specialize (Hno id t Hid). simpl in Hno. congruence.
    - rewrite Htim in Hid.
      destruct (decide (nextTimerId (run p events (mount p)) = id)) as [<-|Hne];
        [done|].
      rewrite lookup_insert_ne in Hid by done.
      specialize (Hm id t Hid). simpl in Hm. congruence. }
  split; [|split].
  - intros i j ti tj Hi Hj Hti Htj.
    destruct (Hone i ti Hi Hti) as [_ ->].
    by destruct (Hone j tj Hj Htj) as [_ ->].
  - intros id t Hid Ht. by destruct (Hone id t Hid Ht).
  - by destruct (step_rendered p e _ Hs).
Qed.




Lemma rerender_quiet s :
  autoRestartCount (rerender s) = autoRestartCount s
  ∧ ∃ new, actions (rerender s) = actions s ++ new ∧ Forall quiet new.
Proof.
  session_crush; (split; [done|]);
    (eexists; split;
       [first [symmetry; apply app_nil_r
              | rewrite <- ?app_assoc; reflexivity]|]);
    repeat constructor.
Qed.





(** The consumer restarts the session after each end.  Every recognizer
    event comes from a started object, [startListening] has reset the count
    to zero each time, and still the restarts after the first are scheduled
    with 1500 milliseconds: the object that ends is the one made when the
    count was 1. *)
Example restarts_after_consumer_start :
  let s := exec anchor_a restarted_by_consumer (mount anchor_a) in
  real_recognizer anchor_a restarted_by_consumer (mount anchor_a) = true
  ∧ restart_delays (actions s) = [1000; 1500; 1500; 1500]
  ∧ omap (λ a, match a with
               | RecognitionStart r origin accepted => Some (r, origin)
               | _ => None
               end) (actions s)
    = [(0%nat, by_autostart 1); (1%nat, by_caller); (3%nat, by_caller);
       (5%nat, by_caller)].
Proof. repeat split; vm_compute; reflexivity. Qed.

(** In the history of five silences, where each restart timer fires before
    React renders, every recognizer event comes from a started object
    too. *)
Example five_no_speech_real :
  real_recognizer anchor_a five_no_speech (mount anchor_a) = true.
Proof. vm_compute. reflexivity. Qed.

(** C5 at an end event of a listening session. *)
Lemma one_restart_timer_when_rendered_witness :
  let s := run anchor_a [timer_fires 1; recognizer 0 start_event]
               (mount anchor_a) in
  timers (handle anchor_a (recognizer 0 end_event) s) !! 2%nat
    = Some (restart_timer false)
  ∧ autoRestartTimeoutRef (handle anchor_a (recognizer 0 end_event) s)
    = Some 2%nat
  ∧ timers (step anchor_a s (recognizer 0 end_event)) !! 2%nat = None.
Proof.
  cbv zeta. split; [reflexivity|]. split; [|reflexivity].
  exact (proj1 (proj2 (proj2
    (one_restart_timer_when_rendered anchor_a
       [timer_fires 1; recognizer 0 start_event] (recognizer 0 end_event))))
    2%nat (restart_timer false) eq_refl eq_refl).
Defined.

Example onresult_mixed_event :
  let s := handle anchor_a
             (recognizer 0 (result_event mixed_event (stored 1 5000)))
             (mount anchor_a) in
  transcript s = lit " we should act now because"
  ∧ map CaptionRow.content (captions s) = [lit "we should act now"]
  ∧ map CaptionRow.is_final (captions s) = [true]
  ∧ finalTranscriptRef s = lit " we should act now ".
Proof. repeat split; vm_compute; reflexivity. Qed.

(** An interim-only event stores nothing. *)
Example onresult_interim_only :
  let ev := ResultEvent.mk 0
              [RecognitionResult.mk (Alternative.mk (lit "becau") None) false] in
  let s := handle anchor_a (recognizer 0 (result_event ev (stored 1 5000)))
             (mount anchor_a) in
  transcript s = lit "becau" ∧ captions s = []
  ∧ actions s = actions (mount anchor_a).
Proof. repeat split; vm_compute; reflexivity. Qed.

(** ** Restart timers and the cleanup of the effect *)

(** With a render after every callback, the cleanup of the effect cancels
    every restart timer before it can fire: recognition is only ever
    started by the consumer or by the start-on-mount timer. *)
Lemma handle_no_restart_start p e s :
  rendered_state s ->
  ∃ new, actions (handle p e s) = actions s ++ new
         ∧ Forall (λ a, restart_start a = false) new.
Proof.
  intros [Hno _].
  destruct e as [r [| |kind|ev io]|id| | |].
  5: { unfold handle. destruct (timers s !! id) as [t|] eqn:Hid.
       - rewrite (no_restart_autostart _ _ _ Hno Hid).
         session_crush;
           (eexists; split;
              [first [symmetry; apply app_nil_r
                     | rewrite <- ?app_assoc; reflexivity]|]);
           by repeat constructor.
       - exists []. by rewrite app_nil_r. }
  all: session_crush;
    (eexists; split;
       [first [symmetry; apply app_nil_r
              | rewrite <- ?app_assoc; reflexivity]|]);
    by repeat constructor.
Qed.

(** X25.  With a render after every callback the cleanup of the effect
    cancels every restart timer before it fires: no history of callbacks,
    each followed by a render, contains a start made by a restart or retry
    timer. *)
Lemma rendered_restarts_never_fire p events :
  Forall (λ a, restart_start a = false) (actions (run p events (mount p))).
Proof.
  induction events as [|e events IH] using rev_ind.
  - simpl. destruct (mount_actions p) as [-> | ->]; by repeat constructor.
  - assert (Hrun : run p (events ++ [e]) (mount p)
                   = rerender (handle p e (run p events (mount p)))).
    { unfold run. by rewrite foldl_app. }
    rewrite Hrun.
    destruct (handle_no_restart_start p e _ (run_rendered p events))
      as (new & Hact & Hnew).
    destruct (rerender_quiet (handle p e (run p events (mount p))))
      as (_ & new' & Hact' & Hquiet).
    rewrite Hact', Hact.
    repeat (apply Forall_app; split); [done|done|].
    eapply Forall_impl; [exact Hquiet|]. by intros [].
Qed.
(** ** Key points *)

Lemma js_sort_ext {A} (f g : A -> A -> Z) (l : list A) :
  (∀ x y, f x y = g x y) -> js_sort f l = js_sort g l.
Proof.
  intros E. induction l as [|x l IH]; simpl; [done|].
  rewrite IH. generalize (js_sort g l) as r.
  induction r as [|y r IHr]; simpl; [done|].
  rewrite E, IHr. done.
Qed.

Lemma get_own_assign_eq k v o : get_own k (assign k v o) = Some v.
Proof.
  induction o as [|[k' u] o IH]; simpl.
  - by rewrite decide_True.
  - destruct (decide (k' = k)) as [->|Hne]; simpl.
    + by rewrite decide_True.
    + by rewrite decide_False.
Qed.

Lemma get_own_assign_ne k k' v o :
  k ≠ k' -> get_own k' (assign k v o) = get_own k' o.
Proof.
  intros Hne. induction o as [|[k0 u] o IH]; simpl.
  - by rewrite decide_False.
  - destruct (decide (k0 = k)) as [->|Hne0]; simpl.
    + by rewrite !decide_False.
    + rewrite IH. done.
Qed.

Lemma keys_assign k v o :
  map fst (assign k v o)
  = match get_own k o with
    | Some _ => map fst o
    | None => map fst o ++ [k]
    end.
Proof.
  induction o as [|[k0 u] o IH]; simpl; [done|].
  destruct (decide (k0 = k)) as [->|Hne]; simpl; [done|].
  rewrite IH. by destruct (get_own k o).
Qed.

Lemma get_own_None k o : get_own k o = None <-> k ∉ map fst o.
Proof.
  induction o as [|[k0 u] o IH]; simpl.
  - split; [intros _; apply not_elem_of_nil|done].
  - rewrite not_elem_of_cons. destruct (decide (k0 = k)) as [->|Hne].
    + split; [done|]. intros [? _]. done.
    + rewrite IH. split; [intros ?; split; [congruence|done]|tauto].
Qed.

Lemma get_own_elem k v o :
  NoDup (map fst o) -> (k, v) ∈ o <-> get_own k o = Some v.
Proof.
  induction o as [|[k0 u] o IH]; simpl; intros Hnd.
  - split; [intros H; by apply elem_of_nil in H|done].
  - apply NoDup_cons in Hnd as [Hk0 Hnd]. rewrite elem_of_cons.
    destruct (decide (k0 = k)) as [->|Hne].
    + split.
      * intros [E|Hin]; [congruence|].
        destruct Hk0. apply list_elem_of_fmap. by exists (k, v).
      * intros E. left. congruence.
    + rewrite <- (IH Hnd). split; [|tauto].
      intros [E|?]; [congruence|done].
Qed.

Lemma count_word_spec ws :
  NoDup (map fst (foldl count_word [] ws))
  ∧ ∀ w, get_own w (foldl count_word [] ws) = tally_of ws w.
Proof.
  induction ws as [|x ws [IHnd IH]] using rev_ind.
  - split; [constructor|]. intros w. unfold tally_of. simpl.
    by case_decide.
  - rewrite foldl_app. simpl. set (o := foldl count_word [] ws) in *.
    assert (Hfilter : ∀ w, length (filter (λ w0, w0 = w) (ws ++ [x]))
              = (length (filter (λ w0, w0 = w) ws)
                 + if decide (x = w) then 1 else 0)%nat).
    { intros w. rewrite filter_app, length_app, filter_cons, filter_nil.
      by case_decide. }
    unfold count_word. destruct (decide (x = lit "__proto__")) as [Hp|Hp].
    { split; [done|]. intros w. rewrite IH. unfold tally_of.
      case_decide; [done|]. rewrite Hfilter.
      destruct (decide (x = w)); [congruence|]. by rewrite Nat.add_0_r. }
    split.
    + rewrite keys_assign. destruct (get_own x o) eqn:E; [done|].
      apply NoDup_app. split; [done|]. split; [|apply NoDup_singleton].
      intros k Hk Hx. apply list_elem_of_singleton in Hx as ->.
      by apply get_own_None in E.
    + intros w. destruct (decide (x = w)) as [<-|Hne].
      * rewrite get_own_assign_eq, IH. unfold tally_of.
        destruct (decide (x = lit "__proto__")); [done|].
        rewrite Hfilter. destruct (decide (x = x)); [|done].
        destruct (length (filter (λ w0, w0 = x) ws)) as [|m]; simpl.
        -- done.
        -- rewrite Nat.add_1_r. by case_decide.
      * rewrite get_own_assign_ne by done. rewrite IH. unfold tally_of.
        case_decide; [done|]. rewrite Hfilter.
        destruct (decide (x = w)); [done|]. by rewrite Nat.add_0_r.
Qed.

Lemma tally_of_Some ws w v :
  tally_of ws w = Some v ->
  w ∈ ws ∧ w ≠ lit "__proto__"
  ∧ v = (if decide (w ∈ object_prototype_methods) then Text
         else Count (length (filter (λ x, x = w) ws))).
Proof.
  unfold tally_of. case_decide; [done|].
  destruct (filter (λ x, x = w) ws) as [|y l] eqn:E; simpl; [done|].
  intros [= <-]. split; [|done].
  assert (Hy : y ∈ filter (λ x, x = w) ws) by (rewrite E; left).
  apply list_elem_of_filter in Hy as [-> ?]. done.
Qed.

Lemma tally_of_elem ws w :
  w ∈ ws -> w ≠ lit "__proto__" -> is_Some (tally_of ws w).
Proof.
  intros Hin Hp. unfold tally_of. rewrite decide_False by done.
  destruct (filter (λ x, x = w) ws) as [|y l] eqn:E; simpl; [|eauto].
  assert (Hw : w ∈ filter (λ x, x = w) ws)
    by (apply list_elem_of_filter; done).
  rewrite E in Hw. by apply elem_of_nil in Hw.
Qed.

Lemma keyWords_lookup data w :
  get_own w (KeyPoints.keyWords data) = tally_of (KeyPoints.words data) w.
Proof. apply count_word_spec. Qed.

Lemma keyWords_NoDup data : NoDup (map fst (KeyPoints.keyWords data)).
Proof. apply count_word_spec. Qed.

Lemma entries_perm o : entries o ≡ₚ o.
Proof.
  unfold entries. rewrite js_sort_perm. apply filter_app_complement.
Qed.

(** *** The words that are counted *)

Lemma toLowerCase_no_capital s :
  Forall (λ c, ¬ (65 <= c <= 90)%N) (toLowerCase s).
Proof.
  unfold toLowerCase. induction s as [|c s IH]; [constructor|].
  change (Forall (λ c, ¬ (65 <= c <= 90)%N) (lower_unit c ++ (s ≫= lower_unit))).
  apply Forall_app. split; [|done]. unfold lower_unit.
  destruct ((65 <=? c) && (c <=? 90))%N eqn:E1.
  { apply andb_true_iff in E1 as [?%N.leb_le ?%N.leb_le].
    repeat constructor. lia. }
  destruct (c =? 304)%N eqn:E2; [repeat constructor; lia|].
  destruct (c =? 8490)%N eqn:E3; [repeat constructor; lia|].
  repeat constructor. intros [?%N.leb_le ?%N.leb_le].
  apply andb_false_iff in E1 as [E|E]; congruence.
Qed.

Lemma split_from_pieces (Q : N -> Prop) b piece s :
  Forall Q piece ->
  Forall (λ c, is_word_char c = true -> Q c) s ->
  Forall (Forall Q) (split_from b piece s).
Proof.
  revert b piece. induction s as [|c s IH]; intros b piece Hp Hs; simpl.
  - by repeat constructor.
  - apply Forall_cons in Hs as [Hc Hs].
    destruct (is_word_char c) eqn:E.
    + apply IH; [|done]. apply Forall_app. split; [done|].
      constructor; [by apply Hc|constructor].
    + destruct b; [by apply IH|]. constructor; [done|]. by apply IH.
Qed.

Lemma lower_word_char c :
  is_word_char c = true -> ¬ (65 <= c <= 90)%N ->
  is_lower_word_char c = true.
Proof.
  unfold is_word_char, is_lower_word_char. intros H Hn.
  repeat (apply orb_true_iff in H as [H|H]);
    rewrite ?andb_true_iff, ?N.leb_le, ?N.eqb_eq in H.
  - apply orb_true_iff; left. apply orb_true_iff; left.
    rewrite andb_true_iff, !N.leb_le. done.
  - lia.
  - apply orb_true_iff; left. apply orb_true_iff; right. by apply N.eqb_eq.
  - apply orb_true_iff; right. rewrite andb_true_iff, !N.leb_le. done.
Qed.

Lemma words_shape data :
  Forall (λ w, (4 < length w)%nat
               ∧ Forall (λ c, is_lower_word_char c = true) w)
         (KeyPoints.words data).
Proof.
  unfold KeyPoints.words. apply Forall_forall. intros w Hw.
  apply list_elem_of_filter in Hw as [Hlen Hw]. split; [done|].
  clear Hlen. revert w Hw. apply Forall_forall. apply split_from_pieces; [constructor|].
  eapply Forall_impl; [apply toLowerCase_no_capital|].
  intros c Hc Hword. by apply lower_word_char.
Qed.

(** Of the inherited methods only [constructor] is written in lower case. *)
Lemma lower_case_method w :
  w ∈ object_prototype_methods ->
  Forall (λ c, is_lower_word_char c = true) w ->
  w = lit "constructor".
Proof.
  intros Hin Hall.
  assert (E : forallb is_lower_word_char w = true).
  { apply forallb_forall. intros c Hc. rewrite Forall_forall in Hall.
    apply Hall. by apply list_elem_of_In. }
  revert w Hin E Hall. unfold object_prototype_methods.
  intros w Hin. simpl in Hin.
  repeat (apply elem_of_cons in Hin as [->|Hin]);
    [..|by apply elem_of_nil in Hin];
    intros E _; first [reflexivity | vm_compute in E; discriminate].
Qed.

Lemma constructor_is_method : lit "constructor" ∈ object_prototype_methods.
Proof. unfold object_prototype_methods. simpl. left. Qed.

Lemma keyWords_entry data k v :
  (k, v) ∈ KeyPoints.keyWords data ->
  k ∈ KeyPoints.words data ∧ k ≠ lit "__proto__"
  ∧ (v = Text ∧ k = lit "constructor"
     ∨ v = Count (occurrences k data) ∧ k ≠ lit "constructor").
Proof.
  intros Hin. apply get_own_elem in Hin; [|apply keyWords_NoDup].
  rewrite keyWords_lookup in Hin.
  apply tally_of_Some in Hin as (Hw & Hp & ->).
  split; [done|]. split; [done|]. case_decide as Hm.
  - left. split; [done|]. apply lower_case_method; [done|].
    pose proof (words_shape data) as Hs. rewrite Forall_forall in Hs.
    by apply Hs.
  - right. split; [done|]. intros ->. apply Hm, constructor_is_method.
Qed.

Lemma keyWords_has data w :
  w ∈ KeyPoints.words data -> w ≠ lit "__proto__" ->
  ∃ v, (w, v) ∈ KeyPoints.keyWords data.
Proof.
  intros Hw Hp. destruct (tally_of_elem _ _ Hw Hp) as [v Hv].
  exists v. apply get_own_elem; [apply keyWords_NoDup|].
  by rewrite keyWords_lookup.
Qed.

Lemma sort_by_count_Some l r :
  sort_by_count l = Some r ->
  r ≡ₚ l
  ∧ (Forall (λ e, is_count e = true) l
     ∧ r = js_sort (cmp_of (λ e, - count_of e)) l
     ∨ (length l <= 1)%nat ∧ r = l).
Proof.
  unfold sort_by_count. destruct (forallb is_count l) eqn:E.
  - intros [= <-].
    assert (Hs : js_sort by_count l = js_sort (cmp_of (λ e, - count_of e)) l).
    { apply js_sort_ext. intros x y. unfold by_count, cmp_of. lia. }
    rewrite Hs. split; [apply js_sort_perm|]. left. split; [|done].
    apply Forall_forall. intros e He. rewrite forallb_forall in E.
    apply E. by apply list_elem_of_In.
  - destruct l as [|x [|y l]]; intros [= <-]; (split; [done|]); right;
      simpl; split; (lia || done).
Qed.

Lemma sort_by_count_None l :
  sort_by_count l = None <->
  (∃ e, e ∈ l ∧ e.2 = Text) ∧ (2 <= length l)%nat.
Proof.
  unfold sort_by_count. destruct (forallb is_count l) eqn:E.
  - split; [done|]. intros [(e & He & Ht) _].
    rewrite forallb_forall in E. apply list_elem_of_In, E in He.
    unfold is_count in He. by rewrite Ht in He.
  - assert (Hex : ∃ e, e ∈ l ∧ e.2 = Text).
    { clear -E. induction l as [|x l IH]; simpl in E; [done|].
      apply andb_false_iff in E as [E|E].
      - exists x. split; [left|]. unfold is_count in E. by destruct (x.2).
      - destruct (IH E) as (e & ? & ?). exists e. split; [by right|done]. }
    destruct l as [|x [|y l]]; simpl.
    + split; [done|]. intros [_ ?]. lia.
    + split; [done|]. intros [_ ?]. lia.
    + split; [|done]. intros _. split; [done|lia].
Qed.

Lemma sorted_map_elem {A B} (R1 : relation A) (R2 : relation B)
    (f : A -> B) (l : list A) :
  (∀ x y, x ∈ l -> y ∈ l -> R1 x y -> R2 (f x) (f y)) ->
  StronglySorted R1 l -> StronglySorted R2 (map f l).
Proof.
  intros H Hs. induction Hs as [|x l Hs IH Hall]; simpl; [constructor|].
  constructor.
  - apply IH. intros a b Ha Hb. apply H; by right.
  - apply Forall_forall. intros b Hb. apply list_elem_of_fmap in Hb as (y & -> & Hy).
    apply H; [left|by right|]. rewrite Forall_forall in Hall. by apply Hall.
Qed.

Lemma sublist_sorted {A} (R : relation A) (l1 l2 : list A) :
  l1 `sublist_of` l2 -> StronglySorted R l2 -> StronglySorted R l1.
Proof.
  induction 1 as [|x l1 l2 Hsub IH|x l1 l2 Hsub IH]; intros Hs; [done| |].
  - apply StronglySorted_inv in Hs as [Hs Hall]. constructor; [by apply IH|].
    apply Forall_forall. intros y Hy. rewrite Forall_forall in Hall.
    apply Hall. by eapply elem_of_sublist.
  - apply StronglySorted_inv in Hs as [Hs _]. by apply IH.
Qed.

Lemma extractKeyPoints_Some data l :
  extractKeyPoints data = Some l ->
  ∃ ranked,
    sort_by_count (entries (KeyPoints.keyWords data)) = Some ranked
    ∧ l = map fst (take 10 ranked).
Proof.
  unfold extractKeyPoints, slice0.
  destruct (sort_by_count (entries (KeyPoints.keyWords data)))
    as [ranked|]; [|done].
  cbn [mbind option_bind]. intros H. exists ranked. split; [done|].
  congruence.
Qed.


(** X1.  The accumulator of [extractKeyPoints] holds, for every word, the
    number of times the word occurs among the counted words (the lower-cased
    words of more than four characters of all chat messages and captions);
    it has no entry for a word that does not occur and none for
    [__proto__], and for [constructor] it holds a string, not a number. *)
Theorem keyWords_counts_occurrences (data : SummaryData.t)
    (word : jsstring) :
  get_own word (KeyPoints.keyWords data)
  = if decide (word = lit "__proto__") then None
    else match occurrences word data with
         | O => None
         | S n => Some (if decide (word = lit "constructor") then Text
                        else Count (S n))
         end.
Proof.
  rewrite keyWords_lookup. unfold tally_of, occurrences.
  case_decide as Hp; [done|].
  destruct (length (filter (λ w, w = word) (KeyPoints.words data)))
    as [|n] eqn:E; [done|].
  f_equal. destruct (decide (word ∈ object_prototype_methods)) as [Hm|Hm].
  - assert (Hin : is_Some (tally_of (KeyPoints.words data) word)).
    { unfold tally_of. rewrite decide_False by done. rewrite E. eauto. }
    destruct Hin as [v Hv]. apply tally_of_Some in Hv as (Hw & _ & _).
    pose proof (words_shape data) as Hs. rewrite Forall_forall in Hs.
    rewrite decide_True; [done|].
    apply lower_case_method; [done|]. by apply Hs.
  - rewrite decide_False; [done|]. intros ->. apply Hm, constructor_is_method.
Qed.

(** X2.  When [extractKeyPoints] returns, it returns at most ten words, all
    different, each longer than four characters, written in lower-case
    letters, digits and underscores only, each a word of the debate's text
    and none of them [__proto__]. *)
Theorem extractKeyPoints_shape (data : SummaryData.t) (l : list jsstring) :
  extractKeyPoints data = Some l ->
  (length l <= 10)%nat ∧ NoDup l
  ∧ Forall (λ w, (4 < length w)%nat
                 ∧ Forall (λ c, is_lower_word_char c = true) w
                 ∧ w ∈ KeyPoints.words data ∧ w ≠ lit "__proto__") l.
Proof.
  intros (ranked & E & ->)%extractKeyPoints_Some.
  apply sort_by_count_Some in E as [Hperm _].
  rewrite entries_perm in Hperm.
  split; [rewrite length_map, length_take; lia|].
  assert (Hsub : map fst (take 10 ranked) `sublist_of` map fst ranked).
  { apply fmap_sublist, sublist_take. }
  split.
  - eapply sublist_NoDup; [|exact Hsub]. rewrite Hperm. apply keyWords_NoDup.
  - apply Forall_forall. intros w Hw.
    eapply elem_of_sublist in Hw; [|exact Hsub].
    apply list_elem_of_fmap in Hw as ([k v] & -> & Hin). simpl.
    rewrite Hperm in Hin. apply keyWords_entry in Hin as (Hk & Hp & _).
    pose proof (words_shape data) as Hs. rewrite Forall_forall in Hs.
    destruct (Hs k Hk). done.
Qed.

(** X2 on a debate that mentions taxes, schools, the figure 10000 and
    [__proto__]. *)
Lemma extractKeyPoints_shape_witness :
  extractKeyPoints keyword_data
    = Some [lit "schools"; lit "10000"; lit "taxes"; lit "roads"; lit "teachers"]
  ∧ NoDup [lit "schools"; lit "10000"; lit "taxes"; lit "roads"; lit "teachers"].
Proof.
  split; [reflexivity|].
  exact (proj1 (proj2 (extractKeyPoints_shape keyword_data _ eq_refl))).
Defined.

Lemma ranked_counts data ranked :
  sort_by_count (entries (KeyPoints.keyWords data)) = Some ranked ->
  ranked ≡ₚ KeyPoints.keyWords data
  ∧ StronglySorted
      (λ w w', (occurrences w' data <= occurrences w data)%nat)
      (map fst ranked)
  ∧ ∀ l1 l2 x y, ranked = l1 ++ l2 -> x ∈ l1 -> y ∈ l2 ->
      (occurrences y.1 data <= occurrences x.1 data)%nat.
Proof.
  intros E. apply sort_by_count_Some in E as [Hperm Hcase].
  rewrite entries_perm in Hperm. split; [done|].
  destruct Hcase as [[Hall ->]|[Hlen ->]].
  - assert (Hcount : ∀ e, e ∈ js_sort (cmp_of (λ e, - count_of e))
                                 (entries (KeyPoints.keyWords data)) ->
                          count_of e = Z.of_nat (occurrences e.1 data)).
    { intros [k v] He. rewrite Forall_forall in Hall.
      rewrite js_sort_perm in He. pose proof (Hall _ He) as Hc.
      rewrite entries_perm in He.
      apply keyWords_entry in He as (_ & _ & [[-> _]|[-> _]]); [done|].
      reflexivity. }
    pose proof (js_sort_sorted (λ e, - count_of e)
                  (entries (KeyPoints.keyWords data))) as Hs.
    split.
    + eapply sorted_map_elem; [|exact Hs].
      intros x y Hx Hy Hle. unfold le_of in Hle.
      rewrite (Hcount x Hx), (Hcount y Hy) in Hle. lia.
    + intros l1 l2 x y El Hx Hy. rewrite El in Hs, Hcount.
      pose proof (StronglySorted_app_1_elem_of _ _ _ _ _ Hs Hx Hy) as Hle.
      unfold le_of in Hle.
      rewrite (Hcount x), (Hcount y) in Hle; [lia|..];
        apply elem_of_app; auto.
  - destruct (entries (KeyPoints.keyWords data)) as [|e [|e' l]];
      simpl in Hlen; [| |lia].
    + split; [constructor|]. intros [|] ? ? ? ? Hx; [by apply elem_of_nil in Hx|done].
    + split; [repeat constructor|].
      intros [|a [|b l1]] l2 x y El Hx Hy; [by apply elem_of_nil in Hx| |done].
      injection El as <- <-. by apply elem_of_nil in Hy.
Qed.

(** X3.  The key points are ranked by frequency: no word is listed after a
    word that occurs less often; and a counted word (other than
    [__proto__]) is left out only when ten words are listed, each of which
    occurs at least as often. *)
Theorem extractKeyPoints_ranked (data : SummaryData.t) (l : list jsstring) :
  extractKeyPoints data = Some l ->
  StronglySorted (λ w w', (occurrences w' data <= occurrences w data)%nat) l
  ∧ ∀ w', w' ∈ KeyPoints.words data -> w' ≠ lit "__proto__" -> w' ∉ l ->
      length l = 10%nat
      ∧ Forall (λ w, (occurrences w' data <= occurrences w data)%nat) l.
Proof.
  intros (ranked & E & ->)%extractKeyPoints_Some.
  apply ranked_counts in E as (Hperm & Hs & Hsplit).
  split.
  - eapply sublist_sorted; [|exact Hs]. apply fmap_sublist, sublist_take.
  - intros w' Hw Hp Hout.
    destruct (keyWords_has _ _ Hw Hp) as [v Hv].
    rewrite <- Hperm, <- (take_drop 10 ranked) in Hv.
    apply elem_of_app in Hv as [Hv|Hv].
    { destruct Hout. apply list_elem_of_fmap. by exists (w', v). }
    split.
    + rewrite length_map, length_take.
      assert (drop 10 ranked ≠ []) as Hne by (intros E; rewrite E in Hv; by apply elem_of_nil in Hv).
      assert (10 < length ranked)%nat; [|lia].
      destruct (decide (10 < length ranked)%nat); [done|].
      destruct Hne. apply drop_ge. lia.
    + apply Forall_forall. intros w Hin.
      apply list_elem_of_fmap in Hin as (x & -> & Hx).
      apply (Hsplit (take 10 ranked) (drop 10 ranked) x (w', v));
        [by rewrite take_drop|done|done].
Qed.

(** X3 on the same debate: [schools] occurs three times, [10000] and
   [taxes] twice, [roads] and [teachers] once. *)
Lemma extractKeyPoints_ranked_witness :
  StronglySorted
    (λ w w', (occurrences w' keyword_data <= occurrences w keyword_data)%nat)
    [lit "schools"; lit "10000"; lit "taxes"; lit "roads"; lit "teachers"].
Proof.
  exact (proj1 (extractKeyPoints_ranked keyword_data _ eq_refl)).
Defined.

(** X4.  [extractKeyPoints] has no defined result exactly when the debate
    uses the word [constructor] and at least one other counted word (other
    than [__proto__]): the count of [constructor] is then a string, the
    comparator of the sort yields [NaN], and the order of the key points is
    left to the JavaScript engine.  In every other case the result is the
    one computed here. *)
Theorem extractKeyPoints_order_unspecified (data : SummaryData.t) :
  extractKeyPoints data = None <->
  lit "constructor" ∈ KeyPoints.words data
  ∧ ∃ w, w ∈ KeyPoints.words data
         ∧ w ≠ lit "constructor" ∧ w ≠ lit "__proto__".
Proof.
  assert (Hnone : extractKeyPoints data = None
                  <-> sort_by_count (entries (KeyPoints.keyWords data)) = None).
  { unfold extractKeyPoints.
    by destruct (sort_by_count (entries (KeyPoints.keyWords data))). }
  rewrite Hnone, sort_by_count_None.
  pose proof (entries_perm (KeyPoints.keyWords data)) as Hperm.
  rewrite (Permutation_length Hperm).
  pose proof (keyWords_NoDup data) as Hnd.
  split.
  - intros [([k v] & Hin & Ht) Hlen]. simpl in Ht. subst v.
    rewrite Hperm in Hin.
    pose proof (keyWords_entry _ _ _ Hin) as (Hk & _ & [[_ ->]|[? _]]); [|done].
    split; [done|].
    destruct (KeyPoints.keyWords data) as [|[k1 v1] [|[k2 v2] o]] eqn:Eo;
      simpl in Hlen; [lia|lia|].
    simpl in Hnd. apply NoDup_cons in Hnd as [Hne _].
    apply not_elem_of_cons in Hne as [Hne _].
    assert (H1 : (k1, v1) ∈ KeyPoints.keyWords data) by (rewrite Eo; left).
    assert (H2 : (k2, v2) ∈ KeyPoints.keyWords data)
      by (rewrite Eo; right; left).
    apply keyWords_entry in H1 as (? & ? & _).
    apply keyWords_entry in H2 as (? & ? & _).
    destruct (decide (k1 = lit "constructor")) as [->|].
    + exists k2. split; [done|]. split; [congruence|done].
    + exists k1. done.
  - intros [Hc (w & Hw & Hwc & Hwp)].
    destruct (keyWords_has _ _ Hc) as [v Hv]; [done|].
    destruct (keyWords_has _ _ Hw Hwp) as [v' Hv'].
    pose proof (keyWords_entry _ _ _ Hv) as (_ & _ & [[-> _]|[_ ?]]); [|done].
    split.
    + exists (lit "constructor", Text). split; [by rewrite Hperm|done].
    + destruct (KeyPoints.keyWords data) as [|e1 [|e2 o]]; simpl; [| |lia].
      * by apply elem_of_nil in Hv.
      * apply list_elem_of_singleton in Hv, Hv'. congruence.
Qed.

(** The entries of the accumulator for a debate about constructors: the
    value of [constructor] is a string, and the sort has no defined
    result. *)
Example extractKeyPoints_constructor :
  entries (KeyPoints.keyWords constructor_data)
    = [(lit "constructor", Text); (lit "allocates", Count 1);
       (lit "memory", Count 1)]
  ∧ extractKeyPoints constructor_data = None.
Proof. split; reflexivity. Qed.

(** ** The summary aggregator *)

Lemma or_else_nonempty a b : b ≠ [] -> or_else a b ≠ [].
Proof. unfold or_else. by destruct a. Qed.

(** With a key, [generateDebateSummary] returns a non-empty text: the
    service's when the call succeeded, the fallback otherwise. *)
Lemma generateDebateSummary_returns topic messages votes captions sideALabel
    sideBLabel key outcome :
  truthy (default [] key) = true ->
  ∃ summary,
    generateDebateSummary topic messages votes captions sideALabel sideBLabel
      key outcome = Returns summary
    ∧ summary ≠ []
    ∧ summary
      = match try_block outcome with
        | inl generatedText => generatedText
        | inr error =>
            fallbackSummary topic messages votes captions sideALabel
              sideBLabel error
        end.
Proof.
  intros Hkey. unfold generateDebateSummary. rewrite Hkey. simpl.
  destruct (try_block outcome) as [text|e] eqn:E; eexists; (split; [done|]);
    (split; [|done]).
  - destruct outcome as [| | |[text'|]]; simpl in E; try done.
    destruct text' as [|c text']; simpl in E; [done|]. by injection E as <-.
  - apply fallbackSummary_nonempty.
Qed.

Lemma generateDebateSummary_no_key topic messages votes captions sideALabel
    sideBLabel key outcome :
  truthy (default [] key) = false ->
  generateDebateSummary topic messages votes captions sideALabel sideBLabel
    key outcome
  = Throws (lit "Gemini API key not configured. Please add VITE_GEMINI_API_KEY to your environment variables.").
Proof. intros Hkey. unfold generateDebateSummary. by rewrite Hkey. Qed.

Lemma fetch_summaryData_error b m :
  first_query_error b = Some m -> fetch_summaryData b = Thrown m.
Proof.
  unfold first_query_error, fetch_summaryData.
  destruct b as [[] [] [] [] [] ? ? ? ?]; simpl; congruence.
Qed.

Lemma fetch_summaryData_ok b :
  first_query_error b = None -> ∃ data, fetch_summaryData b = Ok data.
Proof.
  unfold first_query_error, fetch_summaryData.
  destruct b as [[] [] [] [] [] ? ? ? ?]; simpl; try done; eauto.
Qed.

(** X5.  [generateSummary] sends a row to the store exactly when it returns
    a summary: either it returns a non-empty summary, leaves the error state
    empty and has sent one insert, of type ['final'], for the requested room
    and carrying the returned text and the counts of the fetched data; or it
    returns [null], sets a non-empty error message and has sent nothing.
    In both cases [loading] ends up false. *)
Theorem generateSummary_returns_what_it_stores (roomId : jsstring)
    (b : Backend.t) :
  let r := generateSummary roomId b in
  SummaryRun.loading r = false
  ∧ match SummaryRun.returned r with
    | Some summary =>
        summary ≠ [] ∧ SummaryRun.error r = []
        ∧ ∃ data, fetch_summaryData b = Ok data
            ∧ SummaryRun.inserts r = [summary_row roomId data summary]
            ∧ SummaryInsert.room_id (summary_row roomId data summary) = roomId
            ∧ SummaryInsert.summary_type (summary_row roomId data summary)
              = lit "final"
            ∧ SummaryInsert.content (summary_row roomId data summary)
              = summary
    | None => SummaryRun.error r ≠ [] ∧ SummaryRun.inserts r = []
    end.
Proof.
  cbv zeta. unfold generateSummary, generateSummary_try.
  destruct (fetch_summaryData b) as [data|m] eqn:Ef; simpl.
  - destruct (truthy (default [] (Backend.GEMINI_API_KEY b))) eqn:Hkey.
    + destruct (generateDebateSummary_returns
                  (SummaryData.topic data) (SummaryData.messages data)
                  (SummaryData.votes data) (SummaryData.captions data)
                  (SummaryData.sideALabel data) (SummaryData.sideBLabel data)
                  (Backend.GEMINI_API_KEY b) (Backend.service b) Hkey)
        as (summary & -> & Hne & _).
      simpl. destruct (Backend.save b); simpl; (split; [done|]);
        (split; [done|]); (split; [done|]); exists data; done.
    + rewrite generateDebateSummary_no_key by done. simpl.
      split; [done|]. split; [|done]. by apply or_else_nonempty.
  - split; [done|]. split; [|done]. by apply or_else_nonempty.
Qed.

(** X6.  When a query reports an error, [generateSummary] returns [null]
    and sends nothing to the store; the error state is the message of the
    first failing query in the order room, messages, votes, captions,
    participants, or ['Failed to generate summary'] when that message is
    empty.  Neither the key nor the generative service matters. *)
Theorem generateSummary_query_error (roomId : jsstring) (b : Backend.t)
    (m : jsstring) :
  first_query_error b = Some m ->
  generateSummary roomId b
  = SummaryRun.mk None false (or_else m (lit "Failed to generate summary")) [].
Proof.
  intros Hm. unfold generateSummary, generateSummary_try.
  by rewrite (fetch_summaryData_error b m Hm).
Qed.

(** X6 when neither the votes nor the captions can be read: the votes are
    asked for first. *)
Lemma generateSummary_query_error_witness :
  generateSummary (lit "room-1") failing_backend
  = SummaryRun.mk None false (lit "permission denied for table votes") [].
Proof.
  exact (generateSummary_query_error (lit "room-1") failing_backend
           (lit "permission denied for table votes") eq_refl).
Defined.

(** X7.  Without the API key, [generateSummary] returns [null] although
    every query succeeded: the error state is the message thrown by
    [generateDebateSummary], no fallback summary is made and nothing is sent
    to the store. *)
Theorem generateSummary_without_key (roomId : jsstring) (b : Backend.t) :
  first_query_error b = None ->
  key_configured b = false ->
  generateSummary roomId b
  = SummaryRun.mk None false
      (lit "Gemini API key not configured. Please add VITE_GEMINI_API_KEY to your environment variables.")
      [].
Proof.
  intros Hq Hkey. unfold generateSummary, generateSummary_try.
  destruct (fetch_summaryData_ok b Hq) as [data ->].
  by rewrite generateDebateSummary_no_key.
Qed.

(** X7 on an empty room. *)
Lemma generateSummary_without_key_witness :
  SummaryRun.returned (generateSummary (lit "room-1") keyless_backend) = None.
Proof.
  rewrite (generateSummary_without_key (lit "room-1") keyless_backend
             eq_refl eq_refl).
  reflexivity.
Defined.

(** X8.  With the key configured and every query answered, a failed call
    of the generative service does not fail the request: [generateSummary]
    returns the fallback summary made from the fetched data, and that text
    is what it sends to the store, whether or not the store accepts it. *)
Theorem generateSummary_stores_fallback (roomId : jsstring) (b : Backend.t) :
  first_query_error b = None ->
  key_configured b = true ->
  call_failed (Backend.service b) ->
  ∃ data,
    fetch_summaryData b = Ok data
    ∧ let summary :=
        fallbackSummary (SummaryData.topic data) (SummaryData.messages data)
          (SummaryData.votes data) (SummaryData.captions data)
          (SummaryData.sideALabel data) (SummaryData.sideBLabel data)
          (failure_of (Backend.service b)) in
      generateSummary roomId b
      = SummaryRun.mk (Some summary) false [] [summary_row roomId data summary].
Proof.
  intros Hq Hkey Hfail. destruct (fetch_summaryData_ok b Hq) as [data Hd].
  exists data. split; [done|]. cbv zeta.
  unfold generateSummary, generateSummary_try. rewrite Hd.
  destruct (generateDebateSummary_returns
              (SummaryData.topic data) (SummaryData.messages data)
              (SummaryData.votes data) (SummaryData.captions data)
              (SummaryData.sideALabel data) (SummaryData.sideBLabel data)
              (Backend.GEMINI_API_KEY b) (Backend.service b) Hkey)
    as (summary & -> & _ & ->).
  rewrite (try_block_failed _ Hfail). simpl. by destruct (Backend.save b).
Qed.

(** X8 on an empty room, with the service unreachable and the store
    refusing the row. *)
Lemma generateSummary_stores_fallback_witness :
  ∃ summary,
    SummaryRun.returned (generateSummary (lit "room-1") offline_backend)
    = Some summary.
Proof.
  destruct (generateSummary_stores_fallback (lit "room-1") offline_backend
              eq_refl eq_refl I) as (data & _ & ->).
  eexists. reflexivity.
Defined.

(** X9.  The recorded duration is the whole number of minutes nearest to
    the time elapsed between the start and the end of the debate (half a
    minute counts as a full one).  The start is [started_at], or
    [created_at] for a room that has no [started_at]; the end is
    [ended_at], and the request time only for a room that has not ended. *)
Theorem duration_nearest_minute (room : Room.t) (now : Z) :
  let elapsed := endTime room now - startTime room in
  60000 * duration room now - 30000 <= elapsed
  ∧ elapsed < 60000 * duration room now + 30000
  ∧ (0 <= elapsed -> 0 <= duration room now)
  ∧ (∀ ended, Room.ended_at room = Some ended ->
       ∀ now', duration room now' = duration room now)
  ∧ (Room.ended_at room = None ->
       elapsed = now - default (Room.created_at room) (Room.started_at room)).
Proof.
  cbv zeta. unfold duration.
  pose proof (Z.div_mod (endTime room now - startTime room + 30000) 60000
                ltac:(lia)) as Hdm.
  pose proof (Z.mod_pos_bound (endTime room now - startTime room + 30000)
                60000 ltac:(lia)) as Hb.
  split; [lia|]. split; [lia|]. split.
  - intros Hpos. apply Z.div_pos; lia.
  - split.
    + intros ended He now'. unfold endTime. by rewrite He.
    + intros He. unfold endTime, startTime. by rewrite He.
Qed.

(** X10.  The vote results count every vote row at most once: the rows
    voting for side A, the rows voting for side B and the rows naming
    neither side add up to the rows fetched; when the query resolves with
    no data both counts are zero. *)
Theorem count_votes_partition (votes : option (list Vote.t)) :
  (N.to_nat (count_votes side_a votes) + N.to_nat (count_votes side_b votes)
   + length (filter (λ v, Vote.voted_side v = None) (default [] votes))
   = length (default [] votes))%nat
  ∧ (votes = None ->
     count_votes side_a votes = 0%N ∧ count_votes side_b votes = 0%N).
Proof.
  split; [|by intros ->].
  unfold count_votes. rewrite !Nat2N.id.
  induction (default [] votes) as [|[[[]|]] l IH]; [done|..];
    rewrite !filter_cons; simpl; repeat case_decide; try done; simpl; lia.
Qed.

(** ** The sides of the merged transcript *)


(** X12.  With the API key configured [generateDebateSummary] never throws
    and never returns an empty text: when the service answers with a
    non-empty text it returns exactly that text, in every other case the
    fallback summary. *)
Theorem generateDebateSummary_total_with_key (topic : jsstring)
    (messages : list Message.t) (votes : Votes.t) (captions : list Caption.t)
    (sideALabel sideBLabel : jsstring) (key : option jsstring)
    (outcome : service_outcome) :
  truthy (default [] key) = true ->
  ∃ summary,
    generateDebateSummary topic messages votes captions sideALabel sideBLabel
      key outcome = Returns summary
    ∧ summary ≠ []
    ∧ (∀ text, outcome = response_ok (Some text) -> text ≠ [] ->
         summary = text)
    ∧ (call_failed outcome ->
         summary = fallbackSummary topic messages votes captions sideALabel
                     sideBLabel (failure_of outcome)).
Proof.
  intros Hkey.
  destruct (generateDebateSummary_returns topic messages votes captions
              sideALabel sideBLabel key outcome Hkey)
    as (summary & Hgen & Hne & Hsum).
  exists summary. split; [done|]. split; [done|]. split.
  - intros text -> Htext. rewrite Hsum. simpl. by destruct text.
  - intros Hfail. by rewrite Hsum, (try_block_failed _ Hfail).
Qed.

(** X12 on a reply that carries a text. *)
Lemma generateDebateSummary_total_with_key_witness :
  generateDebateSummary (lit "Cats") scenario_messages (Votes.mk 3 1)
    scenario_captions (lit "For") (lit "Against") (Some (lit "secret"))
    (response_ok (Some (lit "A fine debate.")))
  = Returns (lit "A fine debate.").
Proof.
  destruct (generateDebateSummary_total_with_key (lit "Cats")
              scenario_messages (Votes.mk 3 1) scenario_captions (lit "For")
              (lit "Against") (Some (lit "secret"))
              (response_ok (Some (lit "A fine debate."))) eq_refl)
    as (summary & -> & _ & Htext & _).
  f_equal. by apply Htext.
Defined.


(** ** The caption reader and the display *)

Lemma fetchCaptions_query_answer roomId table :
  fetchCaptions_query roomId table
    (js_sort (cmp_of CaptionRow.timestamp) (filter (selected roomId) table)).
Proof. split; [apply js_sort_perm|apply js_sort_sorted]. Qed.

Lemma fetchCaptions_query_elem_of roomId table data r :
  fetchCaptions_query roomId table data ->
  r ∈ data <-> r ∈ table ∧ CaptionRow.room_id r = roomId
               ∧ CaptionRow.is_final r = true.
Proof.
  intros [Hperm _]. rewrite Hperm, list_elem_of_filter.
  unfold selected. tauto.
Qed.

(** X14.  The bulk query of the caption reader has an answer on every
    table.  Every answer holds exactly the final rows of the room in the
    table, each as often as the table holds it, in ascending timestamp
    order.  Two answers on one table are rearrangements of each other with
    the same sequence of timestamps, so they differ at most in the order of
    rows that share a timestamp; when no two selected rows share one, the
    answer is unique. *)
Theorem fetchCaptions_query_spec (roomId : jsstring)
    (table : list CaptionRow.t) :
  (∃ data, fetchCaptions_query roomId table data)
  ∧ (∀ data, fetchCaptions_query roomId table data ->
       StronglySorted (le_of CaptionRow.timestamp) data
       ∧ data ≡ₚ filter (λ r, CaptionRow.room_id r = roomId
                               ∧ CaptionRow.is_final r = true) table
       ∧ (∀ r, r ∈ data <->
               r ∈ table ∧ CaptionRow.room_id r = roomId
               ∧ CaptionRow.is_final r = true))
  ∧ (∀ data1 data2,
       fetchCaptions_query roomId table data1 ->
       fetchCaptions_query roomId table data2 ->
       data1 ≡ₚ data2
       ∧ map CaptionRow.timestamp data1 = map CaptionRow.timestamp data2)
  ∧ ((∀ x y, x ∈ table -> y ∈ table ->
             selected roomId x -> selected roomId y ->
             CaptionRow.timestamp x = CaptionRow.timestamp y -> x = y) ->
     ∀ data1 data2,
       fetchCaptions_query roomId table data1 ->
       fetchCaptions_query roomId table data2 ->
       data1 = data2).
Proof.
  split; [eexists; apply fetchCaptions_query_answer|].
  split.
  { intros data Hq. pose proof Hq as [Hperm Hsorted].
    split; [exact Hsorted|]. split; [exact Hperm|].
    intros r. by apply fetchCaptions_query_elem_of. }
  split.
  - intros data1 data2 [Hp1 Hs1] [Hp2 Hs2].
    assert (Hperm : data1 ≡ₚ data2) by (by rewrite Hp1, Hp2).
    split; [exact Hperm|].
    apply (StronglySorted_unique_strong Z.le).
    + intros; lia.
    + by apply (StronglySorted_fmap _ (le_of CaptionRow.timestamp)).
    + by apply (StronglySorted_fmap _ (le_of CaptionRow.timestamp)).
    + by apply fmap_Permutation.
  - intros Hdistinct data1 data2 [Hp1 Hs1] [Hp2 Hs2].
    apply (StronglySorted_unique_strong (le_of CaptionRow.timestamp));
      [|done|done|by rewrite Hp1, Hp2].
    intros x1 x2 Hx1 Hx2 H12 H21. unfold le_of in H12, H21.
    rewrite Hp1 in Hx1. rewrite Hp2 in Hx2.
    apply list_elem_of_filter in Hx1 as [? ?].
    apply list_elem_of_filter in Hx2 as [? ?].
    apply Hdistinct; [done..|lia].
Qed.

(** Two final rows of the room stored with one timestamp: the store may
    answer with either first. *)
Example fetchCaptions_query_tie :
  fetchCaptions_query (lit "room-1") tied_table tied_table
  ∧ fetchCaptions_query (lit "room-1") tied_table (reverse tied_table)
  ∧ reverse tied_table ≠ tied_table.
Proof.
  split; [split; [vm_compute; reflexivity|]|split; [split|]].
  - repeat constructor; unfold le_of; simpl; lia.
  - vm_compute. apply perm_swap.
  - repeat constructor; unfold le_of; simpl; lia.
  - discriminate.
Qed.

Lemma useCaptions_app roomId events1 events2 :
  useCaptions roomId (events1 ++ events2)
  = foldl (reader_step roomId) (useCaptions roomId events1) events2.
Proof. unfold useCaptions. by rewrite foldl_app. Qed.

Lemma reader_notifications roomId captions events :
  Forall (λ ev, ∀ data, ev ≠ fetch_resolved data) events ->
  foldl (reader_step roomId) captions events
  = captions ++ notified roomId events.
Proof.
  revert captions. induction events as [|ev events IH]; intros captions Hall.
  - simpl. by rewrite app_nil_r.
  - apply Forall_cons in Hall as [Hev Hall]. simpl. rewrite IH by done.
    unfold notified. simpl. destruct ev as [data| |row]; simpl.
    + by destruct (Hev data).
    + done.
    + case_decide; simpl; [|done]. by rewrite <- app_assoc.
Qed.

(** X15.  When the bulk query of the caption reader answers, the view
    becomes the snapshot it returns: rows that notifications appended
    before the answer are replaced with it (a row notified in between is
    kept only if the snapshot holds it), and the rows notified afterwards
    follow the snapshot in arrival order. *)
Theorem useCaptions_snapshot_then_notifications (roomId : jsstring)
    (before after : list reader_event) (data : list CaptionRow.t) :
  Forall (λ ev, ∀ data', ev ≠ fetch_resolved data') after ->
  useCaptions roomId (before ++ [fetch_resolved data] ++ after)
  = data ++ notified roomId after.
Proof.
  intros Hafter. rewrite useCaptions_app. simpl.
  by rewrite reader_notifications.
Qed.

(** X15 when a row is notified before the snapshot of an older table
    arrives: the row is gone from the view. *)
Lemma useCaptions_snapshot_then_notifications_witness :
  fetchCaptions_query (lit "room-1") captions_table captions_answer
  ∧ useCaptions (lit "room-1")
      ([row_inserted (CaptionRow.mk 9 (lit "room-1") (lit "user-9")
                        (Some side_a) (lit "live") (Some 50) 9000 true)]
       ++ [fetch_resolved captions_answer] ++ [fetch_failed])
    = captions_answer.
Proof.
  split.
  { split; [vm_compute; apply perm_swap|].
    repeat constructor; unfold le_of; simpl; lia. }
  rewrite (useCaptions_snapshot_then_notifications (lit "room-1")
             [row_inserted (CaptionRow.mk 9 (lit "room-1") (lit "user-9")
                              (Some side_a) (lit "live") (Some 50) 9000
                              true)]
             [fetch_failed] captions_answer).
  - apply app_nil_r.
  - repeat constructor. intros data'. discriminate.
Defined.


(** ** Who is persisted, and who is restarted *)

Lemma handle_actions_attributed p e s :
  ∃ new, actions (handle p e s) = actions s ++ new
         ∧ Forall (attributed_insert p) new.
Proof.
  destruct e as [r [| |kind|ev io]|id| | |].
  1-3, 5-8: session_crush;
    (eexists; split;
       [first [symmetry; apply app_nil_r | rewrite <- ?app_assoc; reflexivity]|]);
    by repeat constructor.
  unfold handle. destruct (recognitions s !! r) as [c|] eqn:Hr.
  2: { exists []. by rewrite app_nil_r. }
  unfold onresult.
  destruct (Props.participantSide p) as [sd|] eqn:Hside;
    [|exists []; by rewrite app_nil_r].
  destruct (truthy (trim (finalTranscript ev))) eqn:Ht;
    [|exists []; by rewrite app_nil_r].
  destruct (Props.isAnchor p) eqn:Ha; [|exists []; by rewrite app_nil_r].
  eexists. split.
  - cbn [andb]. rewrite insert_caption_actions. reflexivity.
  - by repeat constructor.
Qed.

Lemma handle_captions_attributed p e s :
  ∃ new, captions (handle p e s) = captions s ++ new
         ∧ Forall (attributed_row p) new.
Proof.
  destruct e as [r [| |kind|ev io]|id| | |].
  1-3, 5-8: exists []; rewrite app_nil_r; split; [|constructor];
    session_crush; done.
  unfold handle. destruct (recognitions s !! r) as [c|] eqn:Hr.
  2: { exists []. by rewrite app_nil_r. }
  unfold onresult.
  destruct (Props.participantSide p) as [sd|] eqn:Hside;
    [|exists []; by rewrite app_nil_r].
  destruct (truthy (trim (finalTranscript ev))) eqn:Ht;
    [|exists []; by rewrite app_nil_r].
  destruct (Props.isAnchor p) eqn:Ha; [|exists []; by rewrite app_nil_r].
  cbn [andb]. unfold insert_caption, stored_row.
  cbn [CaptionInsert.confidence].
  destruct io as [id ts| |]; [|exists []; by rewrite app_nil_r..].
  destruct (numeric_3_2 (caption_confidence ev)); simpl.
  - eexists. split; [reflexivity|]. repeat constructor; simpl; eauto.
  - eexists. split; [reflexivity|]. repeat constructor; simpl; eauto.
  - exists []. by rewrite app_nil_r.
Qed.

Lemma exec_actions_attributed p inputs :
  Forall (attributed_insert p) (actions (exec p inputs (mount p))).
Proof.
  induction inputs as [|i inputs IH] using rev_ind.
  - simpl. destruct (mount_actions p) as [->| ->]; by repeat constructor.
  - rewrite exec_snoc. destruct i as [e|]; simpl.
    + destruct (handle_actions_attributed p e (exec p inputs (mount p)))
        as (new & -> & Hnew).
      by apply Forall_app.
    + destruct (rerender_actions (exec p inputs (mount p)))
        as (new & -> & Hnew).
      apply Forall_app. split; [done|].
      eapply Forall_impl; [exact Hnew|]. intros [] Ha; try done.
      by destruct (Ha payload).
Qed.

Lemma exec_captions_attributed p inputs :
  Forall (attributed_row p) (captions (exec p inputs (mount p))).
Proof.
  induction inputs as [|i inputs IH] using rev_ind.
  - simpl. rewrite mount_captions. constructor.
  - rewrite exec_snoc. destruct i as [e|]; simpl.
    + destruct (handle_captions_attributed p e (exec p inputs (mount p)))
        as (rows & -> & Hrows).
      by apply Forall_app.
    + by rewrite rerender_captions.
Qed.

(** X17.  Every caption the hook asks the store to write, and every row
    the store writes for it, names the room, the user and the side the hook
    was given, and is written for an anchor: a listener who is not an
    anchor, or whose side is not known, never persists a caption, whatever
    the recognizer delivers. *)
Theorem persisted_captions_attributed (p : Props.t) (inputs : list input) :
  Forall (attributed_insert p) (actions (exec p inputs (mount p)))
  ∧ Forall (attributed_row p) (captions (exec p inputs (mount p)))
  ∧ (Props.isAnchor p = false ∨ Props.participantSide p = None ->
     captions (exec p inputs (mount p)) = []
     ∧ Forall (λ a, ∀ x, a ≠ Insert x) (actions (exec p inputs (mount p)))).
Proof.
  pose proof (exec_actions_attributed p inputs) as Ha.
  pose proof (exec_captions_attributed p inputs) as Hc.
  split; [done|]. split; [done|]. intros Hp. split.
  - destruct (captions (exec p inputs (mount p))) as [|row rows]; [done|].
    apply Forall_cons in Hc as [(_ & _ & Hrs & [sd Hsd] & Hanchor) _].
    destruct Hp as [Hp|Hp]; congruence.
  - eapply Forall_impl; [exact Ha|]. intros a Hatt x ->.
    destruct Hatt as (_ & _ & Hs & Hanchor).
    destruct Hp as [Hp|Hp]; congruence.
Qed.

Lemma enabled_guard p :
  Props.isAnchor p && Props.autoStart p
  && bool_decide (is_Some (Props.participantSide p)) = true
  <-> auto_restart_enabled p.
Proof.
  unfold auto_restart_enabled.
  rewrite !andb_true_iff, bool_decide_eq_true. tauto.
Qed.

Lemma guard_disabled p c :
  ¬ auto_restart_enabled p -> restart_guard p c = false.
Proof.
  intros Hn. unfold restart_guard.
  destruct (Props.isAnchor p && Props.autoStart p
            && bool_decide (is_Some (Props.participantSide p))) eqn:E;
    [|done].
  by apply enabled_guard in E.
Qed.

Lemma mount_disabled p :
  ¬ auto_restart_enabled p ->
  timers (mount p) = ∅ ∧ actions (mount p) = [].
Proof.
  intros Hn. unfold mount.
  destruct (Props.isAnchor p && Props.autoStart p
            && bool_decide (is_Some (Props.participantSide p))) eqn:E;
    [|done].
  by apply enabled_guard in E.
Qed.

Lemma rerender_no_timers s :
  timers s = ∅ -> timers (rerender s) = ∅.
Proof.
  intros Ht. session_crush; rewrite ?Ht; try done; apply delete_empty.
Qed.

Lemma quiet_manual a : quiet a -> manual a.
Proof. by destruct a. Qed.

Lemma handle_manual p e s :
  ¬ auto_restart_enabled p -> timers s = ∅ ->
  timers (handle p e s) = ∅
  ∧ ∃ new, actions (handle p e s) = actions s ++ new ∧ Forall manual new.
Proof.
  intros Hn Ht.
  destruct e as [r [| |kind|ev io]|id| | |].
  - (* start *)
    split; [by session_crush|]. exists []. rewrite app_nil_r.
    split; [by session_crush|constructor].
  - (* end *)
    unfold handle. destruct (recognitions s !! r) as [c|] eqn:Hr.
    2: { split; [done|]. exists []. by rewrite app_nil_r. }
    rewrite onend_idle by (by apply guard_disabled).
    split; [done|]. exists []. by rewrite app_nil_r.
  - (* error *)
    split; [by session_crush|]. exists []. rewrite app_nil_r.
    split; [by session_crush|constructor].
  - (* result *)
    split; [by session_crush|].
    session_crush;
      (eexists; split;
         [first [symmetry; apply app_nil_r
                | rewrite <- ?app_assoc; reflexivity]|]);
      by repeat constructor.
  - (* no timer is pending *)
    unfold handle. rewrite Ht, lookup_empty.
    split; [done|]. exists []. by rewrite app_nil_r.
  - (* startListening *)
    split; [by session_crush|].
    session_crush;
      (eexists; split;
         [first [symmetry; apply app_nil_r
                | rewrite <- ?app_assoc; reflexivity]|]);
      by repeat constructor.
  - (* stopListening *)
    split; [session_crush; rewrite ?Ht; try done; apply delete_empty|].
    session_crush;
      (eexists; split;
         [first [symmetry; apply app_nil_r
                | rewrite <- ?app_assoc; reflexivity]|]);
      by repeat constructor.
  - (* clearTranscript *)
    split; [by session_crush|]. exists []. rewrite app_nil_r.
    split; [by session_crush|constructor].
Qed.

Lemma exec_no_timers (p : Props.t) (inputs : list input) :
  ¬ auto_restart_enabled p -> timers (exec p inputs (mount p)) = ∅.
Proof.
  intros Hn. induction inputs as [|i inputs IH] using rev_ind.
  - simpl. by destruct (mount_disabled p Hn) as [-> _].
  - rewrite exec_snoc. destruct i as [e|]; simpl.
    + by destruct (handle_manual p e _ Hn IH) as [Ht _].
    + by apply rerender_no_timers.
Qed.

(** X18.  Unless the hook is used by an anchor with auto-start on and a
    resolved side, it never sets a timer: no start on mount, no automatic
    restart and no retry is ever scheduled, no timer is ever pending, and
    recognition is started only when the consumer calls
    [startListening]. *)
Theorem no_timer_without_auto_start (p : Props.t) (inputs : list input) :
  ¬ auto_restart_enabled p ->
  timers (exec p inputs (mount p)) = ∅
  ∧ Forall manual (actions (exec p inputs (mount p))).
Proof.
  intros Hn. split; [by apply exec_no_timers|].
  induction inputs as [|i inputs IH] using rev_ind.
  - simpl. by destruct (mount_disabled p Hn) as [_ ->].
  - rewrite exec_snoc. destruct i as [e|]; simpl.
    + destruct (handle_manual p e _ Hn (exec_no_timers p inputs Hn))
        as (_ & new & -> & Hnew).
      by apply Forall_app.
    + destruct (rerender_quiet (exec p inputs (mount p)))
        as (_ & new & -> & Hnew).
      apply Forall_app. split; [done|].
      eapply Forall_impl; [exact Hnew|]. apply quiet_manual.
Qed.

(** X18 for a member of the audience whose recognizer ends. *)
Lemma no_timer_without_auto_start_witness :
  timers (exec audience_b
            (rendered [call_startListening; recognizer 0 start_event;
                       recognizer 0 end_event])
            (mount audience_b)) = ∅.
Proof.
  refine (proj1 (no_timer_without_auto_start audience_b
                   (rendered [call_startListening; recognizer 0 start_event;
                              recognizer 0 end_event]) _)).
  intros (Ha & _). discriminate Ha.
Defined.

Lemma handle_no_side p e s :
  Props.participantSide p = None -> timers s = ∅ ->
  ∃ new, actions (handle p e s) = actions s ++ new ∧ Forall quiet new.
Proof.
  intros Hside Ht.
  destruct e as [r [| |kind|ev io]|id| | |].
  - exists []. rewrite app_nil_r. split; [by session_crush|constructor].
  - unfold handle. destruct (recognitions s !! r) as [c|] eqn:Hr.
    2: { exists []. by rewrite app_nil_r. }
    rewrite onend_idle.
    + exists []. by rewrite app_nil_r.
    + apply guard_disabled. intros (_ & _ & [sd Hsd]). congruence.
  - exists []. rewrite app_nil_r. split; [by session_crush|constructor].
  - unfold handle. destruct (recognitions s !! r) as [c|] eqn:Hr.
    2: { exists []. by rewrite app_nil_r. }
    unfold onresult. rewrite Hside. exists []. by rewrite app_nil_r.
  - unfold handle. rewrite Ht, lookup_empty. exists []. by rewrite app_nil_r.
  - unfold handle, startListening. rewrite Hside.
    exists []. by rewrite app_nil_r.
  - session_crush;
      (eexists; split;
         [first [symmetry; apply app_nil_r
                | rewrite <- ?app_assoc; reflexivity]|]);
      by repeat constructor.
  - exists []. rewrite app_nil_r. split; [by session_crush|constructor].
Qed.

(** X19.  While the participant's side is not known the hook is inert: it
    never calls [start()], never sets a timer and never asks the store to
    write, whatever the recognizer, the consumer and React do; a call of
    [startListening] only sets the error ['Cannot start recording:
    participant side not determined']. *)
Theorem no_side_no_recognition (p : Props.t) (inputs : list input) :
  Props.participantSide p = None ->
  let s := exec p inputs (mount p) in
  Forall quiet (actions s)
  ∧ captions s = []
  ∧ handle p call_startListening s
    = set_error
        (lit "Cannot start recording: participant side not determined") s.
Proof.
  intros Hside. cbv zeta.
  assert (Hn : ¬ auto_restart_enabled p).
  { intros (_ & _ & [sd Hsd]). congruence. }
  split; [|split].
  - induction inputs as [|i inputs IH] using rev_ind.
    + simpl. destruct (mount_disabled p Hn) as [_ ->]. constructor.
    + rewrite exec_snoc. destruct i as [e|]; simpl.
      * destruct (handle_no_side p e (exec p inputs (mount p)) Hside)
          as (new & -> & Hnew).
        { by apply exec_no_timers. }
        by apply Forall_app.
      * destruct (rerender_quiet (exec p inputs (mount p)))
          as (_ & new & -> & Hnew).
        by apply Forall_app.
  - induction inputs as [|i inputs IH] using rev_ind.
    + simpl. apply mount_captions.
    + rewrite exec_snoc. destruct i as [e|]; simpl.
      * destruct (handle_captions_attributed p e (exec p inputs (mount p)))
          as ([|row rows] & -> & Hrows); [by rewrite app_nil_r|].
        apply Forall_cons in Hrows as [(_ & _ & Hrow & [sd Hsd] & _) _].
        congruence.
      * by rewrite rerender_captions.
  - unfold handle, startListening. by rewrite Hside.
Qed.

(** X19 for an anchor whose side is not resolved, after a start event and a
    call of [stopListening]. *)
Lemma no_side_no_recognition_witness :
  error (handle unresolved_anchor call_startListening
           (exec unresolved_anchor
              (rendered [recognizer 0 start_event; call_stopListening])
              (mount unresolved_anchor)))
  = lit "Cannot start recording: participant side not determined".
Proof.
  rewrite (proj2 (proj2 (no_side_no_recognition unresolved_anchor
             (rendered [recognizer 0 start_event; call_stopListening])
             eq_refl))).
  reflexivity.
Defined.

(** ** The store's answer and the session *)

Lemma forget_store_eq s1 s2 :
  forget_store s1 = forget_store s2 ->
  ∃ c, s1 = set_captions c s2.
Proof.
  destruct s1, s2. unfold forget_store, set_captions. simpl.
  intros [= -> -> -> -> -> -> -> -> -> -> ->]. by eexists.
Qed.

Lemma handle_forget_store p e c s :
  forget_store (handle p e (set_captions c s))
  = forget_store (handle p (match refused (Ev e) with Ev e' => e' | Render => e end) s).
Proof.
  destruct e as [r [| |kind|ev io]|id| | |]; simpl refused; cbv iota.
  all: unfold forget_store.
  all: session_crush; try congruence; reflexivity.
Qed.

Lemma rerender_forget_store c s :
  forget_store (rerender (set_captions c s)) = forget_store (rerender s).
Proof. unfold forget_store. session_crush; try congruence; reflexivity. Qed.

Lemma exec1_forget_store p i s1 s2 :
  forget_store s1 = forget_store s2 ->
  forget_store (exec1 p s1 i) = forget_store (exec1 p s2 (refused i)).
Proof.
  intros [c ->]%forget_store_eq. destruct i as [e|].
  - change (exec1 p (set_captions c s2) (Ev e))
      with (handle p e (set_captions c s2)).
    rewrite handle_forget_store.
    by destruct e as [r [| |kind|ev io]|id| | |].
  - apply rerender_forget_store.
Qed.

(** X20.  What the store answers to an insert changes nothing in the
    session but the rows the store holds: if every insert is refused, the
    React state, the refs, the recognition objects, the pending timers and
    the host calls made, insert requests included, are the same as when
    every insert is accepted.  A store failure never stops or restarts a
    session. *)
Theorem store_failure_leaves_session (p : Props.t) (inputs : list input) :
  forget_store (exec p (map refused inputs) (mount p))
  = forget_store (exec p inputs (mount p))
  ∧ captions (exec p (map refused inputs) (mount p)) = [].
Proof.
  split.
  - induction inputs as [|i inputs IH] using rev_ind; [done|].
    rewrite map_app. change (map refused [i]) with [refused i].
    rewrite !exec_snoc. symmetry. apply exec1_forget_store.
    by symmetry.
  - induction inputs as [|i inputs IH] using rev_ind.
    + apply mount_captions.
    + rewrite map_app. change (map refused [i]) with [refused i].
      rewrite exec_snoc.
      destruct i as [[r [| |kind|ev io]|id| | |]|]; simpl;
        try (rewrite <- IH; session_crush; done).
Qed.

(** ** Starting, and the timers nobody cancels *)

(** X21.  A call of [startListening] with a resolved side clears the
    transcript shown, the buffered final text and the attempt count before
    it calls [start()], and cancels no timer.  When the recognizer is
    already started, [start()] throws: the error ['Failed to start speech
    recognition'] is set, the recognizer is left as it is, and the
    transcript is gone all the same; otherwise the error is cleared and
    the recognizer is started. *)
Theorem startListening_resets_and_starts (p : Props.t) (s : Session.t)
    (sd : side) (c : Recognition.t) :
  Props.participantSide p = Some sd ->
  recognitions s !! current s = Some c ->
  let s' := handle p call_startListening s in
  transcript s' = [] ∧ finalTranscriptRef s' = []
  ∧ autoRestartCount s' = 0%nat
  ∧ timers s' = timers s
  ∧ autoRestartTimeoutRef s' = autoRestartTimeoutRef s
  ∧ (if Recognition.started c
     then error s' = lit "Failed to start speech recognition"
          ∧ recognitions s' = recognitions s
          ∧ actions s'
            = actions s ++ [RecognitionStart (current s) by_caller false]
     else error s' = []
          ∧ recognitions s'
            = <[current s := Recognition.mk (Recognition.autoRestartCount c)
                               (Recognition.isListening c) true]>
                (recognitions s)
          ∧ actions s'
            = actions s ++ [RecognitionStart (current s) by_caller true]).
Proof.
  intros Hside Hc. cbv zeta.
  unfold handle, startListening. rewrite Hside.
  unfold current in *. rewrite Hc.
  unfold recognition_start, current.
  repeat session_proj. rewrite Hc.
  destruct (Recognition.started c); repeat session_proj; done.
Qed.

(** X21 for an anchor who calls [startListening] twice. *)
Lemma startListening_resets_and_starts_witness :
  error (handle anchor_a call_startListening
           (handle anchor_a call_startListening (mount anchor_a)))
  = lit "Failed to start speech recognition".
Proof.
  exact (proj1 (proj2 (proj2 (proj2 (proj2 (proj2
    (startListening_resets_and_starts anchor_a
       (handle anchor_a call_startListening (mount anchor_a)) side_a
       (Recognition.mk 0 false true) eq_refl eq_refl))))))).
Defined.

Lemma handle_tracked p e s :
  timers_tracked s -> timers_tracked (handle p e s).
Proof.
  intros [Hfresh Href].
  destruct e as [r [| |kind|ev io]|id| | |]; unfold_callbacks.
  all: repeat session_case.
  all: try (split; [exact Hfresh|exact Href]).
  all: unfold timers_tracked; repeat session_step.
  all: split; [intros i t' Hi | intros i Hi; split; [|intros t' Ht']].
  all: repeat match goal with
              | H : <[_ := _]> _ !! _ = Some _ |- _ =>
                  apply lookup_insert_Some in H as [[? ?]|[? ?]]
              | H : delete _ _ !! _ = Some _ |- _ =>
                  apply lookup_delete_Some in H as [? ?]
              end.
  all: simplify_eq.
  all: try match goal with
           | H : autoRestartTimeoutRef _ = Some _ |- _ =>
               destruct (Href _ H) as [? ?]
           end.
  all: try match goal with
           | H : ∀ i, Some _ = Some i -> _ |- _ =>
               destruct (H _ eq_refl) as [? ?]
           end.
  all: try (by eauto).
  all: repeat match goal with
              | H : timers _ !! _ = Some _ |- _ => apply Hfresh in H
              end.
  all: lia.
Qed.

Lemma rerender_tracked s : timers_tracked s -> timers_tracked (rerender s).
Proof.
  intros [Hfresh Href]. unfold_callbacks.
  repeat session_case.
  all: try (split; [exact Hfresh|exact Href]).
  all: unfold timers_tracked; repeat session_step.
  all: split; [intros i t' Hi | intros i Hi; split; [|intros t' Ht']].
  all: repeat match goal with
              | H : delete _ _ !! _ = Some _ |- _ =>
                  apply lookup_delete_Some in H as [? ?]
              end.
  all: simplify_eq.
  all: try match goal with
           | H : autoRestartTimeoutRef _ = Some _ |- _ =>
               destruct (Href _ H) as [? ?]
           end.
  all: try match goal with
           | H : ∀ i, Some _ = Some i -> _ |- _ =>
               destruct (H _ eq_refl) as [? ?]
           end.
  all: try (by eauto).
  all: repeat match goal with
              | H : timers _ !! _ = Some _ |- _ => apply Hfresh in H
              end.
  all: lia.
Qed.

Lemma mount_tracked p : timers_tracked (mount p).
Proof.
  unfold mount. case_match; unfold timers_tracked; repeat session_step.
  - split; [|done]. intros i t [[<- _]|[_ Hi]]%lookup_insert_Some; [lia|].
    by rewrite lookup_empty in Hi.
  - split; [|done]. intros i t Hi. by rewrite lookup_empty in Hi.
Qed.

Lemma exec_tracked p inputs : timers_tracked (exec p inputs (mount p)).
Proof.
  induction inputs as [|i inputs IH] using rev_ind; [apply mount_tracked|].
  rewrite exec_snoc. destruct i as [e|]; simpl.
  - by apply handle_tracked.
  - by apply rerender_tracked.
Qed.

Lemma tracked_untracked s id t :
  timers_tracked s -> timers s !! id = Some t -> untracked t ->
  (id < nextTimerId s)%nat ∧ autoRestartTimeoutRef s ≠ Some id.
Proof.
  intros [Hfresh Href] Hid Hun. split; [by eapply Hfresh|].
  intros Hr. destruct (Href _ Hr) as [_ Ht].
  destruct (Ht _ Hid) as [l ->]. done.
Qed.

Lemma handle_keeps_untracked p e s id t :
  timers_tracked s -> timers s !! id = Some t -> untracked t ->
  e ≠ timer_fires id ->
  timers (handle p e s) !! id = Some t.
Proof.
  intros Htr Hid Hun He.
  destruct (tracked_untracked s id t Htr Hid Hun) as [Hlt Href].
  destruct e as [r [| |kind|ev io]|id'| | |]; unfold_callbacks.
  all: repeat session_case.
  all: repeat session_step.
  all: try done.
  all: rewrite ?lookup_insert_ne, ?lookup_delete_ne by (congruence || lia).
  all: done.
Qed.

Lemma rerender_keeps_untracked s id t :
  timers_tracked s -> timers s !! id = Some t -> untracked t ->
  timers (rerender s) !! id = Some t ∧ timers (cleanup s) !! id = Some t.
Proof.
  intros Htr Hid Hun.
  destruct (tracked_untracked s id t Htr Hid Hun) as [Hlt Href].
  split; unfold_callbacks; repeat session_case; repeat session_step;
    try done.
  all: match goal with
       | |- delete ?j _ !! _ = _ =>
           rewrite (lookup_delete_ne _ j id)
       end.
  all: try done.
  all: intros Heq; apply Href; rewrite <- Heq.
  all: first [reflexivity
             | match goal with
               | H : _ = Some ?j |- _ = Some ?j => exact H
               end].
Qed.

(** X22.  Neither [stopListening], nor the cleanup of the effect, nor any
    other callback ever cancels the start-on-mount timer or a five-second
    retry timer: [autoRestartTimeoutRef] never names one, so once such a
    timer is set it stays pending until it fires, and then calls
    [start()] (through [startListening] for the start on mount) whatever
    has happened in between. *)
Theorem untracked_timers_stay_pending (p : Props.t) (inputs : list input)
    (id : nat) (t : timer) :
  let s := exec p inputs (mount p) in
  timers s !! id = Some t -> untracked t ->
  autoRestartTimeoutRef s ≠ Some id
  ∧ timers (handle p call_stopListening s) !! id = Some t
  ∧ timers (cleanup s) !! id = Some t
  ∧ timers (rerender s) !! id = Some t
  ∧ ∀ e, e ≠ timer_fires id -> timers (handle p e s) !! id = Some t.
Proof.
  cbv zeta. intros Hid Hun.
  pose proof (exec_tracked p inputs) as Htr.
  destruct (rerender_keeps_untracked _ _ _ Htr Hid Hun) as [Hr Hc].
  split; [by destruct (tracked_untracked _ _ _ Htr Hid Hun)|].
  split; [by apply handle_keeps_untracked|].
  split; [done|]. split; [done|].
  intros e He. by apply handle_keeps_untracked.
Qed.

(** X22 for the start-on-mount timer of an anchor who starts and stops the
    session within the first second. *)
Lemma untracked_timers_stay_pending_witness :
  timers (handle anchor_a call_stopListening
            (exec anchor_a started_then_stopped (mount anchor_a))) !! 1%nat
  = Some autostart_timer.
Proof.
  exact (proj1 (proj2 (untracked_timers_stay_pending anchor_a
                         started_then_stopped 1%nat autostart_timer
                         eq_refl I))).
Defined.

(** ** From the hook to the readers *)

Lemma exec_captions_final_of_room p inputs :
  Forall (final_row_of_room p) (captions (exec p inputs (mount p))).
Proof.
  induction inputs as [|i inputs IH] using rev_ind.
  - simpl. rewrite mount_captions. constructor.
  - rewrite exec_snoc. destruct i as [e|]; simpl;
      [|by rewrite rerender_captions].
    destruct (handle_captions p e (exec p inputs (mount p)))
      as [->|(r & ev & io & id & ts & sd & cf & -> & Ht & _ & ->)]; [done|].
    apply Forall_app. split; [done|]. by repeat constructor.
Qed.

(** X23.  Every caption the hook has stored is served to the readers of
    its room: every answer to the bulk query of [useCaptions] for the room,
    on any table that holds the caption, holds it, and a live notification
    of it is appended to the view. *)
Theorem stored_captions_reach_readers (p : Props.t) (inputs : list input)
    (table data : list CaptionRow.t) :
  let s := exec p inputs (mount p) in
  (∀ row, row ∈ captions s -> row ∈ table) ->
  fetchCaptions_query (Props.roomId p) table data ->
  Forall (λ row, row ∈ useCaptions (Props.roomId p) [fetch_resolved data]
                 ∧ ∀ events,
                     useCaptions (Props.roomId p)
                       (events ++ [row_inserted row])
                     = useCaptions (Props.roomId p) events ++ [row])
         (captions s).
Proof.
  cbv zeta. intros Htable Hdata.
  pose proof (exec_captions_final_of_room p inputs) as Hall.
  apply Forall_forall. intros row Hrow. rewrite Forall_forall in Hall.
  destruct (Hall row Hrow) as [Hroom Hfinal]. split.
  - unfold useCaptions. simpl.
    apply (fetchCaptions_query_elem_of _ _ _ _ Hdata). auto.
  - intros events. rewrite useCaptions_snoc. simpl.
    by rewrite decide_True.
Qed.

(** X23 for one stored caption, in a table that also holds an interim
    row. *)
Lemma stored_captions_reach_readers_witness :
  Forall (λ row, row ∈ useCaptions (lit "room-1")
                         [fetch_resolved
                            (captions (exec anchor_a one_caption_stored
                                         (mount anchor_a)))])
         (captions (exec anchor_a one_caption_stored (mount anchor_a))).
Proof.
  eapply Forall_impl.
  - apply (stored_captions_reach_readers anchor_a one_caption_stored
             (interim_row
              :: captions (exec anchor_a one_caption_stored
                             (mount anchor_a)))
             (captions (exec anchor_a one_caption_stored (mount anchor_a)))).
    + intros row Hrow. by right.
    + split; [vm_compute; reflexivity|].
      repeat constructor.
  - intros row [Hrow _]. exact Hrow.
Defined.

(** ** The transcript of a listener who is not an anchor *)

Lemma handle_buffer_not_anchor p e s :
  Props.isAnchor p = false -> finalTranscriptRef s = [] ->
  finalTranscriptRef (handle p e s) = [].
Proof.
  intros Ha Hs.
  destruct e as [r [| |kind|ev io]|id| | |].
  4: { unfold handle. destruct (recognitions s !! r); [|done].
       unfold onresult. rewrite Ha, andb_false_r.
       by destruct (Props.participantSide p). }
  all: session_crush; done.
Qed.

Lemma exec_buffer_not_anchor p inputs :
  Props.isAnchor p = false ->
  finalTranscriptRef (exec p inputs (mount p)) = [].
Proof.
  intros Ha. induction inputs as [|i inputs IH] using rev_ind.
  - unfold mount. by case_match.
  - rewrite exec_snoc. destruct i as [e|]; simpl.
    + by apply handle_buffer_not_anchor.
    + rewrite <- IH. session_crush; done.
Qed.

(** X24.  For a listener who is not an anchor the transcript never
    accumulates: the buffer of final text stays empty, so after every
    result event the transcript shows the text of that event only, and the
    final text of earlier events is gone. *)
Theorem transcript_of_audience_does_not_accumulate (p : Props.t)
    (inputs : list input) (r : nat) (ev : ResultEvent.t)
    (io : insert_outcome) (c : Recognition.t) :
  Props.isAnchor p = false ->
  let s := exec p inputs (mount p) in
  recognitions s !! r = Some c ->
  finalTranscriptRef s = []
  ∧ transcript (handle p (recognizer r (result_event ev io)) s)
    = finalTranscript ev ++ interimTranscript ev
  ∧ finalTranscriptRef (handle p (recognizer r (result_event ev io)) s) = [].
Proof.
  intros Ha. cbv zeta. intros Hr.
  pose proof (exec_buffer_not_anchor p inputs Ha) as Hbuf.
  split; [done|]. split.
  - unfold handle. rewrite Hr. unfold onresult. rewrite Ha, andb_false_r.
    destruct (Props.participantSide p); repeat session_proj;
      by rewrite Hbuf.
  - by apply handle_buffer_not_anchor.
Qed.

(** X24 for a member of the audience after a first result event. *)
Lemma transcript_of_audience_does_not_accumulate_witness :
  transcript (exec audience_b two_result_events (mount audience_b))
  = lit "next".
Proof.
  exact (proj1 (proj2 (transcript_of_audience_does_not_accumulate audience_b
           [Ev (recognizer 0 (result_event mixed_event (stored 1 5000)))]
           0%nat
           (ResultEvent.mk 1
              [RecognitionResult.mk (Alternative.mk (lit "old") None) true;
               RecognitionResult.mk (Alternative.mk (lit "next") None) false])
           (stored 2 6000) (Recognition.mk 0 false false) eq_refl eq_refl))).
Defined.

(** X26 on the scenario's sources, which are fetched in timestamp order. *)
Lemma allContent_keeps_sources_witness :
  filter (λ e, Entry.type e = type_message)
         (allContent scenario_messages scenario_captions)
    = map of_message scenario_messages
  ∧ filter (λ e, Entry.type e = type_caption)
           (allContent scenario_messages scenario_captions)
    = map of_caption scenario_captions.
Proof.
  apply (allContent_keeps_sources scenario_messages scenario_captions).
  - unfold scenario_messages. repeat constructor; unfold le_of; simpl; lia.
  - unfold scenario_captions. repeat constructor; unfold le_of; simpl; lia.
Defined.

(** ** From the store to the summary *)

(** X27.  A caption that the hook has stored for its side is counted for
    that side in the summary: when the summary's captions are an answer of
    the store on a table that holds the stored rows, every stored row is an
    entry of the contributions of the hook's side in the merged transcript,
    whatever the chat messages are. *)
Theorem stored_captions_count_for_their_side (p : Props.t)
    (inputs : list input) (table data : list CaptionRow.t)
    (messages : list Message.t) (sd : side) :
  Props.participantSide p = Some sd ->
  let s := exec p inputs (mount p) in
  (∀ row, row ∈ captions s -> row ∈ table) ->
  fetchCaptions_query (Props.roomId p) table data ->
  Forall (λ row, of_caption (caption_of_row row)
                 ∈ sideContent sd
                     (allContent messages (map caption_of_row data)))
         (captions s).
Proof.
  intros Hside. cbv zeta. intros Htable Hdata.
  pose proof (exec_captions_final_of_room p inputs) as Hfinal.
  pose proof (exec_captions_attributed p inputs) as Hattr.
  apply Forall_forall. intros row Hrow.
  rewrite Forall_forall in Hfinal, Hattr.
  destruct (Hfinal row Hrow) as [Hroom Hfin].
  destruct (Hattr row Hrow) as (_ & _ & Hrs & _).
  unfold sideContent. apply list_elem_of_filter. split.
  - simpl. by rewrite Hrs.
  - unfold allContent. rewrite by_time_cmp, js_sort_perm. unfold fetched.
    apply elem_of_app. right. apply list_elem_of_fmap.
    exists (caption_of_row row). split; [done|].
    apply list_elem_of_fmap. exists row.
    split; [done|].
    apply (fetchCaptions_query_elem_of _ _ _ _ Hdata). auto.
Qed.

(** X27 for one stored caption of the anchor of side A. *)
Lemma stored_captions_count_for_their_side_witness :
  Forall (λ row, of_caption (caption_of_row row)
                 ∈ sideContent side_a
                     (allContent scenario_messages
                        (map caption_of_row
                           (captions (exec anchor_a one_caption_stored
                                        (mount anchor_a))))))
         (captions (exec anchor_a one_caption_stored (mount anchor_a))).
Proof.
  refine (stored_captions_count_for_their_side anchor_a one_caption_stored
            (captions (exec anchor_a one_caption_stored (mount anchor_a)))
            (captions (exec anchor_a one_caption_stored (mount anchor_a)))
            scenario_messages side_a eq_refl (λ row Hrow, Hrow) _).
  split; [vm_compute; reflexivity|]. repeat constructor.
Defined.

(** X28.  The view of the caption reader only ever holds rows of its room:
    the bulk query selects by room, and a notification for another room is
    not appended. *)
Theorem useCaptions_only_rows_of_room (roomId : jsstring)
    (events : list reader_event) :
  answered roomId events ->
  rows_of_room roomId (useCaptions roomId events).
Proof.
  unfold rows_of_room.
  induction events as [|ev events IH] using rev_ind; intros Hans;
    [constructor|].
  apply answered_app in Hans as [Hans1 Hans2]. specialize (IH Hans1).
  rewrite useCaptions_snoc. destruct ev as [data| |row]; simpl.
  - apply Forall_cons in Hans2 as [[table [Hperm _]] _]. rewrite Hperm.
    apply Forall_forall. intros r Hr.
    by apply list_elem_of_filter in Hr as [[? _] _].
  - done.
  - case_decide; [|done]. apply Forall_app. split; [done|].
    by repeat constructor.
Qed.

(** X28 at a view that gets the answer of the store on a table holding a
    row of another room, and then a notification for another room. *)
Lemma useCaptions_only_rows_of_room_witness :
  useCaptions (lit "room-1")
    [fetch_resolved captions_answer; row_inserted other_room_row]
  = captions_answer
  ∧ rows_of_room (lit "room-1")
      (useCaptions (lit "room-1")
         [fetch_resolved captions_answer; row_inserted other_room_row]).
Proof.
  split; [reflexivity|].
  apply useCaptions_only_rows_of_room.
  repeat constructor. exists captions_table.
  split; [vm_compute; apply perm_swap|].
  repeat constructor; unfold le_of; simpl; lia.
Defined.
